(** * Embedding analysis core of VE_Learning

    A shallow embedding of [src/lib/dimensionality-reduction.ts]: the
    reducers [performPCA] and [performTSNE], the clusterer
    [performSimpleClustering], the pipeline [reduceDimensions], and the
    similarity functions [cosineSimilarity] and [findMostSimilar], with the
    properties the specification states about them.

    JavaScript numbers are IEEE 754 binary64 values, and so are Rocq's
    primitive floats: [number] is [float], and [+], [*], [/], [<], [===]
    and [Math.sqrt] are the kernel's operations, so every definition below
    runs on concrete inputs.  What the code takes from its environment
    ([Math.cos], [Math.sin], [Math.random], the ml-pca and tsne-js
    libraries) is a field of the record [Env].

    The development also covers the rest of the similarity library (the
    distances, [compareSentences], [calculateGroupSimilarity]),
    [normalizeEmbeddings], the two embedding routes
    ([src/app/api/embeddings-simple/route.ts] with its hashed word
    vectors, [src/app/api/embeddings/route.ts] with its cached model) and
    the comparison loops of [src/components/header.tsx]. *)

From Stdlib Require Import String Bool Arith PArith ZArith Lia List Permutation.
From Stdlib Require Import PrimFloat SpecFloat FloatOps FloatAxioms.
From Stdlib Require Uint63.
Import ListNotations.

Set Implicit Arguments.
Set Warnings "-inexact-float".

Local Open Scope string_scope.
Local Open Scope float_scope.

(** ** JavaScript values and built-ins *)

Module JS.

Definition number := float.

(** A thrown value: an [Error] with its message, or anything else. *)
Inductive thrown : Type :=
| Error (message : string)
| Thrown.

(** The outcome of evaluating code that may throw. *)
Inductive Result (A : Type) : Type :=
| Ok (a : A)
| Throw (e : thrown).

Arguments Ok {A} a.
Arguments Throw {A} e.

(** An array length or index as a number (exact below 2^53). *)
Definition of_nat (n : nat) : number :=
  PrimFloat.of_uint63 (Uint63.of_Z (Z.of_nat n)).

(** [undefined] is [None]; arithmetic and comparison turn it into NaN. *)
Definition ToNumber (v : option number) : number :=
  match v with
  | Some x => x
  | None => nan
  end.

(** Truthiness of a number: false for [0], [-0] and NaN. *)
Definition ToBoolean (x : number) : bool :=
  negb (x =? 0) && negb (is_nan x).

(** Truthiness of [l[i]]: [undefined] is falsy. *)
Definition truthy (v : option number) : bool :=
  match v with
  | Some x => ToBoolean x
  | None => false
  end.

Definition Math_PI : number := 0x1.921fb54442d18p+1.

Definition Math_sqrt (x : number) : number := PrimFloat.sqrt x.

(** [Math.min]: NaN if either argument is NaN, and [-0] below [+0]. *)
Definition Math_min (a b : number) : number :=
  if is_nan a || is_nan b then nan
  else if a <? b then a
  else if b <? a then b
  else if get_sign a then a else b.

(** [Math.floor]: below 2^52 in magnitude, adding and removing 2^52 rounds
    to an integer, which is then corrected downwards. *)
Definition Math_floor (x : number) : number :=
  if is_nan x || (0x1p52 <=? abs x) then x
  else
    let r := if 0 <=? x then (x + 0x1p52) - 0x1p52 else (x - 0x1p52) + 0x1p52 in
    if r =? x then x
    else if x <? r then r - 1
    else r.

(** [Array.prototype.reduce] with the element's index. *)
Fixpoint reduce_from {A B : Type} (f : B -> A -> nat -> B)
  (l : list A) (i : nat) (acc : B) : B :=
  match l with
  | [] => acc
  | x :: l' => reduce_from f l' (S i) (f acc x i)
  end.

Definition reduce {A B : Type} (f : B -> A -> nat -> B) (l : list A) (init : B) : B :=
  reduce_from f l 0 init.

(** [Array.prototype.map] with the element's index. *)
Fixpoint map_from {A B : Type} (f : A -> nat -> B) (l : list A) (i : nat) : list B :=
  match l with
  | [] => []
  | x :: l' => f x i :: map_from f l' (S i)
  end.

Definition mapi {A B : Type} (f : A -> nat -> B) (l : list A) : list B :=
  map_from f l 0.

(** [Array.prototype.sort(cmp)] on defined numbers.  ECMAScript requires a
    stable sort and reads a NaN from the comparator as [+0]; for a
    comparator that orders its inputs consistently the result is the unique
    stable ordering, computed here by insertion: [x] moves right past [y]
    while [cmp x y > 0].  On an array that holds a NaN the comparator
    [a - b] is not consistent and ECMAScript leaves the order to the
    engine, which need not be the one computed here; the statements below
    that depend on the order are about arrays without NaN. *)
Fixpoint insert_sorted (cmp : number -> number -> number)
  (x : number) (l : list number) : list number :=
  match l with
  | [] => [x]
  | y :: l' => if 0 <? cmp x y then y :: insert_sorted cmp x l' else x :: y :: l'
  end.

Fixpoint sort_numbers (cmp : number -> number -> number) (l : list number) : list number :=
  match l with
  | [] => []
  | x :: l' => insert_sorted cmp x (sort_numbers cmp l')
  end.

(** The defined elements of an array, in order. *)
Fixpoint defined (l : list (option number)) : list number :=
  match l with
  | [] => []
  | Some x :: l' => x :: defined l'
  | None :: l' => defined l'
  end.

(** [sort] on an array that may hold [undefined]: the defined elements are
    sorted and every [undefined] goes to the end, unseen by the comparator. *)
Definition sort (cmp : number -> number -> number)
  (l : list (option number)) : list (option number) :=
  let ds := sort_numbers cmp (defined l) in
  map Some ds ++ repeat None (length l - length ds).

End JS.

Import JS.

(** The nested loops [for (i ...) for (j = i + 1 ...)] over an array, with
    the loop variables' state [st] and a body that may throw: the element
    at [i] meets every later one, in index order. *)
Fixpoint forLater {A S : Type} (body : S -> A -> A -> Result S)
  (x : A) (later : list A) (st : S) : Result S :=
  match later with
  | [] => Ok st
  | y :: later' =>
      match body st x y with
      | Throw e => Throw e
      | Ok st' => forLater body x later' st'
      end
  end.

Fixpoint forPairs {A S : Type} (body : S -> A -> A -> Result S)
  (l : list A) (st : S) : Result S :=
  match l with
  | [] => Ok st
  | x :: later =>
      match forLater body x later st with
      | Throw e => Throw e
      | Ok st' => forPairs body later st'
      end
  end.

(** ** Data model ([src/types/embeddings.ts]) *)

Record EmbeddingData : Type := {
  id : string;
  sentence : string;
  embedding : list number;
  timestamp : string
}.

(** ** Similarity metrics *)

Module Similarity.

Definition cosineSimilarity (a b : list number) : Result number :=
  if negb (length a =? length b)%nat then
    Throw (Error "Vectors must have the same length")
  else
    let dotProduct := reduce (fun sum val i => sum + val * ToNumber (nth_error b i)) a 0 in
    let magnitudeA := Math_sqrt (reduce (fun sum val _ => sum + val * val) a 0) in
    let magnitudeB := Math_sqrt (reduce (fun sum val _ => sum + val * val) b 0) in
    if (magnitudeA =? 0) || (magnitudeB =? 0) then Ok 0
    else Ok (dotProduct / (magnitudeA * magnitudeB)).

(** The object [findMostSimilar] returns when it does not return [null],
    with its fields [sentence] and [similarity]. *)
Record Match : Type := {
  match_sentence : string;
  match_similarity : number
}.

(** One pass of the [forEach] body over the two mutable locals
    [maxSimilarity] and [mostSimilar]. *)
Definition scanCandidate (targetSentence : string) (targetEmbedding : list number)
  (st : number * string) (candidate : EmbeddingData) : Result (number * string) :=
  let '(maxSimilarity, mostSimilar) := st in
  if negb (String.eqb (sentence candidate) targetSentence) then
    match cosineSimilarity targetEmbedding (embedding candidate) with
    | Throw e => Throw e
    | Ok similarity =>
        if maxSimilarity <? similarity then Ok (similarity, sentence candidate)
        else Ok (maxSimilarity, mostSimilar)
    end
  else Ok (maxSimilarity, mostSimilar).

Fixpoint scanCandidates (targetSentence : string) (targetEmbedding : list number)
  (candidates : list EmbeddingData) (st : number * string) : Result (number * string) :=
  match candidates with
  | [] => Ok st
  | candidate :: rest =>
      match scanCandidate targetSentence targetEmbedding st candidate with
      | Throw e => Throw e
      | Ok st' => scanCandidates targetSentence targetEmbedding rest st'
      end
  end.

(** [None] is JavaScript's [null]. *)
Definition findMostSimilar (targetSentence : string) (targetEmbedding : list number)
  (candidates : list EmbeddingData) : Result (option Match) :=
  if (length candidates =? 0)%nat then Ok None
  else
    match scanCandidates targetSentence targetEmbedding candidates (-1, "") with
    | Throw e => Throw e
    | Ok (maxSimilarity, mostSimilar) =>
        if -1 <? maxSimilarity
        then Ok (Some {| match_sentence := mostSimilar; match_similarity := maxSimilarity |})
        else Ok None
    end.

End Similarity.

(** The interfaces [SimilarityMetrics] and [ComparisonResult]
    ([src/types/embeddings.ts]) and the object [interpretSimilarity]
    returns. *)
Module SimilarityMetrics.
Record t : Type := {
  cosineSimilarity : number;
  euclideanDistance : number;
  manhattanDistance : number;
  dotProduct : number
}.
End SimilarityMetrics.

(** The strings ['high'], ['medium'] and ['low'] of [confidenceLevel]. *)
Inductive ConfidenceLevel : Type := level_high | level_medium | level_low.

Module Interpretation.
Record t : Type := {
  interpretation : string;
  confidenceLevel : ConfidenceLevel
}.
End Interpretation.

Module ComparisonResult.
Record t : Type := {
  sentence1 : string;
  sentence2 : string;
  metrics : SimilarityMetrics.t;
  interpretation : string;
  confidenceLevel : ConfidenceLevel
}.
End ComparisonResult.

(** The other functions of the similarity library. *)
Module Comparison.

Import Similarity.

Definition euclideanDistance (a b : list number) : Result number :=
  if negb (length a =? length b)%nat then
    Throw (Error "Vectors must have the same length")
  else
    let sumSquares :=
      reduce (fun sum val i =>
                let diff := val - ToNumber (nth_error b i) in
                sum + diff * diff) a 0 in
    Ok (Math_sqrt sumSquares).

Definition manhattanDistance (a b : list number) : Result number :=
  if negb (length a =? length b)%nat then
    Throw (Error "Vectors must have the same length")
  else Ok (reduce (fun sum val i => sum + abs (val - ToNumber (nth_error b i))) a 0).

Definition dotProduct (a b : list number) : Result number :=
  if negb (length a =? length b)%nat then
    Throw (Error "Vectors must have the same length")
  else Ok (reduce (fun sum val i => sum + val * ToNumber (nth_error b i)) a 0).

(** The properties of the object literal are evaluated in source order; the
    first call that throws ends the evaluation. *)
Definition calculateSimilarityMetrics (embedding1 embedding2 : list number)
  : Result SimilarityMetrics.t :=
  match cosineSimilarity embedding1 embedding2 with
  | Throw e => Throw e
  | Ok cosine =>
  match euclideanDistance embedding1 embedding2 with
  | Throw e => Throw e
  | Ok euclidean =>
  match manhattanDistance embedding1 embedding2 with
  | Throw e => Throw e
  | Ok manhattan =>
  match dotProduct embedding1 embedding2 with
  | Throw e => Throw e
  | Ok dot =>
      Ok {| SimilarityMetrics.cosineSimilarity := cosine;
            SimilarityMetrics.euclideanDistance := euclidean;
            SimilarityMetrics.manhattanDistance := manhattan;
            SimilarityMetrics.dotProduct := dot |}
  end end end end.

Definition interpretSimilarity (cosineSim : number) : Interpretation.t :=
  if 0.9 <=? cosineSim then
    {| Interpretation.interpretation := "Extremely similar - nearly identical meaning";
       Interpretation.confidenceLevel := level_high |}
  else if 0.8 <=? cosineSim then
    {| Interpretation.interpretation := "Very similar - closely related concepts";
       Interpretation.confidenceLevel := level_high |}
  else if 0.7 <=? cosineSim then
    {| Interpretation.interpretation := "Similar - related themes or topics";
       Interpretation.confidenceLevel := level_medium |}
  else if 0.5 <=? cosineSim then
    {| Interpretation.interpretation := "Somewhat similar - some shared concepts";
       Interpretation.confidenceLevel := level_medium |}
  else if 0.3 <=? cosineSim then
    {| Interpretation.interpretation := "Slightly similar - few shared elements";
       Interpretation.confidenceLevel := level_low |}
  else
    {| Interpretation.interpretation := "Different - distinct meanings or topics";
       Interpretation.confidenceLevel := level_low |}.

Definition compareSentences (sentence1 sentence2 : string)
  (embedding1 embedding2 : list number) : Result ComparisonResult.t :=
  match calculateSimilarityMetrics embedding1 embedding2 with
  | Throw e => Throw e
  | Ok metrics =>
      let i := interpretSimilarity (SimilarityMetrics.cosineSimilarity metrics) in
      Ok {| ComparisonResult.sentence1 := sentence1;
            ComparisonResult.sentence2 := sentence2;
            ComparisonResult.metrics := metrics;
            ComparisonResult.interpretation := Interpretation.interpretation i;
            ComparisonResult.confidenceLevel := Interpretation.confidenceLevel i |}
  end.

(** The body of the inner loop of [calculateGroupSimilarity] over the locals
    [totalSimilarity] and [comparisons]. *)
Definition addSimilarity (st : number * nat) (a b : list number) : Result (number * nat) :=
  let '(totalSimilarity, comparisons) := st in
  match cosineSimilarity a b with
  | Throw e => Throw e
  | Ok similarity => Ok (totalSimilarity + similarity, S comparisons)
  end.

Definition calculateGroupSimilarity (embeddings : list (list number)) : Result number :=
  if (length embeddings <? 2)%nat then Ok 1
  else
    match forPairs addSimilarity embeddings (0, 0%nat) with
    | Throw e => Throw e
    | Ok (totalSimilarity, comparisons) =>
        if (0 <? comparisons)%nat then Ok (totalSimilarity / of_nat comparisons)
        else Ok 0
    end.

End Comparison.

(** ** Configuration and results ([src/types/embeddings.ts]) *)

(** The strings ['pca'] and ['tsne'] of [method]. *)
Inductive Method : Type := method_pca | method_tsne.

(** The type [2 | 3] of [dimensions]. *)
Inductive Dimensions : Type := D2 | D3.

Definition dim_nat (d : Dimensions) : nat :=
  match d with
  | D2 => 2
  | D3 => 3
  end.

Record VisualizationConfig : Type := {
  method : Method;
  dimensions : Dimensions;
  perplexity : option number;
  components : option number;
  showLabels : bool;
  colorScheme : string
}.

(** An element of [ProcessedEmbeddings.reduced].  A coordinate read past the
    end of a reducer's row is [undefined], here [None]. *)
Module Point.
Record t : Type := {
  x : option number;
  y : option number;
  z : option number;
  label : string;
  id : string
}.
End Point.

Module Cluster.
Record ClusterInfo : Type := {
  centroid : list number;
  sentences : list string;
  averageSimilarity : number;
  label : string
}.
End Cluster.
Import Cluster.

(** [used_method] is the field [method]. *)
Record ProcessedEmbeddings : Type := {
  original : list EmbeddingData;
  reduced : list Point.t;
  clusters : list ClusterInfo;
  used_method : Method;
  variance : option (list number)
}.

(** ** The environment of the reducers *)

(** The options object handed to [new TSNE] ([src/types/tsne-js.d.ts]);
    [opt_perplexity] is its field [perplexity]. *)
Record TSNEOptions : Type := {
  dim : Dimensions;
  opt_perplexity : number;
  earlyExaggeration : number;
  learningRate : number;
  nIter : number;
  metric : string
}.

(** Calls into the two libraries, as the code makes them. *)
Inductive Event : Type :=
| PCA_predict (embeddings : list (list number)) (nComponents : Dimensions)
| PCA_getExplainedVariance
| TSNE_new (options : TSNEOptions)
| TSNE_init (data : list (list number))
| TSNE_step
| TSNE_isConverged
| TSNE_getSolution.

(** What the code calls but does not define.  [Math_random n] is the value
    of the [n]-th call of [Math.random]; [pca_predict] stands for lines
    22-25 of [performPCA] ([new Matrix], [new PCA], [predict], [to2DArray]);
    [TSNE] is the state of a tsne-js instance, whatever it holds. *)
Record Env : Type := {
  Math_cos : number -> number;
  Math_sin : number -> number;
  Math_random : nat -> number;
  pca_predict : list (list number) -> Dimensions -> Result (list (list number));
  pca_getExplainedVariance : list (list number) -> Result (list number);
  TSNE : Type;
  tsne_new : TSNEOptions -> Result TSNE;
  tsne_init : TSNE -> list (list number) -> Result TSNE;
  tsne_step : TSNE -> Result TSNE;
  tsne_isConverged : TSNE -> Result bool;
  tsne_getSolution : TSNE -> Result (list (list number))
}.

(** The state the code changes outside its own variables: how many random
    numbers were drawn, and which library calls were made, oldest first. *)
Record World : Type := {
  randoms : nat;
  trace : list Event
}.

(** A computation that reads and changes the world and may throw. *)
Definition M (A : Type) : Type := World -> Result A * World.

Definition ret {A : Type} (a : A) : M A := fun w => (Ok a, w).

Definition throw {A : Type} (e : thrown) : M A := fun w => (Throw e, w).

Definition bind {A B : Type} (m : M A) (k : A -> M B) : M B :=
  fun w =>
    match m w with
    | (Ok a, w') => k a w'
    | (Throw e, w') => (Throw e, w')
    end.

(** [try { body } catch (error) { handler }]: what [body] did to the world
    before it threw stays done. *)
Definition try_catch {A : Type} (body : M A) (handler : thrown -> M A) : M A :=
  fun w =>
    match body w with
    | (Ok a, w') => (Ok a, w')
    | (Throw e, w') => handler e w'
    end.

Definition log (ev : Event) (w : World) : World :=
  {| randoms := randoms w; trace := trace w ++ [ev] |}.

(** A library call: it is recorded, and returns or throws as the
    environment says. *)
Definition call {A : Type} (ev : Event) (r : Result A) : M A :=
  fun w => (r, log ev w).

Declare Scope monad_scope.
Delimit Scope monad_scope with monad.
Notation "x <- c ;; k" := (bind c (fun x => k))
  (at level 61, c at next level, right associativity) : monad_scope.
Local Open Scope monad_scope.

(** [l.map(f)] for an [f] with effects, in index order. *)
Fixpoint mapM_from {A B : Type} (f : A -> nat -> M B) (l : list A) (i : nat) : M (list B) :=
  match l with
  | [] => ret []
  | a :: l' =>
      b <- f a i ;;
      bs <- mapM_from f l' (S i) ;;
      ret (b :: bs)
  end.

Definition mapM {A B : Type} (f : A -> nat -> M B) (l : list A) : M (list B) :=
  mapM_from f l 0.

(** The state of a promise once the event loop has run dry. *)
Inductive Promise (A : Type) : Type :=
| Resolved (a : A)
| Rejected (e : thrown)
| Pending.

Arguments Resolved {A} a.
Arguments Rejected {A} e.
Arguments Pending {A}.

(** ** Dimensionality reduction ([src/lib/dimensionality-reduction.ts]) *)

Section Reduction.

Variable E : Env.

Definition random : M number :=
  fun w => (Ok (Math_random E (randoms w)),
            {| randoms := S (randoms w); trace := trace w |}).

(** [v || alt], where [alt] is only evaluated when [v] is falsy. *)
Definition or_else (v : option number) (alt : M number) : M number :=
  if truthy v then ret (ToNumber v) else alt.

(** What [performPCA] returns: the fields [reduced] and [variance]. *)
Record PCAResult : Type := {
  pca_reduced : list (list number);
  pca_variance : list number
}.

(** The [catch] branch of [performPCA]: the three entries are evaluated left
    to right, whatever [dimensions] is, and then sliced. *)
Definition pcaFallbackPoint (dimensions : Dimensions) (emb : list number) (i : nat)
  : M (list number) :=
  c0 <- or_else (nth_error emb 0) (ret (of_nat i)) ;;
  c1 <- or_else (nth_error emb 1) (r <- random ;; ret (r - 0.5)) ;;
  c2 <- or_else (nth_error emb 2) (r <- random ;; ret (r - 0.5)) ;;
  ret (firstn (dim_nat dimensions) [c0; c1; c2]).

Definition performPCA (embeddings : list (list number)) (dimensions : Dimensions)
  : M PCAResult :=
  try_catch
    (if (length embeddings <? 2)%nat then
       ret {| pca_reduced :=
                mapi (fun _ i => firstn (dim_nat dimensions) [of_nat i; 0; 0]) embeddings;
              pca_variance := repeat 0.5 (dim_nat dimensions) |}
     else
       reduced <- call (PCA_predict embeddings dimensions)
                       (pca_predict E embeddings dimensions) ;;
       variance <- call PCA_getExplainedVariance (pca_getExplainedVariance E embeddings) ;;
       ret {| pca_reduced := reduced;
              pca_variance := firstn (dim_nat dimensions) variance |})
    (fun _ =>
       reduced <- mapM (pcaFallbackPoint dimensions) embeddings ;;
       ret {| pca_reduced := reduced;
              pca_variance := repeat 0.3 (dim_nat dimensions) |}).

(** The angle of point [i] of [n] in the circular layouts. *)
Definition angleOf (i n : nat) : number :=
  (of_nat i / of_nat n) * 2 * Math_PI.

(** The layout [performTSNE] resolves with for fewer than 4 inputs. *)
Definition simplePoint (n : nat) (dimensions : Dimensions) (i : nat) : M (list number) :=
  let angle := angleOf i n in
  let radius := 1 in
  let c0 := Math_cos E angle * radius in
  let c1 := Math_sin E angle * radius in
  extra <- match dimensions with
           | D3 => r <- random ;; ret [r - 0.5]
           | D2 => ret []
           end ;;
  ret (firstn (dim_nat dimensions) ([c0; c1] ++ extra)).

(** The layout of the [catch] branch of [performTSNE]. *)
Definition fallbackPoint (n : nat) (dimensions : Dimensions) (i : nat) : list number :=
  let angle := angleOf i n in
  let radius := 2 in
  firstn (dim_nat dimensions)
    ([Math_cos E angle * radius; Math_sin E angle * radius]
       ++ match dimensions with
          | D3 => [Math_sin E (angle * 2)]
          | D2 => []
          end).

Definition maxIterations : nat := 500.

(** The options of [new TSNE] in [performTSNE]. *)
Definition tsneOptions (embeddings : list (list number)) (dimensions : Dimensions)
  (perplexity : number) : TSNEOptions :=
  {| dim := dimensions;
     opt_perplexity :=
       Math_min perplexity (Math_floor ((of_nat (length embeddings) - 1) / 3));
     earlyExaggeration := 4.0;
     learningRate := 100.0;
     nIter := 500;
     metric := "euclidean" |}.

(** One run of the closure [step] after [iterations] earlier runs: the new
    count, and the solution if this run resolved the promise. *)
Definition step (tsne : TSNE E) (iterations : nat)
  : M (TSNE E * nat * option (list (list number))) :=
  tsne <- call TSNE_step (tsne_step E tsne) ;;
  let iterations := S iterations in
  finished <- (if (maxIterations <=? iterations)%nat then ret true
               else call TSNE_isConverged (tsne_isConverged E tsne)) ;;
  if finished : bool then
    solution <- call TSNE_getSolution (tsne_getSolution E tsne) ;;
    ret (tsne, iterations, Some solution)
  else ret (tsne, iterations, None).

(** The runs of [step] that [setTimeout] schedules.  They happen outside
    the [try] of [performTSNE]: if one throws, nothing resolves the promise.
    [fuel] bounds the number of runs; [maxIterations] of them always
    suffice, since each run adds one to [iterations]. *)
Fixpoint timers (fuel : nat) (tsne : TSNE E) (iterations : nat)
  : M (Promise (list (list number))) :=
  match fuel with
  | O => ret Pending
  | S fuel' =>
      fun w =>
        match step tsne iterations w with
        | (Throw _, w') => (Ok Pending, w')
        | (Ok (_, _, Some solution), w') => (Ok (Resolved solution), w')
        | (Ok (tsne', iterations', None), w') => timers fuel' tsne' iterations' w'
        end
  end.

(** [performTSNE] returns a promise; the model gives its final state. *)
Definition performTSNE (embeddings : list (list number)) (dimensions : Dimensions)
  (perplexity : number) : M (Promise (list (list number))) :=
  try_catch
    (if (length embeddings <? 4)%nat then
       simple <- mapM (fun _ i => simplePoint (length embeddings) dimensions i) embeddings ;;
       ret (Resolved simple)
     else
       let options := tsneOptions embeddings dimensions perplexity in
       tsne <- call (TSNE_new options) (tsne_new E options) ;;
       tsne <- call (TSNE_init embeddings) (tsne_init E tsne embeddings) ;;
       first <- step tsne 0 ;;
       match first with
       | (_, _, Some solution) => ret (Resolved solution)
       | (tsne, iterations, None) => timers maxIterations tsne iterations
       end)
    (fun _ =>
       let fallback :=
         mapi (fun _ i => fallbackPoint (length embeddings) dimensions i) embeddings in
       ret (Resolved fallback)).

(** *** Clustering *)

(** [a >= b] and [a < b] on coordinates that may be [undefined]. *)
Definition js_ge (a b : option number) : bool := ToNumber b <=? ToNumber a.
Definition js_lt (a b : option number) : bool := ToNumber a <? ToNumber b.

(** An entry of the local array [quadrants]. *)
Record Quadrant : Type := {
  name : string;
  points : list Point.t
}.

(** The index in [quadrants] the [forEach] body pushes [point] to. *)
Definition quadrantIndex (xMedian yMedian : option number) (point : Point.t) : nat :=
  if js_ge (Point.x point) xMedian && js_ge (Point.y point) yMedian then 0
  else if js_lt (Point.x point) xMedian && js_ge (Point.y point) yMedian then 1
  else if js_ge (Point.x point) xMedian && js_lt (Point.y point) yMedian then 2
  else 3.

(** [quadrants[k].points.push(point)] *)
Fixpoint push (k : nat) (point : Point.t) (quadrants : list Quadrant) : list Quadrant :=
  match quadrants, k with
  | [], _ => []
  | q :: qs, O => {| name := name q; points := points q ++ [point] |} :: qs
  | q :: qs, S k' => q :: push k' point qs
  end.

Definition sumOf (coord : Point.t -> option number) (ps : list Point.t) : number :=
  reduce (fun sum p _ => sum + ToNumber (coord p)) ps 0.

(** The body of [quadrants.forEach]: the clusters one quadrant adds. *)
Definition clusterOf (quadrant : Quadrant) : list ClusterInfo :=
  if (0 <? length (points quadrant))%nat then
    let centroidX := sumOf Point.x (points quadrant) / of_nat (length (points quadrant)) in
    let centroidY := sumOf Point.y (points quadrant) / of_nat (length (points quadrant)) in
    [ {| centroid := [centroidX; centroidY];
         sentences := map Point.label (points quadrant);
         averageSimilarity := 0.5;
         label := name quadrant |} ]
  else [].

(** [values[Math.floor(values.length / 2)]] *)
Definition medianOf (values : list (option number)) : option number :=
  nth (length values / 2) values None.

Definition performSimpleClustering (reducedData : list Point.t)
  (originalData : list EmbeddingData) : list ClusterInfo :=
  if (length reducedData <? 2)%nat then []
  else
    let xValues := sort (fun a b => a - b) (map Point.x reducedData) in
    let yValues := sort (fun a b => a - b) (map Point.y reducedData) in
    let xMedian := medianOf xValues in
    let yMedian := medianOf yValues in
    let quadrants :=
      [ {| name := "Top-Right"; points := [] |};
        {| name := "Top-Left"; points := [] |};
        {| name := "Bottom-Right"; points := [] |};
        {| name := "Bottom-Left"; points := [] |} ] in
    let quadrants :=
      fold_left (fun qs point => push (quadrantIndex xMedian yMedian point) point qs)
        reducedData quadrants in
    flat_map clusterOf quadrants.

(** *** The pipeline *)

(** The two errors [reduceDimensions] throws before it reduces anything:
    the specification's [InvalidInput]. *)
Definition noEmbeddings : thrown :=
  Error "No embeddings provided for dimensionality reduction".
Definition invalidEmbeddings : thrown :=
  Error "Invalid embeddings detected".

Definition isInvalidInput (e : thrown) : bool :=
  match e with
  | Error m => String.eqb m "No embeddings provided for dimensionality reduction"
               || String.eqb m "Invalid embeddings detected"
  | Thrown => false
  end.

(** The error the [catch] of [reduceDimensions] throws: the specification's
    [ReductionFailed]. *)
Definition reductionFailed (error : thrown) : thrown :=
  Error ("Dimensionality reduction failed: "
         ++ match error with
            | Error message => message
            | Thrown => "Unknown error"
            end).

(** The [TypeError] of reading [sentence] from [undefined]. *)
Definition undefinedSentence : thrown :=
  Error "Cannot read properties of undefined (reading 'sentence')".

(** One element of [formattedReduced].  [embeddingData[index]] past the end
    is [undefined], and reading its [sentence] throws. *)
Definition formatPoint (embeddingData : list EmbeddingData) (config : VisualizationConfig)
  (coords : list number) (index : nat) : M Point.t :=
  match nth_error embeddingData index with
  | Some item =>
      ret {| Point.x := nth_error coords 0;
             Point.y := nth_error coords 1;
             Point.z := match dimensions config with
                        | D3 => nth_error coords 2
                        | D2 => None
                        end;
             Point.label := sentence item;
             Point.id := id item |}
  | None => throw undefinedSentence
  end.

(** The [try] block: the reduced rows and, for PCA, the variance; [None]
    when the awaited promise never settles. *)
Definition reduce_with (embeddings : list (list number)) (config : VisualizationConfig)
  : M (option (list (list number) * option (list number))) :=
  match method config with
  | method_pca =>
      pcaResult <- performPCA embeddings (dimensions config) ;;
      ret (Some (pca_reduced pcaResult, Some (pca_variance pcaResult)))
  | method_tsne =>
      let perplexity :=
        if truthy (perplexity config) then ToNumber (perplexity config)
        else Math_min 30 (Math_floor ((of_nat (length embeddings) - 1) / 3)) in
      promise <- performTSNE embeddings (dimensions config) perplexity ;;
      match promise with
      | Resolved reduced => ret (Some (reduced, None))
      | Rejected error => throw error
      | Pending => ret None
      end
  end.

(** [reduceDimensions] is [async]: what it throws rejects its promise.  The
    test [!emb] of the second check is always false on a [number[]]. *)
Definition reduceDimensions (embeddingData : list EmbeddingData)
  (config : VisualizationConfig) : World -> Promise ProcessedEmbeddings * World :=
  fun w =>
    let embeddings := map embedding embeddingData in
    if (length embeddings =? 0)%nat then (Rejected noEmbeddings, w)
    else if existsb (fun emb => (length emb =? 0)%nat) embeddings
    then (Rejected invalidEmbeddings, w)
    else
      match try_catch (reduce_with embeddings config)
                      (fun error => throw (reductionFailed error)) w with
      | (Throw e, w') => (Rejected e, w')
      | (Ok None, w') => (Pending, w')
      | (Ok (Some (reduced, variance)), w') =>
          match mapM (formatPoint embeddingData config) reduced w' with
          | (Throw e, w'') => (Rejected e, w'')
          | (Ok formattedReduced, w'') =>
              let clusters := performSimpleClustering formattedReduced embeddingData in
              (Resolved {| original := embeddingData;
                           reduced := formattedReduced;
                           clusters := clusters;
                           used_method := method config;
                           variance := variance |}, w'')
          end
      end.

End Reduction.

Arguments timers E fuel tsne iterations _ : simpl never.
Arguments step E tsne iterations _ : simpl never.

(** [normalizeEmbeddings]: a row whose magnitude is not above zero, a zero
    row or one with a NaN, is returned as it is. *)
Definition normalizeEmbeddings (embeddings : list (list number)) : list (list number) :=
  map (fun row =>
         let magnitude := Math_sqrt (reduce (fun sum val _ => sum + val * val) row 0) in
         if 0 <? magnitude then map (fun val => val / magnitude) row else row)
      embeddings.

(** ** The fallback embeddings ([src/app/api/embeddings-simple/route.ts]) *)

Module SimpleEmbeddings.

(** A JavaScript string here is the list of its UTF-16 code units, which is
    what [charCodeAt] and the regular expression (it has no flag [u]) see. *)
Definition codeUnits : Type := list Z.

(** [ToInt32]: the value modulo 2^32, read as a signed 32-bit integer. *)
Definition ToInt32 (z : Z) : Z := ((z + 2 ^ 31) mod 2 ^ 32 - 2 ^ 31)%Z.

(** [a << k] and [a & b] on numbers that hold integers. *)
Definition shl32 (a k : Z) : Z := ToInt32 (Z.shiftl (ToInt32 a) k).

Definition and32 (a b : Z) : Z := Z.land (ToInt32 a) (ToInt32 b).

(** [hash] is an integer below 2^33 in magnitude at every step, so the
    subtraction and the addition, done on doubles, are exact: the loop is
    modelled on [Z]. *)
Definition hashString (str : codeUnits) : Z :=
  fold_left (fun hash char =>
               let hash := ((shl32 hash 5 - hash) + char)%Z in
               and32 hash hash)
            str 0%Z.

(** The class [\w]: [A-Z], [a-z], [0-9] and [_]. *)
Definition isWordChar (c : Z) : bool :=
  ((48 <=? c) && (c <=? 57) || (65 <=? c) && (c <=? 90)
   || (c =? 95) || (97 <=? c) && (c <=? 122))%Z.

Definition flush (current : codeUnits) : list codeUnits :=
  match current with
  | [] => []
  | _ :: _ => [current]
  end.

(** [text.match(/\b\w+\b/g) || []]: the maximal runs of word characters,
    left to right; [current] is the run being read. *)
Fixpoint matchWords (text : codeUnits) (current : codeUnits) : list codeUnits :=
  match text with
  | [] => flush current
  | c :: rest =>
      if isWordChar c then matchWords rest (current ++ [c])%list
      else (flush current ++ matchWords rest [])%list
  end.

(** [embedding[position] += delta].  [position] is below 512, the length of
    the array, at every use ([position_in_range]): the write never extends
    the array. *)
Definition addAt (position : nat) (delta : number) (embedding : list number) : list number :=
  mapi (fun val i => if (i =? position)%nat then val + delta else val) embedding.

(** [Math.abs(wordHash) % 512] *)
Definition positionOf (word : codeUnits) : nat :=
  Z.to_nat (Z.abs (hashString word) mod 512)%Z.

(** An element of the array [sentences] of a request.  The declared type
    [string[]] is not checked at run time, so an element is a string or
    any other JSON value (a number, [null], an object); on the latter the
    call [text.toLowerCase()] throws a [TypeError], whose message the
    value carries here. *)
Inductive Element : Type :=
| Text (text : codeUnits)
| NotText (message : string).

(** [l.map(f)] for an [f] that may throw: the first throw ends the map. *)
Fixpoint mapResult {A B : Type} (f : A -> Result B) (l : list A) : Result (list B) :=
  match l with
  | [] => Ok []
  | a :: l' =>
      match f a with
      | Throw e => Throw e
      | Ok b =>
          match mapResult f l' with
          | Throw e => Throw e
          | Ok bs => Ok (b :: bs)
          end
      end
  end.

Section Route.

(** [String.prototype.toLowerCase], which follows the Unicode case
    mappings, and the value of [new Date().toISOString()]. *)
Variable toLowerCase : codeUnits -> codeUnits.
Variable now : string.

Definition calculateSimpleEmbedding (text : codeUnits) : list number :=
  let words := matchWords (toLowerCase text) [] in
  let embedding := repeat 0 512 in
  let embedding :=
    reduce (fun embedding word index =>
              addAt (positionOf word) (1 / of_nat (index + 1)) embedding)
           words embedding in
  let magnitude := Math_sqrt (reduce (fun sum val _ => sum + val * val) embedding 0) in
  if 0 <? magnitude then map (fun val => val / magnitude) embedding else embedding.

(** [calculateSimpleEmbedding(sentence)] on an element of the array: on
    anything but a string [text.toLowerCase()] throws its [TypeError]. *)
Definition embedSentence (sentence : Element) : Result (list number) :=
  match sentence with
  | Text text => Ok (calculateSimpleEmbedding text)
  | NotText message => Throw (Error message)
  end.

(** What [POST] reads of the request body: the field [sentences] is an
    array, or anything else ([undefined], [null], not an array). *)
Inductive Body : Type :=
| NotAnArray
| Sentences (sentences : list Element).

(** The JSON documents [POST] answers with. *)
Inductive Json : Type :=
| Refused (error : string)
| Embeddings (embeddings : list (list number)) (dimensions count : nat)
    (timestamp method : string)
| Failed (error details timestamp : string).

Record Response : Type := {
  status : nat;
  json : Json
}.

(** The [catch] of [POST]. *)
Definition failed (error : thrown) : Response :=
  let errorMessage :=
    match error with
    | Error message => message
    | Thrown => "Unknown error"
    end in
  {| status := 500;
     json := Failed "Failed to generate embeddings" errorMessage now |}.

(** [request_json] is the outcome of [await request.json()] and of reading
    [sentences] from it. *)
Definition POST (request_json : Result Body) : Response :=
  match request_json with
  | Throw error => failed error
  | Ok NotAnArray =>
      {| status := 400; json := Refused "Invalid input: sentences array is required" |}
  | Ok (Sentences sentences) =>
      if (length sentences =? 0)%nat then
        {| status := 400; json := Refused "Invalid input: sentences array is required" |}
      else if (50 <? length sentences)%nat then
        {| status := 400; json := Refused "Too many sentences: maximum 50 allowed" |}
      else
        match mapResult embedSentence sentences with
        | Throw error => failed error
        | Ok embeddings =>
            {| status := 200;
               json := Embeddings embeddings 512 (length embeddings) now "simple_tfidf" |}
        end
  end.

End Route.

End SimpleEmbeddings.

(** ** The encoder embeddings ([src/app/api/embeddings/route.ts]) *)

Module ModelEmbeddings.

Import SimpleEmbeddings.

(** Calls into TensorFlow.js, as the code makes them. *)
Inductive Call : Type :=
| Load
| Embed (sentences : list Element)
| ToArray
| Dispose.

(** What the route takes from TensorFlow.js.  [load] stands for the two
    dynamic imports and [use.load()] of [loadModel]; a model is an object,
    hence truthy. *)
Record Lib : Type := {
  Model : Type;
  Tensor : Type;
  load : Result Model;
  embed : Model -> list Element -> Result Tensor;
  array : Tensor -> Result (list (list number));
  dispose : Tensor -> Result unit
}.

(** The JSON documents [POST] answers with. *)
Inductive Json : Type :=
| Refused (error : string)
| Embeddings (embeddings : list (list number)) (dimensions count : nat)
    (timestamp : string)
| Failed (error details timestamp : string).

Record Response : Type := {
  status : nat;
  json : Json
}.

(** [error instanceof Error ? error.message : 'Unknown error'] *)
Definition messageOf (error : thrown) : string :=
  match error with
  | Error message => message
  | Thrown => "Unknown error"
  end.

Section Route.

Variable L : Lib.
Variable now : string.

(** The state of the module: the variable [model] ([None] is [null]) and
    the calls made so far, oldest first. *)
Record Server : Type := {
  model : option (Model L);
  calls : list Call
}.

Definition called (c : Call) (st : Server) : Server :=
  {| model := model st; calls := calls st ++ [c] |}.

Definition loadModel (st : Server) : Result (Model L) * Server :=
  match model st with
  | Some m => (Ok m, st)
  | None =>
      let st := called Load st in
      match load L with
      | Ok m => (Ok m, {| model := Some m; calls := calls st |})
      | Throw error =>
          (Throw (Error ("Failed to load embedding model: " ++ messageOf error)), st)
      end
  end.

(** [loadModel] as the event loop runs it, in two parts with other
    handlers free to run in between: up to its first [await], which is the
    test of [model] and the start of the load ([None] when a load was
    started), and from the settled [use.load()] on, which is the
    assignment to [model] and the return. *)
Definition loadModel_start (st : Server) : option (Model L) * Server :=
  match model st with
  | Some m => (Some m, st)
  | None => (None, called Load st)
  end.

Definition loadModel_finish (st : Server) : Result (Model L) * Server :=
  match load L with
  | Ok m => (Ok m, {| model := Some m; calls := calls st |})
  | Throw error =>
      (Throw (Error ("Failed to load embedding model: " ++ messageOf error)), st)
  end.

(** The [catch] of [POST]. *)
Definition failed (error : thrown) (st : Server) : Response * Server :=
  ({| status := 500;
      json := Failed "Failed to generate embeddings" (messageOf error) now |}, st).

(** [embeddingsArray[0]?.length || 0] *)
Definition dimensionsOf (embeddingsArray : list (list number)) : nat :=
  match embeddingsArray with
  | [] => 0
  | row :: _ => length row
  end.

(** [request_json] is the outcome of [await request.json()] and of reading
    [sentences] from it. *)
Definition POST (request_json : Result Body) (st : Server) : Response * Server :=
  match request_json with
  | Throw error => failed error st
  | Ok NotAnArray =>
      ({| status := 400; json := Refused "Invalid input: sentences array is required" |},
       st)
  | Ok (Sentences sentences) =>
      if (length sentences =? 0)%nat then
        ({| status := 400; json := Refused "Invalid input: sentences array is required" |},
         st)
      else if (50 <? length sentences)%nat then
        ({| status := 400; json := Refused "Too many sentences: maximum 50 allowed" |},
         st)
      else
        match loadModel st with
        | (Throw error, st) => failed error st
        | (Ok useModel, st) =>
        let st := called (Embed sentences) st in
        match embed L useModel sentences with
        | Throw error => failed error st
        | Ok embeddings =>
        let st := called ToArray st in
        match array L embeddings with
        | Throw error => failed error st
        | Ok embeddingsArray =>
        let st := called Dispose st in
        match dispose L embeddings with
        | Throw error => failed error st
        | Ok _ =>
            ({| status := 200;
                json := Embeddings embeddingsArray (dimensionsOf embeddingsArray)
                                   (length embeddingsArray) now |}, st)
        end end end end
  end.

End Route.

End ModelEmbeddings.

(** ** The comparisons of the visualizer ([src/components/header.tsx]) *)

Module Visualizer.

Import Comparison.

(** The body of the loops of [generateEmbeddings] that fill the local array
    [newComparisons]. *)
Definition pushComparison (newComparisons : list ComparisonResult.t)
  (a b : EmbeddingData) : Result (list ComparisonResult.t) :=
  match compareSentences (sentence a) (sentence b) (embedding a) (embedding b) with
  | Throw e => Throw e
  | Ok comparison => Ok (newComparisons ++ [comparison])%list
  end.

Definition newComparisons (embeddingData : list EmbeddingData)
  : Result (list ComparisonResult.t) :=
  forPairs pushComparison embeddingData [].

End Visualizer.

(** ** A sample environment and sample inputs *)

(** An environment for running the definitions: [Math.cos] and [Math.sin] at
    the angles [0] and [Math.PI] as every engine computes them, two draws of
    [Math.random], a PCA that refuses ragged input as ml-matrix does and
    otherwise keeps the leading coordinates of each row, and a t-SNE whose
    state is its solution and which converges at once. *)
Definition sampleEnv : Env :=
  {| Math_cos := fun a => if a =? 0 then 1 else if a =? Math_PI then -1 else nan;
     Math_sin := fun a => if a =? 0 then 0
                          else if a =? Math_PI then 0x1.1a62633145c07p-53 else nan;
     Math_random := fun n => match n with O => 0.25 | _ => 0.75 end;
     pca_predict := fun embeddings d =>
       if forallb (fun row => (length row =? length (hd [] embeddings))%nat) embeddings
       then Ok (map (firstn (dim_nat d)) embeddings)
       else Throw (Error "Inconsistent array dimensions");
     pca_getExplainedVariance := fun _ => Ok [0.75; 0.25];
     TSNE := list (list number);
     tsne_new := fun options => Ok [];
     tsne_init := fun _ data => Ok (map (firstn 2) data);
     tsne_step := fun t => Ok t;
     tsne_isConverged := fun _ => Ok true;
     tsne_getSolution := fun t => Ok t |}.

Definition world0 : World := {| randoms := 0; trace := [] |}.

Definition record (s : string) (v : list number) : EmbeddingData :=
  {| id := "id-" ++ s; sentence := s; embedding := v; timestamp := "2024-01-01" |}.

Definition config_of (m : Method) (d : Dimensions) (p : option number) : VisualizationConfig :=
  {| method := m; dimensions := d; perplexity := p; components := None;
     showLabels := true; colorScheme := "viridis" |}.

Definition point (px py : number) (s : string) : Point.t :=
  {| Point.x := Some px; Point.y := Some py; Point.z := None;
     Point.label := s; Point.id := "id-" ++ s |}.

(** Two records whose vectors differ in length, and two whose vectors agree. *)
Definition ragged : list EmbeddingData := [record "a" [1]; record "b" [1; 2]].

Definition uniform : list EmbeddingData := [record "a" [1; 0]; record "b" [0; 1]].

(** Five records with one and the same vector. *)
Definition five : list EmbeddingData :=
  map (fun s => record s [1; 2; 3]) ["a"; "b"; "c"; "d"; "e"].

(** Two points with one label, and three points with three labels. *)
Definition twins : list Point.t := [point 0 0 "a"; point 1 1 "a"].

Definition trio : list Point.t := [point 0 0 "a"; point 1 1 "b"; point 0 1 "c"].

(** The corners of the unit square, not in grid order. *)
Definition square : list Point.t :=
  [point 0 1 "c"; point 0 0 "a"; point 1 0 "d"; point 1 1 "b"].

(** ** Notions the properties are stated with *)

(** The Euclidean magnitude of a vector as [cosineSimilarity] computes it. *)
Definition magnitude (v : list number) : number :=
  Math_sqrt (reduce (fun sum val _ => sum + val * val) v 0).

(** A zero of either sign. *)
Definition isZero (v : number) : Prop := v = 0 \/ v = -0.

(** The medians [performSimpleClustering] splits at. *)
Definition xMedianOf (reducedData : list Point.t) : option number :=
  medianOf (sort (fun a b => a - b) (map Point.x reducedData)).

Definition yMedianOf (reducedData : list Point.t) : option number :=
  medianOf (sort (fun a b => a - b) (map Point.y reducedData)).

(** The points the [forEach] of [performSimpleClustering] pushes to
    [quadrants[k]], in input order. *)
Definition quadrantPoints (xMedian yMedian : option number)
  (reducedData : list Point.t) (k : nat) : list Point.t :=
  filter (fun p => (quadrantIndex xMedian yMedian p =? k)%nat) reducedData.

(** The array [quadrants] holding the given points. *)
Definition quadrantsWith (l0 l1 l2 l3 : list Point.t) : list Quadrant :=
  [ {| name := "Top-Right"; points := l0 |};
    {| name := "Top-Left"; points := l1 |};
    {| name := "Bottom-Right"; points := l2 |};
    {| name := "Bottom-Left"; points := l3 |} ].

(** [a] is below [b] for the code: [a < b] holds, and the comparator
    [a - b] of the sort and the operators [>=] and [<] of the quadrant test
    agree with it.  This is true of any two doubles with [a < b]
    ([Binary64.ltb_below]). *)
Definition below (a b : number) : bool :=
  (a <? b) && negb (b <? b) && (b <=? b) && negb (b <=? a)
  && (0 <? b - a) && negb (0 <? a - b) && negb (0 <? a - a) && negb (0 <? b - b).

(** Four points on the grid [{x0, x1} x {y0, y1}], one per corner. *)
Definition gridPoints (x0 x1 y0 y1 : number) (p00 p01 p10 p11 : Point.t) : Prop :=
  (Point.x p00 = Some x0 /\ Point.y p00 = Some y0) /\
  (Point.x p01 = Some x0 /\ Point.y p01 = Some y1) /\
  (Point.x p10 = Some x1 /\ Point.y p10 = Some y0) /\
  (Point.x p11 = Some x1 /\ Point.y p11 = Some y1).

(** Two member lists share no label. *)
Definition disjoint (a b : list string) : Prop :=
  forall s, In s a -> ~ In s b.

(** All the ways to put [x] into [l], and all the orderings of [l]. *)
Fixpoint inserts {A : Type} (x : A) (l : list A) : list (list A) :=
  match l with
  | [] => [[x]]
  | y :: l' => (x :: y :: l') :: map (cons y) (inserts x l')
  end.

Fixpoint perms {A : Type} (l : list A) : list (list A) :=
  match l with
  | [] => [[]]
  | x :: l' => flat_map (inserts x) (perms l')
  end.

(** The least exponent of a binary64 number, and whether a number is above
    zero: [+0 < r]. *)
Definition emin64 : Z := SpecFloat.emin prec emax.

Definition above_zero (r : spec_float) : bool := SFltb (S754_zero false) r.

(** Whether an event is the construction of a tsne-js instance. *)
Definition is_TSNE_new (ev : Event) : bool :=
  match ev with
  | TSNE_new _ => true
  | _ => false
  end.

(** [w'] continues [w] without constructing a tsne-js instance. *)
Definition quiet (w w' : World) : Prop :=
  exists evs, trace w' = (trace w ++ evs)%list /\ existsb is_TSNE_new evs = false.

(** A tsne-js none of whose calls throws. *)
Definition tsne_never_throws (E : Env) : Prop :=
  (forall options, exists t, tsne_new E options = Ok t) /\
  (forall t data, exists t', tsne_init E t data = Ok t') /\
  (forall t, exists t', tsne_step E t = Ok t') /\
  (forall t, exists finished, tsne_isConverged E t = Ok finished) /\
  (forall t, exists solution, tsne_getSolution E t = Ok solution).

(** What [performPCA] needs of ml-pca for its main path: [predict] returns
    one row per input row. *)
Definition predict_keeps_rows (E : Env) : Prop :=
  forall embeddings d rows,
    pca_predict E embeddings d = Ok rows -> length rows = length embeddings.

(** [Number.isFinite]: neither NaN nor an infinity. *)
Definition isFinite (v : number) : bool := abs v <? infinity.

(** The order of binary64 values, as [SFcompare] decides it. *)
Definition SFlt (u v : spec_float) : Prop := SFcompare u v = Some Lt.

Definition SFle (u v : spec_float) : Prop :=
  SFcompare u v = Some Lt \/ SFcompare u v = Some Eq.

(** The error of the similarity functions on vectors of different lengths. *)
Definition lengthMismatch : thrown := Error "Vectors must have the same length".

Definition sameLength (a b : list number) : Prop := length a = length b.

(** The cosine similarity of two vectors that have one. *)
Definition cosineOf (a b : list number) : number :=
  match Similarity.cosineSimilarity a b with
  | Ok similarity => similarity
  | Throw _ => nan
  end.

(** The confidence levels in ascending order. *)
Definition levelRank (level : ConfidenceLevel) : nat :=
  match level with
  | level_low => 0
  | level_medium => 1
  | level_high => 2
  end.

(** The pairs [(l[i], l[j])] with [i < j], in the order in which the nested
    loops visit them. *)
Fixpoint pairsOf {A : Type} (l : list A) : list (A * A) :=
  match l with
  | [] => []
  | v :: later => (map (fun u => (v, u)) later ++ pairsOf later)%list
  end.

(** What [findMostSimilar] knows after the candidates [seen]: no other
    sentence seen is more similar than the running maximum, which is still
    the initial [-1] or is above it and belongs to a sentence seen. *)
Definition bestSoFar (targetSentence : string) (targetEmbedding : list number)
  (seen : list EmbeddingData) (st : number * string) : Prop :=
  (forall c s, In c seen -> sentence c <> targetSentence ->
     Similarity.cosineSimilarity targetEmbedding (embedding c) = Ok s ->
     (fst st <? s) = false) /\
  (st = (-1, "") \/
   ((-1 <? fst st) = true /\
    exists c, In c seen /\ sentence c <> targetSentence /\ sentence c = snd st /\
      Similarity.cosineSimilarity targetEmbedding (embedding c) = Ok (fst st))).

(** A candidate that makes [findMostSimilar] throw. *)
Definition mismatched (targetSentence : string) (targetEmbedding : list number)
  (c : EmbeddingData) : Prop :=
  sentence c <> targetSentence /\ length targetEmbedding <> length (embedding c).

(** The hash of Java's [String.hashCode], before it is cut to 32 bits. *)
Definition polynomial31 (str : list Z) : Z :=
  fold_left (fun h c => (31 * h + c)%Z) str 0%Z.

(** An integer cut to 32 bits and read as a signed number, and the
    position the simple embedding gives a word: the absolute value of the
    32-bit hash, modulo 512. *)
Definition signed32 (z : Z) : Z :=
  let r := (z mod 2 ^ 32)%Z in
  if (r <? 2 ^ 31)%Z then r else (r - 2 ^ 32)%Z.

Definition bucketOf (word : list Z) : nat :=
  Z.to_nat (Z.abs (signed32 (polynomial31 word)) mod 512)%Z.

(** A text that holds the single word [word]: a non-empty run of word
    characters, with no word character before it or after it. *)
Definition singleWord (text word : list Z) : Prop :=
  exists before after,
    text = (before ++ word ++ after)%list /\
    word <> [] /\
    forallb SimpleEmbeddings.isWordChar word = true /\
    existsb SimpleEmbeddings.isWordChar before = false /\
    existsb SimpleEmbeddings.isWordChar after = false.

(** The vector of length [n] that is [1] at [position] and [0] elsewhere. *)
Definition oneHot (position n : nat) : list number :=
  map (fun i => if (i =? position)%nat then 1 else 0) (seq 0 n).

(** The angles of [n] points spread evenly over the circle: point [i] is
    at [2 pi i / n], which in doubles is [(i / n) * 2 * Math.PI]. *)
Definition evenAngles (n : nat) : list number :=
  map (fun i => of_nat i / of_nat n * 2 * Math_PI) (seq 0 n).

(** The mean of one coordinate over a list of points: the sum, taken from
    [0] in list order, divided by the number of points. *)
Definition meanOf (coord : Point.t -> option number) (members : list Point.t) : number :=
  fold_left (fun sum p => sum + ToNumber (coord p)) members 0 / of_nat (length members).

(** The code units of a string of ASCII characters, and [toLowerCase] on
    such strings. *)
Definition asciiCodes (s : string) : list Z :=
  map (fun c => Z.of_N (Ascii.N_of_ascii c)) (list_ascii_of_string s).

Definition asciiLower (text : list Z) : list Z :=
  map (fun c => if ((65 <=? c) && (c <=? 90))%Z then (c + 32)%Z else c) text.

(** Three records, two of which fall into one quadrant. *)
Definition cloud : list EmbeddingData :=
  [record "a" [1; 1]; record "b" [3; 3]; record "c" [0; 0]].

(** An environment like [sampleEnv] whose [Math.cos] and [Math.sin] are
    tabulated at the thirds and the quarters of a turn and at one turn and
    one turn and a half, with the values the fdlibm routines of the
    engines give there. *)
Definition trigEnv : Env :=
  {| Math_cos := fun a =>
       if a =? 0 then 1
       else if a =? 0x1.0c152382d7365p+1 then -0.4999999999999998
       else if a =? 0x1.0c152382d7365p+2 then -0.5000000000000004
       else if a =? 0x1.921fb54442d18p+0 then 6.123233995736766e-17
       else if a =? Math_PI then -1
       else if a =? 0x1.2d97c7f3321d2p+2 then -1.8369701987210297e-16
       else if a =? 0x1.921fb54442d18p+2 then 1
       else if a =? 0x1.2d97c7f3321d2p+3 then -1
       else nan;
     Math_sin := fun a =>
       if a =? 0 then 0
       else if a =? 0x1.0c152382d7365p+1 then 0.8660254037844387
       else if a =? 0x1.0c152382d7365p+2 then -0.8660254037844384
       else if a =? 0x1.921fb54442d18p+0 then 1
       else if a =? Math_PI then 1.2246467991473532e-16
       else if a =? 0x1.2d97c7f3321d2p+2 then -1
       else if a =? 0x1.921fb54442d18p+2 then -2.4492935982947064e-16
       else if a =? 0x1.2d97c7f3321d2p+3 then 3.6739403974420594e-16
       else nan;
     Math_random := Math_random sampleEnv;
     pca_predict := pca_predict sampleEnv;
     pca_getExplainedVariance := pca_getExplainedVariance sampleEnv;
     TSNE := TSNE sampleEnv;
     tsne_new := tsne_new sampleEnv;
     tsne_init := tsne_init sampleEnv;
     tsne_step := tsne_step sampleEnv;
     tsne_isConverged := tsne_isConverged sampleEnv;
     tsne_getSolution := tsne_getSolution sampleEnv |}.

(** A tsne-js whose constructor throws, and one whose second [step]
    throws; the state of the latter counts the steps taken. *)
Definition brokenEnv : Env :=
  {| Math_cos := Math_cos trigEnv;
     Math_sin := Math_sin trigEnv;
     Math_random := Math_random sampleEnv;
     pca_predict := pca_predict sampleEnv;
     pca_getExplainedVariance := pca_getExplainedVariance sampleEnv;
     TSNE := unit;
     tsne_new := fun _ => Throw (Error "Perplexity too large");
     tsne_init := fun t _ => Ok t;
     tsne_step := fun t => Ok t;
     tsne_isConverged := fun _ => Ok true;
     tsne_getSolution := fun _ => Ok [] |}.

Definition stallingEnv : Env :=
  {| Math_cos := Math_cos sampleEnv;
     Math_sin := Math_sin sampleEnv;
     Math_random := Math_random sampleEnv;
     pca_predict := pca_predict sampleEnv;
     pca_getExplainedVariance := pca_getExplainedVariance sampleEnv;
     TSNE := nat;
     tsne_new := fun _ => Ok 0%nat;
     tsne_init := fun t _ => Ok t;
     tsne_step := fun t => match t with
                           | O => Ok 1%nat
                           | _ => Throw (Error "Gradient is not finite")
                           end;
     tsne_isConverged := fun _ => Ok false;
     tsne_getSolution := fun _ => Ok [] |}.

(** The events of the PCA code of [performPCA] (lines 22-26, which go
    through ml-matrix and ml-pca), the events of tsne-js, the runs of
    [tsne.step()], and how many of the latter a sequence of events
    holds. *)
Definition is_PCA_event (ev : Event) : bool :=
  match ev with
  | PCA_predict _ _ | PCA_getExplainedVariance => true
  | _ => false
  end.

Definition is_TSNE_event (ev : Event) : bool :=
  match ev with
  | TSNE_new _ | TSNE_init _ | TSNE_step | TSNE_isConverged | TSNE_getSolution => true
  | _ => false
  end.

Definition is_TSNE_step (ev : Event) : bool :=
  match ev with
  | TSNE_step => true
  | _ => false
  end.

Definition stepsIn (evs : list Event) : nat := length (filter is_TSNE_step evs).

(** The encoder route: the state of a freshly started server, the
    requests the route refuses, and how often a sequence of calls loads
    the model. *)
Definition freshServer (L : ModelEmbeddings.Lib) : ModelEmbeddings.Server L :=
  {| ModelEmbeddings.model := None; ModelEmbeddings.calls := [] |}.

(** The state after requests that come in turn: each one is answered
    before the next one arrives, so no two handlers overlap. *)
Definition serveInTurn (L : ModelEmbeddings.Lib) (now : string)
  (requests : list (Result SimpleEmbeddings.Body)) (st : ModelEmbeddings.Server L)
  : ModelEmbeddings.Server L :=
  fold_left (fun st request_json => snd (ModelEmbeddings.POST now request_json st))
            requests st.

(** The state after two calls of [loadModel] that overlap: the second
    handler reaches [loadModel] while the load of the first is awaited, and
    then the two loads settle one after the other. *)
Definition overlappingLoads (L : ModelEmbeddings.Lib) (st : ModelEmbeddings.Server L)
  : ModelEmbeddings.Server L :=
  let st := snd (ModelEmbeddings.loadModel_start st) in
  let st := snd (ModelEmbeddings.loadModel_start st) in
  let st := snd (ModelEmbeddings.loadModel_finish st) in
  snd (ModelEmbeddings.loadModel_finish st).

(** Whether an element of a request is a string. *)
Definition isText (sentence : SimpleEmbeddings.Element) : bool :=
  match sentence with
  | SimpleEmbeddings.Text _ => true
  | SimpleEmbeddings.NotText _ => false
  end.

Definition refusedRequest (request_json : Result SimpleEmbeddings.Body) : Prop :=
  request_json = Ok SimpleEmbeddings.NotAnArray \/
  exists sentences,
    request_json = Ok (SimpleEmbeddings.Sentences sentences) /\
    (length sentences = 0 \/ 50 < length sentences)%nat.

Definition is_Load (c : ModelEmbeddings.Call) : bool :=
  match c with
  | ModelEmbeddings.Load => true
  | _ => false
  end.

Definition loadsIn (cs : list ModelEmbeddings.Call) : nat := length (filter is_Load cs).

(** A TensorFlow.js that works, and one whose tensors cannot be read. *)
Definition sampleLib : ModelEmbeddings.Lib :=
  {| ModelEmbeddings.Model := unit;
     ModelEmbeddings.Tensor := list (list number);
     ModelEmbeddings.load := Ok tt;
     ModelEmbeddings.embed := fun _ sentences => Ok (map (fun _ => [0.5; 0.5]) sentences);
     ModelEmbeddings.array := fun tensor => Ok tensor;
     ModelEmbeddings.dispose := fun _ => Ok tt |}.

Definition unreadableLib : ModelEmbeddings.Lib :=
  {| ModelEmbeddings.Model := unit;
     ModelEmbeddings.Tensor := list (list number);
     ModelEmbeddings.load := Ok tt;
     ModelEmbeddings.embed := fun _ sentences => Ok (map (fun _ => [0.5; 0.5]) sentences);
     ModelEmbeddings.array := fun _ => Throw (Error "Tensor is disposed");
     ModelEmbeddings.dispose := fun _ => Ok tt |}.

(** * Properties *)

(** ** Binary64 arithmetic

    What the proofs below need of IEEE 754 doubles, from the specification
    of Rocq's primitive floats: the order is irreflexive and asymmetric, and
    the sign of a rounded difference is the sign of the exact one. *)

Module Binary64.

Local Open Scope Z_scope.

(** The number of binary digits of a mantissa, and what it bounds. *)
Lemma digits2_size (p : positive) : digits2_pos p = Pos.size p.
Proof.
  induction p as [p IH|p IH|]; simpl; congruence.
Qed.

Lemma digits_upper (p : positive) : Zpos p < 2 ^ Zpos (digits2_pos p).
Proof.
  rewrite digits2_size. pose proof (Pos.size_gt p) as H.
  rewrite <- Pos2Z.inj_pow. exact H.
Qed.

Lemma digits_lower (p : positive) : 2 ^ Zpos (digits2_pos p) <= 2 * Zpos p.
Proof.
  rewrite digits2_size. pose proof (Pos.size_le p) as H.
  rewrite <- Pos2Z.inj_pow. exact H.
Qed.

(** Shifting a mantissa left by [d] bits multiplies it by [2 ^ d]. *)
Lemma iter_xO (d : positive) : forall m, Zpos (Pos.iter xO m d) = Zpos m * 2 ^ Zpos d.
Proof.
  induction d as [|d IH] using Pos.peano_ind; intros m.
  - simpl. lia.
  - rewrite Pos.iter_succ, Pos2Z.inj_xO, IH.
    rewrite Pos2Z.inj_succ, Z.pow_succ_r by lia. lia.
Qed.

(** The value of a mantissa aligned to a smaller exponent. *)
Lemma shl_align_value (m : positive) (e ez : Z) :
  ez <= e -> Zpos (fst (shl_align m e ez)) = Zpos m * 2 ^ (e - ez).
Proof.
  intros Hle. unfold shl_align.
  destruct (ez - e) as [|d|d] eqn:Hd.
  - replace (e - ez) with 0 by lia. simpl. lia.
  - lia.
  - simpl. rewrite iter_xO. replace (e - ez) with (Zpos d) by lia. reflexivity.
Qed.

(** What validity says of a finite binary64 number. *)
Lemma bounded_digits (m : positive) (e : Z) :
  bounded prec emax m e = true ->
  emin64 <= e /\ Zpos (digits2_pos m) <= prec /\ (emin64 < e -> Zpos (digits2_pos m) = prec).
Proof.
  unfold bounded, canonical_mantissa, fexp, emin64. intros H.
  apply andb_prop in H. destruct H as [H _]. apply Z.eqb_eq in H.
  unfold SpecFloat.emin in *. lia.
Qed.

(** Canonical representations are ordered by exponent, then mantissa. *)
Lemma aligned_lt (m1 m2 : positive) (e1 e2 : Z) :
  bounded prec emax m1 e1 = true -> bounded prec emax m2 e2 = true ->
  e1 < e2 \/ (e1 = e2 /\ Zpos m1 < Zpos m2) ->
  Zpos (fst (shl_align m1 e1 (Z.min e1 e2))) < Zpos (fst (shl_align m2 e2 (Z.min e1 e2))).
Proof.
  intros H1 H2 Hlt.
  apply bounded_digits in H1. apply bounded_digits in H2.
  destruct H1 as (H1a & H1b & H1c), H2 as (H2a & H2b & H2c).
  rewrite !shl_align_value by lia.
  destruct Hlt as [Hlt | (-> & Hlt)].
  - rewrite Z.min_l by lia. rewrite Z.sub_diag. simpl (2 ^ 0).
    pose proof (digits_upper m1) as Hu. pose proof (digits_lower m2) as Hl.
    rewrite H2c in Hl by lia.
    assert (Hpow : 2 ^ Zpos (digits2_pos m1) <= 2 ^ prec)
      by (apply Z.pow_le_mono_r; lia).
    assert (H2e : 2 ^ 1 <= 2 ^ (e2 - e1)) by (apply Z.pow_le_mono_r; lia).
    change (2 ^ 1) with 2 in H2e. nia.
  - rewrite Z.min_id, Z.sub_diag. simpl (2 ^ 0). lia.
Qed.


(** [iter_pos] is iteration the number of times its argument says. *)
Lemma iter_pos_nat {A : Type} (f : A -> A) (n : positive) :
  forall x, iter_pos f n x = Nat.iter (Pos.to_nat n) f x.
Proof.
  induction n as [n IH|n IH|]; intros x; cbn [iter_pos].
  - rewrite !IH, Pos2Nat.inj_xI, <- Nat.iter_succ_r, <- Nat.iter_add.
    f_equal. lia.
  - rewrite !IH, Pos2Nat.inj_xO, <- Nat.iter_add. f_equal. lia.
  - reflexivity.
Qed.

(** Halving a mantissa of at least two digits leaves one digit less. *)
Lemma shr_1_digits (p : positive) (r s : bool) :
  (1 < Pos.to_nat (digits2_pos p))%nat ->
  exists p' r' s',
    shr_1 {| shr_m := Zpos p; shr_r := r; shr_s := s |}
      = {| shr_m := Zpos p'; shr_r := r'; shr_s := s' |} /\
    Pos.to_nat (digits2_pos p') = pred (Pos.to_nat (digits2_pos p)).
Proof.
  destruct p as [p|p|]; simpl; intros H.
  - do 3 eexists. split; [reflexivity|]. rewrite Pos2Nat.inj_succ. reflexivity.
  - do 3 eexists. split; [reflexivity|]. rewrite Pos2Nat.inj_succ. reflexivity.
  - lia.
Qed.

Lemma iter_shr_1_positive (n : nat) :
  forall (p : positive) (r s : bool),
    (n < Pos.to_nat (digits2_pos p))%nat ->
    exists p' r' s',
      Nat.iter n shr_1 {| shr_m := Zpos p; shr_r := r; shr_s := s |}
        = {| shr_m := Zpos p'; shr_r := r'; shr_s := s' |} /\
      Pos.to_nat (digits2_pos p') = (Pos.to_nat (digits2_pos p) - n)%nat.
Proof.
  induction n as [|n IH]; intros p r s Hn; simpl.
  - do 3 eexists. split; [reflexivity | lia].
  - destruct (IH p r s) as (p1 & r1 & s1 & Hiter & Hdigits); [lia|].
    rewrite Hiter.
    destruct (@shr_1_digits p1 r1 s1) as (p2 & r2 & s2 & Hshr & Hd2); [lia|].
    rewrite Hshr. do 3 eexists. split; [reflexivity | lia].
Qed.

(** Shifting a positive mantissa into the format never empties it, as long
    as its exponent is not below [emin]. *)
Lemma shr_fexp_positive (p : positive) (e : Z) (l : location) :
  emin64 <= e ->
  exists p' r s e',
    shr_fexp prec emax (Zpos p) e l
      = ({| shr_m := Zpos p'; shr_r := r; shr_s := s |}, e') /\ emin64 <= e'.
Proof.
  intros He. unfold shr_fexp, shr.
  assert (Hrec : exists r s, shr_record_of_loc (Zpos p) l
                             = {| shr_m := Zpos p; shr_r := r; shr_s := s |})
    by (destruct l as [|[| |]]; simpl; eauto).
  destruct Hrec as (r & s & ->).
  destruct (fexp prec emax (Zdigits2 (Zpos p) + e) - e) as [|n|n] eqn:Hn.
  - eauto 6.
  - assert (Hlt : (Pos.to_nat n < Pos.to_nat (digits2_pos p))%nat).
    { unfold fexp, emin64, SpecFloat.emin in *. simpl Zdigits2 in Hn.
      unfold prec, emax in *. lia. }
    rewrite iter_pos_nat.
    destruct (@iter_shr_1_positive _ p r s Hlt) as (p' & r' & s' & -> & _).
    do 4 eexists. split; [reflexivity | lia].
  - eauto 6.
Qed.

(** Rounding to nearest even keeps a positive mantissa positive. *)
Lemma round_nearest_even_positive (p : positive) (l : location) :
  exists p', round_nearest_even (Zpos p) l = Zpos p'.
Proof.
  destruct l as [|[| |]]; simpl; eauto.
  destruct p; simpl; eauto.
Qed.

(** Rounding a positive mantissa gives a number above zero; rounding with
    the sign bit set never does. *)
Lemma binary_round_aux_positive (p : positive) (e : Z) (l : location) :
  emin64 <= e -> above_zero (binary_round_aux prec emax false (Zpos p) e l) = true.
Proof.
  intros He. unfold binary_round_aux.
  destruct (@shr_fexp_positive p e l He) as (p1 & r1 & s1 & e1 & -> & He1).
  simpl shr_m.
  destruct (@round_nearest_even_positive p1
              (loc_of_shr_record {| shr_m := Zpos p1; shr_r := r1; shr_s := s1 |}))
    as (p2 & ->).
  destruct (@shr_fexp_positive p2 e1 loc_Exact He1) as (p3 & r3 & s3 & e3 & -> & _).
  simpl. destruct (e3 <=? _); reflexivity.
Qed.

Lemma binary_round_positive (p : positive) (e : Z) :
  emin64 <= e -> above_zero (binary_round prec emax false p e) = true.
Proof.
  intros He. unfold binary_round.
  destruct (shl_align p e (fexp prec emax (Zpos (digits2_pos p) + e))) as [mz ez] eqn:Hal.
  apply binary_round_aux_positive.
  unfold shl_align in Hal.
  destruct (fexp prec emax (Zpos (digits2_pos p) + e) - e) eqn:Hd;
    injection Hal as _ <-; try exact He.
  unfold fexp, emin64, SpecFloat.emin. lia.
Qed.

Lemma binary_round_negative (p : positive) (e : Z) :
  above_zero (binary_round prec emax true p e) = false.
Proof.
  unfold binary_round, binary_round_aux.
  destruct (shl_align _ _ _) as [mz ez].
  destruct (shr_fexp _ _ _ _ _) as [mrs1 e1].
  destruct (shr_fexp _ _ _ _ _) as [mrs2 e2].
  destruct (shr_m mrs2); try reflexivity.
  destruct (e2 <=? _); reflexivity.
Qed.


(** The sign of an aligned difference decides the sign of its rounding. *)
Lemma binary_normalize_sign (d ez : Z) :
  emin64 <= ez -> 0 < d ->
  above_zero (binary_normalize prec emax d ez false) = true /\
  above_zero (binary_normalize prec emax (- d) ez false) = false.
Proof.
  intros He Hd. destruct d as [|p|p]; try lia. simpl. split.
  - apply binary_round_positive. exact He.
  - apply binary_round_negative.
Qed.

(** Subtraction of valid numbers [x < y]: [y - x] is above zero and [x - y]
    is not. *)
Lemma SFsub_sign (x y : spec_float) :
  valid_binary x = true -> valid_binary y = true ->
  SFltb x y = true ->
  above_zero (SF64sub y x) = true /\ above_zero (SF64sub x y) = false.
Proof.
  intros Hx Hy Hlt. unfold SFltb in Hlt.
  destruct x as [sx|sx| |sx mx ex], y as [sy|sy| |sy my ey];
    try destruct sx; try destruct sy; simpl in Hlt; try discriminate;
    try (split; reflexivity).
  all: simpl in Hx, Hy.
  all: pose proof (@bounded_digits _ _ Hx) as (Hex & _).
  all: pose proof (@bounded_digits _ _ Hy) as (Hey & _).
  all: unfold SF64sub, SFsub, cond_Zopp.
  - (* both negative: |y| < |x| *)
    assert (Hal : Zpos (fst (shl_align my ey (Z.min ey ex)))
                  < Zpos (fst (shl_align mx ex (Z.min ey ex)))).
    { apply aligned_lt; try assumption.
      destruct (ex ?= ey) eqn:Hc; try discriminate.
      - apply Z.compare_eq in Hc. right. split; [congruence|].
        change (Pos.compare_cont Eq mx my) with (mx ?= my)%positive in Hlt.
        destruct (mx ?= my)%positive eqn:Hm; try discriminate.
        change (mx > my)%positive in Hm. lia.
      - apply Z.compare_gt_iff in Hc. left. exact Hc. }
    rewrite (Z.min_comm ex ey).
    match goal with
    | |- above_zero (binary_normalize _ _ ?d1 _ _) = true /\
         above_zero (binary_normalize _ _ ?d2 _ _) = false =>
        replace d2 with (- d1) by lia;
        apply binary_normalize_sign; lia
    end.
  - (* x negative, y positive *)
    rewrite (Z.min_comm ex ey).
    match goal with
    | |- above_zero (binary_normalize _ _ ?d1 _ _) = true /\
         above_zero (binary_normalize _ _ ?d2 _ _) = false =>
        replace d2 with (- d1) by lia;
        apply binary_normalize_sign; lia
    end.
  - (* both positive: x < y *)
    assert (Hal : Zpos (fst (shl_align mx ex (Z.min ex ey)))
                  < Zpos (fst (shl_align my ey (Z.min ex ey)))).
    { apply aligned_lt; try assumption.
      destruct (ex ?= ey) eqn:Hc; try discriminate.
      - apply Z.compare_eq in Hc. right. split; [exact Hc|].
        change (Pos.compare_cont Eq mx my) with (mx ?= my)%positive in Hlt.
        destruct (mx ?= my)%positive eqn:Hm; try discriminate.
        change (mx < my)%positive in Hm. lia.
      - apply Z.compare_lt_iff in Hc. left. exact Hc. }
    rewrite (Z.min_comm ey ex).
    match goal with
    | |- above_zero (binary_normalize _ _ ?d1 _ _) = true /\
         above_zero (binary_normalize _ _ ?d2 _ _) = false =>
        replace d2 with (- d1) by lia;
        apply binary_normalize_sign; lia
    end.
Qed.

Local Close Scope Z_scope.

(** The comparison of the specification is antisymmetric, and reflexive off
    NaN. *)
Lemma SFcompare_antisym (x y : spec_float) :
  SFcompare y x = option_map CompOpp (SFcompare x y).
Proof.
  destruct x as [sx|sx| |sx mx ex], y as [sy|sy| |sy my ey]; simpl;
    try destruct sx; try destruct sy; try reflexivity.
  - rewrite (Z.compare_antisym ex ey). destruct (ex ?= ey)%Z; simpl; try reflexivity.
    f_equal. rewrite (ZC4 my mx). reflexivity.
  - rewrite (Z.compare_antisym ex ey). destruct (ex ?= ey)%Z; simpl; try reflexivity.
    f_equal. apply ZC4.
Qed.

Lemma SFcompare_refl (x : spec_float) :
  SFcompare x x = match x with S754_nan => None | _ => Some Eq end.
Proof.
  destruct x as [s|s| |s m e]; simpl; try destruct s; try reflexivity;
    rewrite Z.compare_refl, Pos.compare_cont_refl; reflexivity.
Qed.

(** On doubles: [<] is irreflexive, excludes [>=] the other way round, and
    holds of no NaN. *)
Lemma ltb_irrefl (a : float) : (a <? a) = false.
Proof.
  rewrite ltb_spec. unfold SFltb. rewrite SFcompare_refl.
  destruct (Prim2SF a); reflexivity.
Qed.

Lemma ltb_leb_false (a b : float) : (a <? b) = true -> (b <=? a) = false.
Proof.
  rewrite ltb_spec, leb_spec. unfold SFltb, SFleb.
  rewrite (SFcompare_antisym (Prim2SF a) (Prim2SF b)).
  destruct (SFcompare (Prim2SF a) (Prim2SF b)) as [[| |]|]; simpl; congruence.
Qed.

Lemma ltb_leb_refl_r (a b : float) : (a <? b) = true -> (b <=? b) = true.
Proof.
  rewrite ltb_spec, leb_spec. unfold SFltb, SFleb.
  rewrite SFcompare_refl.
  destruct (Prim2SF b); try reflexivity.
  destruct (Prim2SF a); simpl; discriminate.
Qed.

(** [a - a] is [0] or NaN, never above zero. *)
Lemma sub_diag_not_positive (a : float) : (0 <? a - a) = false.
Proof.
  rewrite ltb_spec, sub_spec. unfold SFltb.
  change (Prim2SF 0) with (S754_zero false).
  destruct (Prim2SF a) as [s|s| |s m e]; try destruct s; try reflexivity.
  - unfold SF64sub, SFsub. rewrite Z.sub_diag. reflexivity.
  - unfold SF64sub, SFsub. rewrite Z.sub_diag. reflexivity.
Qed.

Lemma ltb_above_zero (r : float) : (0 <? r) = above_zero (Prim2SF r).
Proof.
  rewrite ltb_spec. reflexivity.
Qed.

(** For doubles [a < b], the difference [b - a] is above zero and [a - b]
    is not: subtraction never rounds a non-zero difference to zero, nor
    across it. *)
Lemma ltb_sub_sign (a b : float) :
  (a <? b) = true -> (0 <? b - a) = true /\ (0 <? a - b) = false.
Proof.
  intros Hlt. rewrite !ltb_above_zero, !sub_spec.
  apply SFsub_sign; try apply Prim2SF_valid.
  rewrite <- ltb_spec. exact Hlt.
Qed.

(** Any two doubles with [a < b] are ordered for the code. *)
Lemma ltb_below (a b : float) : (a <? b) = true -> below a b = true.
Proof.
  intros Hlt. unfold below.
  destruct (ltb_sub_sign Hlt) as (Hba & Hab).
  rewrite Hlt, Hba, Hab, (ltb_irrefl b), (ltb_leb_refl_r Hlt), (ltb_leb_false Hlt),
    (sub_diag_not_positive a), (sub_diag_not_positive b).
  reflexivity.
Qed.

(** [Math.min(p, 1)] is [1] for every [p >= 1], infinite or not. *)
Lemma Math_min_one (p : float) : (1 <=? p) = true -> Math_min p 1 = 1.
Proof.
  intros Hle.
  assert (Hnan : is_nan p = false).
  { unfold is_nan. rewrite eqb_spec. unfold SFeqb. rewrite SFcompare_refl.
    rewrite leb_spec in Hle. unfold SFleb in Hle.
    destruct (Prim2SF p); try reflexivity.
    change (Prim2SF 1) with (S754_finite false 4503599627370496 (-52)) in Hle.
    simpl in Hle. discriminate. }
  assert (Hlt : (p <? 1) = false).
  { destruct (p <? 1) eqn:H; [|reflexivity].
    apply ltb_leb_false in H. congruence. }
  unfold Math_min. rewrite Hnan, Hlt. simpl.
  destruct (1 <? p); [reflexivity|].
  destruct (get_sign p) eqn:Hsign; [|reflexivity].
  exfalso. unfold get_sign, is_zero in Hsign.
  rewrite leb_spec in Hle. unfold SFleb in Hle.
  change (Prim2SF 1) with (S754_finite false 4503599627370496 (-52)) in Hle.
  destruct (p =? zero) eqn:Hz.
  - rewrite eqb_spec in Hz. unfold SFeqb in Hz.
    change (Prim2SF zero) with (S754_zero false) in Hz.
    destruct (Prim2SF p) as [s|s| |s m e]; try destruct s; simpl in *; discriminate.
  - rewrite ltb_spec in Hsign. unfold SFltb in Hsign.
    change (Prim2SF zero) with (S754_zero false) in Hsign.
    destruct (Prim2SF p) as [s|s| |s m e]; try destruct s; simpl in *; discriminate.
Qed.

End Binary64.

(** ** Similarity *)

Section SimilarityFacts.

Import Similarity.

Lemma reduce_from_squares_zero (v : list number) (i : nat) :
  Forall isZero v ->
  reduce_from (fun sum val (_ : nat) => sum + val * val) v i 0 = 0.
Proof.
  intros Hv. revert i.
  induction Hv as [|val v [Hz|Hz] _ IH]; intros i; simpl.
  - reflexivity.
  - subst val. apply IH.
  - subst val. apply IH.
Qed.

(** A vector of zeros has magnitude exactly [0]. *)
Lemma magnitude_zero_vector (v : list number) :
  Forall isZero v -> magnitude v = 0.
Proof.
  intros Hv. unfold magnitude, reduce.
  rewrite (reduce_from_squares_zero 0 Hv). reflexivity.
Qed.

Lemma cosineSimilarity_same_length (a b : list number) :
  length a = length b ->
  cosineSimilarity a b =
    if (magnitude a =? 0) || (magnitude b =? 0) then Ok 0
    else Ok (reduce (fun sum val i => sum + val * ToNumber (nth_error b i)) a 0
             / (magnitude a * magnitude b)).
Proof.
  intros Hlen. unfold cosineSimilarity.
  rewrite Hlen, Nat.eqb_refl. reflexivity.
Qed.

(** C8. For equal-length vectors [a] and [b], when the magnitude of [a] or
    of [b] is exactly [0], [cosineSimilarity a b] returns the number [0]:
    it does not throw and the result is not NaN. *)
Theorem cosineSimilarity_zero_magnitude (a b : list number) :
  length a = length b ->
  (magnitude a =? 0) = true \/ (magnitude b =? 0) = true ->
  cosineSimilarity a b = Ok 0.
Proof.
  intros Hlen Hzero.
  rewrite (cosineSimilarity_same_length _ _ Hlen).
  destruct Hzero as [Ha | Hb].
  - rewrite Ha. reflexivity.
  - rewrite Hb, orb_true_r. reflexivity.
Qed.

Lemma cosineSimilarity_zero_magnitude_witness :
  cosineSimilarity [0; -0; 0] [1; 2; 3] = Ok 0.
Proof.
  apply (@cosineSimilarity_zero_magnitude [0; -0; 0] [1; 2; 3]).
  - reflexivity.
  - left. vm_compute. reflexivity.
Defined.

(** The zero vector against anything of its length gives [0], on either
    side. *)
Lemma cosineSimilarity_zero_vector (a b : list number) :
  length a = length b ->
  Forall isZero a \/ Forall isZero b ->
  cosineSimilarity a b = Ok 0 /\ cosineSimilarity b a = Ok 0.
Proof.
  intros Hlen Hz.
  rewrite (cosineSimilarity_same_length _ _ Hlen).
  rewrite (cosineSimilarity_same_length _ _ (eq_sym Hlen)).
  destruct Hz as [Hz | Hz]; rewrite (magnitude_zero_vector Hz); simpl;
    rewrite ?orb_true_r; split; reflexivity.
Qed.

Lemma cosineSimilarity_zero_vector_witness :
  cosineSimilarity [0; -0] [3; 4] = Ok 0 /\ cosineSimilarity [3; 4] [0; -0] = Ok 0.
Proof.
  apply (@cosineSimilarity_zero_vector [0; -0] [3; 4]).
  - reflexivity.
  - left. constructor; [left; reflexivity|].
    constructor; [right; reflexivity | constructor].
Defined.

(** Candidates that all carry the target's label leave the scan where it
    started, and [findMostSimilar] returns [null]; so it does on no
    candidates at all. *)
Lemma scanCandidates_same_label (targetSentence : string) (targetEmbedding : list number)
  (candidates : list EmbeddingData) (st : number * string) :
  Forall (fun c => sentence c = targetSentence) candidates ->
  scanCandidates targetSentence targetEmbedding candidates st = Ok st.
Proof.
  induction 1 as [|c cs Hc _ IH]; simpl.
  - reflexivity.
  - unfold scanCandidate. destruct st as [maxSimilarity mostSimilar].
    rewrite Hc, String.eqb_refl. simpl. exact IH.
Qed.

Lemma findMostSimilar_no_other_label (targetSentence : string)
  (targetEmbedding : list number) (candidates : list EmbeddingData) :
  Forall (fun c => sentence c = targetSentence) candidates ->
  findMostSimilar targetSentence targetEmbedding candidates = Ok None.
Proof.
  intros Hsame. unfold findMostSimilar.
  destruct (length candidates =? 0)%nat; [reflexivity|].
  rewrite (scanCandidates_same_label _ _ Hsame). reflexivity.
Qed.

(** C2. [findMostSimilar] on the target ["a"] with embedding [[1]] and the
    single candidate ["b"] with embedding [[-1]]: the candidate's label
    differs from the target's and its cosine similarity is [-1], the value
    [maxSimilarity] starts from, so the scan keeps nothing and the result is
    [null]. *)
Theorem findMostSimilar_opposite_candidate_is_null :
  sentence (record "b" [-1]) <> "a" /\
  cosineSimilarity [1] (embedding (record "b" [-1])) = Ok (-1) /\
  findMostSimilar "a" [1] [record "b" [-1]] = Ok None.
Proof.
  split; [discriminate | split; vm_compute; reflexivity].
Qed.

End SimilarityFacts.

(** ** The effect monad *)

Section MonadFacts.

Variable E : Env.

(** A [map] whose function has no effect is the pure [map]. *)
Lemma mapM_from_pure {A B : Type} (f : A -> nat -> M B) (g : A -> nat -> B) :
  (forall a i w, f a i w = (Ok (g a i), w)) ->
  forall l i w, mapM_from f l i w = (Ok (map_from g l i), w).
Proof.
  intros Hf l. induction l as [|a l IH]; intros i w; simpl.
  - reflexivity.
  - unfold bind. rewrite Hf, IH. reflexivity.
Qed.

(** A [map] whose function never throws returns one element per input. *)
Lemma mapM_from_total {A B : Type} (f : A -> nat -> M B) :
  (forall a i w, exists b w', f a i w = (Ok b, w')) ->
  forall l i w, exists bs w',
    mapM_from f l i w = (Ok bs, w') /\ length bs = length l.
Proof.
  intros Hf l. induction l as [|a l IH]; intros i w; simpl.
  - exists [], w. split; reflexivity.
  - unfold bind. destruct (Hf a i w) as (b & w1 & Hb). rewrite Hb.
    destruct (IH (S i) w1) as (bs & w2 & Hbs & Hlen). rewrite Hbs.
    exists (b :: bs), w2. split; [reflexivity | simpl; congruence].
Qed.

Lemma map_from_length {A B : Type} (g : A -> nat -> B) (l : list A) (i : nat) :
  length (map_from g l i) = length l.
Proof.
  revert i. induction l as [|a l IH]; intros i; simpl; [reflexivity | now rewrite IH].
Qed.

Lemma or_else_total (v : option number) (alt : M number) :
  (forall w, exists c w', alt w = (Ok c, w')) ->
  forall w, exists c w', or_else v alt w = (Ok c, w').
Proof.
  intros Halt w. unfold or_else. destruct (truthy v).
  - exists (ToNumber v), w. reflexivity.
  - apply Halt.
Qed.

Lemma jitter_total (w : World) :
  exists c w', (r <- random E ;; ret (r - 0.5))%monad w = (Ok c, w').
Proof.
  unfold bind, random, ret. eauto.
Qed.

(** The [catch] branch of [performPCA] cannot throw. *)
Lemma pcaFallbackPoint_total (d : Dimensions) (emb : list number) (i : nat) (w : World) :
  exists p w', pcaFallbackPoint E d emb i w = (Ok p, w').
Proof.
  unfold pcaFallbackPoint, bind.
  assert (Hret : forall w0 : World, exists c w', ret (of_nat i) w0 = (Ok c, w'))
    by (intros w0; unfold ret; eauto).
  destruct (@or_else_total (nth_error emb 0) _ Hret w) as (c0 & w0 & H0).
  rewrite H0.
  destruct (@or_else_total (nth_error emb 1) _ jitter_total w0) as (c1 & w1 & H1).
  fold (bind (random E) (fun r => ret (r - 0.5))). rewrite H1.
  destruct (@or_else_total (nth_error emb 2) _ jitter_total w1) as (c2 & w2 & H2).
  rewrite H2. unfold ret. eauto.
Qed.

End MonadFacts.

(** ** PCA *)

Section PCAFacts.

Variable E : Env.

Lemma pca_fallback_rows (d : Dimensions) (embeddings : list (list number)) (w : World) :
  exists r w',
    (reduced <- mapM (pcaFallbackPoint E d) embeddings ;;
     ret {| pca_reduced := reduced; pca_variance := repeat 0.3 (dim_nat d) |})%monad w
      = (Ok r, w')
    /\ length (pca_reduced r) = length embeddings.
Proof.
  unfold bind, mapM.
  destruct (mapM_from_total (pcaFallbackPoint E d) (pcaFallbackPoint_total E d) embeddings 0 w)
    as (bs & w' & Hbs & Hlen).
  rewrite Hbs. unfold ret. eexists; eexists; split; [reflexivity | exact Hlen].
Qed.

(** C7. For a single input vector, [performPCA] returns one point, all of
    whose [k] coordinates are [0], and [k] variance entries equal to [0.5],
    for [k = 2] and for [k = 3]; the world is left as it was. *)
Theorem performPCA_single_vector (v : list number) (d : Dimensions) (w : World) :
  performPCA E [v] d w =
    (Ok {| pca_reduced := [repeat 0 (dim_nat d)];
           pca_variance := repeat 0.5 (dim_nat d) |}, w).
Proof.
  destruct d; reflexivity.
Qed.

(** C9. [performPCA] never throws: for every input and both values of
    [dimensions] it returns a result, through the small-input branch, the
    main branch or the [catch] branch; and the result holds one reduced
    point per input vector, given that ml-pca's [predict], whose rows the
    main branch returns as they are, yields one row per input row. *)
Theorem performPCA_total (embeddings : list (list number)) (d : Dimensions) (w : World) :
  exists r w',
    performPCA E embeddings d w = (Ok r, w') /\
    (predict_keeps_rows E -> length (pca_reduced r) = length embeddings).
Proof.
  unfold performPCA, try_catch.
  destruct (length embeddings <? 2)%nat.
  - unfold ret. eexists; eexists; split; [reflexivity|].
    intros _. simpl. apply map_from_length.
  - unfold bind at 1. unfold call at 1.
    destruct (pca_predict E embeddings d) as [rows|e] eqn:Hpredict.
    + unfold bind, call.
      destruct (pca_getExplainedVariance E embeddings) as [var|e].
      * unfold ret. eexists; eexists; split; [reflexivity|].
        intros Hrows. simpl. eapply Hrows; eassumption.
      * destruct (pca_fallback_rows d embeddings (log PCA_getExplainedVariance
                    (log (PCA_predict embeddings d) w))) as (r & w' & Hr & Hlen).
        exists r, w'. split; [exact Hr | intros _; exact Hlen].
    + destruct (pca_fallback_rows d embeddings (log (PCA_predict embeddings d) w))
        as (r & w' & Hr & Hlen).
      exists r, w'. split; [exact Hr | intros _; exact Hlen].
Qed.

End PCAFacts.

Lemma sampleEnv_keeps_rows : predict_keeps_rows sampleEnv.
Proof.
  intros embeddings d rows H. simpl in H.
  destruct (forallb _ embeddings); [|discriminate].
  injection H as <-. apply length_map.
Qed.

Lemma performPCA_total_witness :
  exists r w',
    performPCA sampleEnv [[1; 2; 3]; [4; 5; 6]] D2 world0 = (Ok r, w') /\
    length (pca_reduced r) = 2%nat.
Proof.
  destruct (@performPCA_total sampleEnv [[1; 2; 3]; [4; 5; 6]] D2 world0)
    as (r & w' & Hrun & Hrows).
  exists r, w'. split; [exact Hrun | exact (Hrows sampleEnv_keeps_rows)].
Defined.

(** ** t-SNE *)

Section TSNEFacts.

Variable E : Env.

Lemma quiet_refl (w : World) : quiet w w.
Proof.
  exists []. split; [now rewrite app_nil_r | reflexivity].
Qed.

Lemma quiet_trans (w1 w2 w3 : World) : quiet w1 w2 -> quiet w2 w3 -> quiet w1 w3.
Proof.
  intros (evs1 & H1 & Hq1) (evs2 & H2 & Hq2).
  exists (evs1 ++ evs2)%list. split.
  - rewrite H2, H1, app_assoc. reflexivity.
  - rewrite existsb_app, Hq1, Hq2. reflexivity.
Qed.

Lemma quiet_log (ev : Event) (w : World) : is_TSNE_new ev = false -> quiet w (log ev w).
Proof.
  intros Hev. exists [ev]. split; [reflexivity | simpl; now rewrite Hev].
Qed.

(** Closes [quiet w w'] when [w'] is [w] with events logged one by one. *)
Ltac quiet_logs :=
  first
    [ apply quiet_refl
    | unfold quiet, log; simpl; eexists; split;
      [ rewrite <- ?app_assoc; reflexivity | reflexivity ] ].

(** A run of [step] calls [step], [isConverged] and [getSolution] only. *)
Lemma step_quiet (t : TSNE E) (iterations : nat) (w : World) :
  quiet w (snd (step E t iterations w)).
Proof.
  unfold step, bind, call, ret.
  destruct (maxIterations <=? S iterations)%nat;
    destruct (tsne_step E t) as [t'|e]; simpl; try quiet_logs.
  - destruct (tsne_getSolution E t'); simpl; quiet_logs.
  - destruct (tsne_isConverged E t') as [[|]|e]; simpl; try quiet_logs.
    destruct (tsne_getSolution E t'); simpl; quiet_logs.
Qed.

Lemma timers_S (fuel : nat) (t : TSNE E) (iterations : nat) (w : World) :
  timers E (S fuel) t iterations w =
    match step E t iterations w with
    | (Throw _, w') => (Ok Pending, w')
    | (Ok (_, _, Some solution), w') => (Ok (Resolved solution), w')
    | (Ok (t', iterations', None), w') => timers E fuel t' iterations' w'
    end.
Proof.
  reflexivity.
Qed.

Lemma timers_quiet (fuel : nat) :
  forall (t : TSNE E) (iterations : nat) (w : World),
    quiet w (snd (timers E fuel t iterations w)).
Proof.
  induction fuel as [|fuel IH]; intros t iterations w.
  - apply quiet_refl.
  - rewrite timers_S.
    pose proof (step_quiet t iterations w) as Hstep.
    destruct (step E t iterations w) as [[[[t' iterations'] [solution|]]|e] w'];
      simpl in Hstep; simpl.
    + exact Hstep.
    + eapply quiet_trans; [exact Hstep | apply IH].
    + exact Hstep.
Qed.

(** A run of [step] that does not resolve has counted one more iteration,
    still below the cap. *)
Lemma step_continues (t t' : TSNE E) (iterations iterations' : nat) (w w' : World) :
  step E t iterations w = (Ok (t', iterations', None), w') ->
  iterations' = S iterations /\ (S iterations < maxIterations)%nat.
Proof.
  unfold step, bind, call, ret.
  destruct (maxIterations <=? S iterations)%nat eqn:Hcap;
    destruct (tsne_step E t) as [t1|e]; simpl; try discriminate.
  - destruct (tsne_getSolution E t1); simpl; discriminate.
  - apply Nat.leb_gt in Hcap.
    destruct (tsne_isConverged E t1) as [[|]|e]; simpl; try discriminate.
    + destruct (tsne_getSolution E t1); simpl; discriminate.
    + intros H. injection H as _ <- _. split; [reflexivity | exact Hcap].
Qed.

(** [maxIterations - iterations] runs are all the timers can make: more
    fuel changes nothing, so the [Pending] of exhausted fuel never shows. *)
Lemma timers_enough_fuel (fuel : nat) :
  forall (t : TSNE E) (iterations : nat) (w : World),
    (iterations < maxIterations)%nat ->
    (maxIterations - iterations <= fuel)%nat ->
    timers E (S fuel) t iterations w = timers E fuel t iterations w.
Proof.
  induction fuel as [|fuel IH]; intros t iterations w Hlt Hfuel; [lia|].
  rewrite (timers_S (S fuel)), (timers_S fuel).
  destruct (step E t iterations w) as [[[[t' iterations'] [solution|]]|e] w'] eqn:Hstep;
    try reflexivity.
  apply step_continues in Hstep. destruct Hstep as (-> & Hnext).
  apply IH; lia.
Qed.

Lemma step_total :
  tsne_never_throws E ->
  forall (t : TSNE E) (iterations : nat) (w : World),
    exists r w', step E t iterations w = (Ok r, w').
Proof.
  intros (_ & _ & Hstep & Hconv & Hsol) t iterations w.
  unfold step, bind, call, ret.
  destruct (Hstep t) as (t1 & ->).
  destruct (maxIterations <=? S iterations)%nat; simpl.
  - destruct (Hsol t1) as (solution & ->). eauto.
  - destruct (Hconv t1) as ([|] & ->); simpl; [|eauto].
    destruct (Hsol t1) as (solution & ->). eauto.
Qed.

(** With a library that does not throw, the timers resolve the promise. *)
Lemma timers_resolve (fuel : nat) :
  tsne_never_throws E ->
  forall (t : TSNE E) (iterations : nat) (w : World),
    (iterations < maxIterations)%nat ->
    (maxIterations - iterations <= fuel)%nat ->
    exists solution w', timers E fuel t iterations w = (Ok (Resolved solution), w').
Proof.
  intros Hlib.
  induction fuel as [|fuel IH]; intros t iterations w Hlt Hfuel; [lia|].
  rewrite timers_S.
  destruct (step_total Hlib t iterations w) as ([[t' iterations'] [solution|]] & w' & Hrun);
    rewrite Hrun.
  - eauto.
  - apply step_continues in Hrun. destruct Hrun as (-> & Hnext).
    apply IH; lia.
Qed.

Lemma simplePoint_total (n : nat) (d : Dimensions) (i : nat) (w : World) :
  exists point w', simplePoint E n d i w = (Ok point, w').
Proof.
  destruct d; unfold simplePoint, bind, random, ret; eauto.
Qed.

(** With a library that does not throw, [performTSNE] resolves its promise,
    within the iteration cap. *)
Lemma performTSNE_resolves
  (embeddings : list (list number)) (d : Dimensions) (p : number) (w : World) :
  tsne_never_throws E ->
  exists layout w', performTSNE E embeddings d p w = (Ok (Resolved layout), w').
Proof.
  intros Hlib. unfold performTSNE, try_catch.
  destruct (length embeddings <? 4)%nat.
  - unfold bind, mapM.
    destruct (mapM_from_total
                (fun (_ : list number) i => simplePoint E (length embeddings) d i)
                (fun _ i w0 => simplePoint_total (length embeddings) d i w0)
                embeddings 0 w) as (layout & w' & -> & _).
    unfold ret. eauto.
  - pose proof Hlib as (Hnew & Hinit & _).
    unfold bind at 1. unfold call at 1.
    destruct (Hnew (tsneOptions embeddings d p)) as (t & ->).
    unfold bind at 1. unfold call at 1.
    destruct (Hinit t embeddings) as (t' & ->).
    unfold bind.
    destruct (step_total Hlib t' 0 (log (TSNE_init embeddings)
                (log (TSNE_new (tsneOptions embeddings d p)) w)))
      as ([[t'' iterations] [solution|]] & w1 & Hrun); rewrite Hrun.
    + unfold ret. eauto.
    + apply step_continues in Hrun. destruct Hrun as (-> & Hnext).
      destruct (timers_resolve (fuel := maxIterations) Hlib t'' w1 Hnext)
        as (solution & w2 & ->); [lia|].
      eauto.
Qed.

(** For the input sizes a browser session sees, the double
    [Math.floor((N - 1) / 3)] is the integer quotient of [N - 1] by [3]. *)
Lemma floor_third_exact (n : nat) :
  (1 <= n <= 4096)%nat ->
  Math_floor ((of_nat n - 1) / 3) = of_nat ((n - 1) / 3).
Proof.
  intros Hn.
  assert (Hall : map (fun n => Math_floor ((of_nat n - 1) / 3)) (seq 1 4096)
                 = map (fun n => of_nat ((n - 1) / 3)) (seq 1 4096))
    by (vm_compute; reflexivity).
  rewrite map_ext_in_iff in Hall. apply Hall.
  apply in_seq. lia.
Qed.

(** For fewer than 4 inputs and two dimensions, the promise resolves with
    the circular layout and the world is untouched. *)
Lemma simplePoint_D2 (n i : nat) (w : World) :
  simplePoint E n D2 i w =
    (Ok [Math_cos E (angleOf i n) * 1; Math_sin E (angleOf i n) * 1], w).
Proof.
  reflexivity.
Qed.

(** A [map] that only reads the index is a [map] over the indices. *)
Lemma map_from_seq {A B : Type} (g : nat -> B) (l : list A) :
  forall k, map_from (fun _ i => g i) l k = map g (seq k (length l)).
Proof.
  induction l as [|a l IH]; intros k; simpl; [reflexivity|].
  rewrite IH. reflexivity.
Qed.

(** C6. For [N < 4] input vectors and target dimensionality 2,
    [performTSNE] resolves with [N] points on the unit circle, point [i]
    being [(cos a * 1, sin a * 1)] for the [i]-th of the evenly spread
    angles [a = 2 pi i / N]: no angle for no input, [0] for one, [0] and
    [pi] for two, and for three the doubles that are 0, 120 and 240
    degrees.  The world comes back unchanged, so no call to tsne-js was
    made and nothing random was drawn. *)
Theorem performTSNE_small_input (embeddings : list (list number)) (p : number) (w : World) :
  (length embeddings < 4)%nat ->
  performTSNE E embeddings D2 p w =
    (Ok (Resolved
           (map (fun angle => [Math_cos E angle * 1; Math_sin E angle * 1])
                (evenAngles (length embeddings)))), w) /\
  evenAngles (length embeddings) =
    match length embeddings with
    | O => []
    | Datatypes.S O => [0]
    | Datatypes.S (Datatypes.S O) => [0; 0x1.921fb54442d18p+1]
    | _ => [0; 0x1.0c152382d7365p+1; 0x1.0c152382d7365p+2]
    end /\
  (length embeddings = 3%nat ->
   map (fun angle => angle / 0x1.921fb54442d18p+1 * 180) (evenAngles (length embeddings))
     = [0; 120; 240]).
Proof.
  intros Hsmall. split; [|split].
  - unfold performTSNE, try_catch.
    apply Nat.ltb_lt in Hsmall. rewrite Hsmall.
    unfold bind, mapM.
    rewrite (mapM_from_pure
               (fun (_ : list number) i => simplePoint E (length embeddings) D2 i)
               (fun _ i => [Math_cos E (angleOf i (length embeddings)) * 1;
                            Math_sin E (angleOf i (length embeddings)) * 1])
               (fun _ i w0 => simplePoint_D2 (length embeddings) i w0)).
    unfold ret.
    rewrite (map_from_seq
               (fun i => [Math_cos E (angleOf i (length embeddings)) * 1;
                          Math_sin E (angleOf i (length embeddings)) * 1])).
    unfold evenAngles. rewrite map_map. reflexivity.
  - destruct embeddings as [|v1 [|v2 [|v3 [|v4 rest]]]]; simpl in Hsmall; try lia;
      vm_compute; reflexivity.
  - intros ->. vm_compute. reflexivity.
Qed.

(** C4. For at least 4 input vectors and any configured perplexity [p],
    [performTSNE] constructs exactly one tsne-js instance, and the
    perplexity it passes is [Math.min(p, Math.floor((N - 1) / 3))]; for
    [N = 5] that is [Math.min(p, 1)], which is [1] for every [p >= 1]. *)
Theorem performTSNE_effective_perplexity
  (embeddings : list (list number)) (d : Dimensions) (p : number) (w : World) :
  (4 <= length embeddings)%nat ->
  exists options rest,
    trace (snd (performTSNE E embeddings d p w))
      = (trace w ++ TSNE_new options :: rest)%list /\
    existsb is_TSNE_new rest = false /\
    opt_perplexity options
      = Math_min p (Math_floor ((of_nat (length embeddings) - 1) / 3)) /\
    (length embeddings = 5%nat ->
     opt_perplexity options = Math_min p 1 /\
     ((1 <=? p) = true -> opt_perplexity options = 1)).
Proof.
  intros Hlarge.
  assert (Hnot : (length embeddings <? 4)%nat = false) by (apply Nat.ltb_ge; exact Hlarge).
  assert (Hfrom : forall w', quiet (log (TSNE_new (tsneOptions embeddings d p)) w) w' ->
            exists rest, trace w' = (trace w ++ TSNE_new (tsneOptions embeddings d p) :: rest)%list
                         /\ existsb is_TSNE_new rest = false).
  { intros w' (evs & Htr & Hq). exists evs. split; [|exact Hq].
    rewrite Htr. simpl. rewrite <- app_assoc. reflexivity. }
  assert (Hrest : exists rest,
            trace (snd (performTSNE E embeddings d p w))
              = (trace w ++ TSNE_new (tsneOptions embeddings d p) :: rest)%list
            /\ existsb is_TSNE_new rest = false).
  { apply Hfrom. unfold performTSNE, try_catch. rewrite Hnot.
    unfold bind at 1. unfold call at 1.
    destruct (tsne_new E (tsneOptions embeddings d p)) as [t|e]; simpl; [|apply quiet_refl].
    unfold bind at 1. unfold call at 1.
    destruct (tsne_init E t embeddings) as [t'|e]; simpl; [|quiet_logs].
    eapply quiet_trans; [apply (@quiet_log (TSNE_init embeddings)); reflexivity|].
    unfold bind.
    pose proof (step_quiet t' 0 (log (TSNE_init embeddings)
                  (log (TSNE_new (tsneOptions embeddings d p)) w))) as Hstep.
    destruct (step E t' 0 _) as [[[[t'' iterations] [solution|]]|e] w1];
      simpl in Hstep; simpl.
    - exact Hstep.
    - eapply quiet_trans; [exact Hstep|].
      pose proof (timers_quiet maxIterations t'' iterations w1) as Htimers.
      destruct (timers E maxIterations t'' iterations w1) as [[promise|e] w2];
        exact Htimers.
    - exact Hstep. }
  destruct Hrest as (rest & Htrace & Hquiet).
  exists (tsneOptions embeddings d p), rest.
  split; [exact Htrace | split; [exact Hquiet | split; [reflexivity|]]].
  intros Hfive.
  assert (Hmin : opt_perplexity (tsneOptions embeddings d p) = Math_min p 1)
    by (simpl; rewrite Hfive; reflexivity).
  split; [exact Hmin|].
  intros Hp. rewrite Hmin. apply Binary64.Math_min_one. exact Hp.
Qed.

End TSNEFacts.

(** Three points sit at 0, 120 and 240 degrees. *)
Lemma three_points_angles :
  map (fun i => angleOf i 3) [0; 1; 2]%nat
    = [0; 0x1.0c152382d7365p+1; 0x1.0c152382d7365p+2] /\
  map (fun i => angleOf i 3 / Math_PI * 180) [0; 1; 2]%nat = [0; 120; 240].
Proof.
  split; vm_compute; reflexivity.
Qed.

(** Five identical vectors through the pipeline: with no perplexity
    configured, and with the interface's 30, tsne-js is constructed with
    perplexity [1], and the promise resolves. *)
Lemma five_vectors_perplexity (configured : option number) :
  configured = None \/ configured = Some 30 ->
  exists result w' rest,
    reduceDimensions sampleEnv five (config_of method_tsne D2 configured) world0
      = (Resolved result, w') /\
    trace w' =
      TSNE_new {| dim := D2; opt_perplexity := 1; earlyExaggeration := 4;
                  learningRate := 100; nIter := 500; metric := "euclidean" |} :: rest.
Proof.
  intros [-> | ->]; do 3 eexists; split; vm_compute; reflexivity.
Qed.

Lemma sampleEnv_never_throws : tsne_never_throws sampleEnv.
Proof.
  unfold tsne_never_throws. simpl. eauto 10.
Qed.

Lemma performTSNE_resolves_witness :
  exists layout w',
    performTSNE sampleEnv (map embedding five) D2 30 world0 = (Ok (Resolved layout), w').
Proof.
  exact (@performTSNE_resolves sampleEnv (map embedding five) D2 30 world0
           sampleEnv_never_throws).
Defined.

(** Three vectors, with the cosines and sines of the engines: the points
    at 0, 120 and 240 degrees of the unit circle. *)
Lemma performTSNE_small_input_witness :
  performTSNE trigEnv [[1; 0]; [0; 1]; [1; 1]] D2 30 world0 =
    (Ok (Resolved [ [1; 0];
                    [-0.4999999999999998; 0.8660254037844387];
                    [-0.5000000000000004; -0.8660254037844384] ]), world0) /\
  evenAngles 3 = [0; 0x1.0c152382d7365p+1; 0x1.0c152382d7365p+2] /\
  map (fun angle => angle / 0x1.921fb54442d18p+1 * 180) (evenAngles 3) = [0; 120; 240].
Proof.
  destruct (@performTSNE_small_input trigEnv [[1; 0]; [0; 1]; [1; 1]] 30 world0)
    as (Hrun & Hangles & Hdegrees).
  - simpl. lia.
  - split; [exact Hrun|]. split; [exact Hangles|]. apply Hdegrees. reflexivity.
Defined.

Lemma performTSNE_effective_perplexity_witness :
  exists options rest,
    trace (snd (performTSNE sampleEnv (repeat [1; 2; 3] 5) D2 30 world0))
      = (trace world0 ++ TSNE_new options :: rest)%list /\
    existsb is_TSNE_new rest = false /\
    opt_perplexity options = Math_min 30 (Math_floor ((of_nat 5 - 1) / 3)) /\
    (5%nat = 5%nat ->
     opt_perplexity options = Math_min 30 1 /\
     ((1 <=? 30) = true -> opt_perplexity options = 1)).
Proof.
  apply (@performTSNE_effective_perplexity sampleEnv (repeat [1; 2; 3] 5) D2 30 world0).
  simpl. lia.
Defined.

(** ** Clustering *)

Section ClusterFacts.

Lemma Permutation_filter {A : Type} (f : A -> bool) (l l' : list A) :
  Permutation l l' -> Permutation (filter f l) (filter f l').
Proof.
  induction 1 as [|a l l' _ IH|a b l|l l' l'' _ IH1 _ IH2]; simpl.
  - constructor.
  - destruct (f a); [constructor|]; exact IH.
  - destruct (f a), (f b); try apply Permutation_refl. constructor.
  - eapply Permutation_trans; eassumption.
Qed.

Lemma inserts_middle {A : Type} (x : A) (l1 l2 : list A) :
  In (l1 ++ x :: l2)%list (inserts x (l1 ++ l2)%list).
Proof.
  induction l1 as [|y l1 IH]; simpl.
  - destruct l2; simpl; auto.
  - right. apply in_map. exact IH.
Qed.

(** [perms l] holds every permutation of [l]. *)
Lemma perms_complete {A : Type} (l : list A) :
  forall l', Permutation l l' -> In l' (perms l).
Proof.
  induction l as [|x l IH]; intros l' Hperm; simpl.
  - apply Permutation_nil in Hperm. subst. simpl. auto.
  - assert (Hin : In x l') by (eapply Permutation_in; [exact Hperm | simpl; auto]).
    apply in_split in Hin. destruct Hin as (l1 & l2 & ->).
    apply Permutation_cons_app_inv in Hperm.
    apply in_flat_map. exists (l1 ++ l2)%list. split.
    + apply IH. exact Hperm.
    + apply inserts_middle.
Qed.

Lemma NoDup_app_disjoint {A : Type} (l1 l2 : list A) (x : A) :
  NoDup (l1 ++ l2) -> In x l1 -> ~ In x l2.
Proof.
  induction l1 as [|y l1 IH]; simpl; intros Hnd Hin; [contradiction|].
  inversion Hnd as [|? ? Hy Hnd']; subst.
  destruct Hin as [-> | Hin].
  - intros Hx. apply Hy. apply in_or_app. right. exact Hx.
  - apply IH; assumption.
Qed.

(** Lists whose concatenation repeats nothing are pairwise disjoint. *)
Lemma NoDup_concat_disjoint (parts : list (list string)) :
  NoDup (concat parts) -> ForallOrdPairs disjoint parts.
Proof.
  induction parts as [|part parts IH]; simpl; intros Hnd.
  - constructor.
  - constructor.
    + apply Forall_forall. intros other Hother s Hs Hs'.
      eapply NoDup_app_disjoint; [exact Hnd | exact Hs |].
      apply in_concat. exists other. split; assumption.
    + apply IH. eapply NoDup_app_remove_l. exact Hnd.
Qed.

Lemma quadrantIndex_cases (xMedian yMedian : option number) (p : Point.t) :
  quadrantIndex xMedian yMedian p = 0%nat \/ quadrantIndex xMedian yMedian p = 1%nat \/
  quadrantIndex xMedian yMedian p = 2%nat \/ quadrantIndex xMedian yMedian p = 3%nat.
Proof.
  unfold quadrantIndex.
  destruct (js_ge (Point.x p) xMedian && js_ge (Point.y p) yMedian); auto.
  destruct (js_lt (Point.x p) xMedian && js_ge (Point.y p) yMedian); auto.
  destruct (js_ge (Point.x p) xMedian && js_lt (Point.y p) yMedian); auto.
Qed.

(** The [forEach] over the points leaves in each quadrant, after what it
    held, the points of that quadrant in input order. *)
Lemma fold_push (xMedian yMedian : option number) (reducedData : list Point.t) :
  forall l0 l1 l2 l3,
    fold_left (fun qs point => push (quadrantIndex xMedian yMedian point) point qs)
      reducedData (quadrantsWith l0 l1 l2 l3)
    = quadrantsWith (l0 ++ quadrantPoints xMedian yMedian reducedData 0)
                    (l1 ++ quadrantPoints xMedian yMedian reducedData 1)
                    (l2 ++ quadrantPoints xMedian yMedian reducedData 2)
                    (l3 ++ quadrantPoints xMedian yMedian reducedData 3).
Proof.
  unfold quadrantPoints, quadrantsWith.
  induction reducedData as [|p ps IH]; intros l0 l1 l2 l3; simpl.
  - rewrite !app_nil_r. reflexivity.
  - destruct (quadrantIndex_cases xMedian yMedian p) as [H|[H|[H|H]]];
      rewrite H; simpl; rewrite IH, <- ?app_assoc; reflexivity.
Qed.

(** With at least two points, the clusters are those of the four quadrants
    filled with the points on their side of the medians. *)
Lemma performSimpleClustering_quadrants (reducedData : list Point.t)
  (originalData : list EmbeddingData) :
  (2 <= length reducedData)%nat ->
  performSimpleClustering reducedData originalData =
    flat_map clusterOf
      (quadrantsWith
         (quadrantPoints (xMedianOf reducedData) (yMedianOf reducedData) reducedData 0)
         (quadrantPoints (xMedianOf reducedData) (yMedianOf reducedData) reducedData 1)
         (quadrantPoints (xMedianOf reducedData) (yMedianOf reducedData) reducedData 2)
         (quadrantPoints (xMedianOf reducedData) (yMedianOf reducedData) reducedData 3)).
Proof.
  intros Hlen. unfold performSimpleClustering.
  apply Nat.ltb_ge in Hlen. rewrite Hlen.
  f_equal.
  exact (fold_push (xMedianOf reducedData) (yMedianOf reducedData) reducedData [] [] [] []).
Qed.

(** Every point is in one of the four quadrants, once. *)
Lemma quadrants_cover (xMedian yMedian : option number) (reducedData : list Point.t) :
  Permutation
    (quadrantPoints xMedian yMedian reducedData 0
       ++ quadrantPoints xMedian yMedian reducedData 1
       ++ quadrantPoints xMedian yMedian reducedData 2
       ++ quadrantPoints xMedian yMedian reducedData 3)
    reducedData.
Proof.
  unfold quadrantPoints.
  induction reducedData as [|p ps IH]; simpl.
  - constructor.
  - destruct (quadrantIndex_cases xMedian yMedian p) as [H|[H|[H|H]]];
      rewrite H; simpl.
    + constructor. exact IH.
    + apply Permutation_sym, Permutation_cons_app, Permutation_sym. exact IH.
    + rewrite app_assoc.
      apply Permutation_sym, Permutation_cons_app, Permutation_sym.
      rewrite <- app_assoc. exact IH.
    + rewrite 2 app_assoc.
      apply Permutation_sym, Permutation_cons_app, Permutation_sym.
      rewrite <- 2 app_assoc. exact IH.
Qed.

(** A quadrant contributes the labels of its points, as one member list if
    it has any. *)
Lemma clusterOf_sentences (q : Quadrant) :
  concat (map sentences (clusterOf q)) = map Point.label (points q).
Proof.
  unfold clusterOf. destruct (points q) as [|p ps]; simpl.
  - reflexivity.
  - rewrite app_nil_r. reflexivity.
Qed.

Lemma clusters_sentences (qs : list Quadrant) :
  concat (map sentences (flat_map clusterOf qs))
    = map Point.label (flat_map points qs).
Proof.
  induction qs as [|q qs IH]; simpl.
  - reflexivity.
  - rewrite !map_app, concat_app, clusterOf_sentences, IH. reflexivity.
Qed.

Lemma clusterOf_nonempty (q : Quadrant) (c : ClusterInfo) :
  In c (clusterOf q) -> sentences c <> [].
Proof.
  unfold clusterOf. destruct (points q) as [|p ps]; simpl.
  - contradiction.
  - intros [<- | []]. discriminate.
Qed.

(** Every centroid is the pair [[centroidX, centroidY]]. *)
Lemma clusterOf_centroid (q : Quadrant) (c : ClusterInfo) :
  In c (clusterOf q) -> length (centroid c) = 2%nat.
Proof.
  unfold clusterOf. destruct (0 <? length (points q))%nat; simpl.
  - intros [<- | []]. reflexivity.
  - contradiction.
Qed.

Lemma performSimpleClustering_centroids (reducedData : list Point.t)
  (originalData : list EmbeddingData) :
  Forall (fun c => length (centroid c) = 2%nat)
    (performSimpleClustering reducedData originalData).
Proof.
  unfold performSimpleClustering.
  destruct (length reducedData <? 2)%nat; [constructor|].
  apply Forall_forall. intros c Hc.
  apply in_flat_map in Hc. destruct Hc as (q & _ & Hc).
  eapply clusterOf_centroid. exact Hc.
Qed.

(** C10. For at least 2 labeled points, the clusters partition the input
    points: their member lists, concatenated, are the input labels
    rearranged, so every point's label sits in one member list; no emitted
    cluster is empty; and when the input labels are pairwise distinct the
    member lists are pairwise disjoint. *)
Theorem clusters_partition_points (reducedData : list Point.t)
  (originalData : list EmbeddingData) :
  (2 <= length reducedData)%nat ->
  Permutation
    (concat (map sentences (performSimpleClustering reducedData originalData)))
    (map Point.label reducedData) /\
  Forall (fun members => members <> [])
    (map sentences (performSimpleClustering reducedData originalData)) /\
  (NoDup (map Point.label reducedData) ->
   ForallOrdPairs disjoint
     (map sentences (performSimpleClustering reducedData originalData))).
Proof.
  intros Hlen.
  assert (Hperm : Permutation
            (concat (map sentences (performSimpleClustering reducedData originalData)))
            (map Point.label reducedData)).
  { rewrite (performSimpleClustering_quadrants _ originalData Hlen), clusters_sentences.
    apply Permutation_map. simpl. rewrite app_nil_r.
    apply quadrants_cover. }
  split; [exact Hperm | split].
  - apply Forall_forall. intros members Hm.
    apply in_map_iff in Hm. destruct Hm as (c & <- & Hc).
    rewrite (performSimpleClustering_quadrants _ originalData Hlen) in Hc.
    apply in_flat_map in Hc. destruct Hc as (q & _ & Hc).
    eapply clusterOf_nonempty. exact Hc.
  - intros Hnd. apply NoDup_concat_disjoint.
    eapply Permutation_NoDup; [apply Permutation_sym; exact Hperm | exact Hnd].
Qed.

End ClusterFacts.

Lemma clusters_partition_points_witness :
  Permutation
    (concat (map sentences
       (performSimpleClustering trio [])))
    ["a"; "b"; "c"] /\
  Forall (fun members => members <> [])
    (map sentences
       (performSimpleClustering trio [])) /\
  (NoDup ["a"; "b"; "c"] ->
   ForallOrdPairs disjoint
     (map sentences
        (performSimpleClustering trio []))).
Proof.
  apply (@clusters_partition_points trio []).
  simpl. lia.
Defined.

(** Counterexample to C10 as the specification words it, by labels: the
    points [(0,0)] and [(1,1)], both labeled ["a"], go to two clusters, and
    ["a"] is a member of both. *)
Lemma clusters_share_a_repeated_label :
  (2 <= length twins)%nat /\
  map sentences (performSimpleClustering twins [])
    = [["a"]; ["a"]] /\
  ~ ForallOrdPairs disjoint
      (map sentences (performSimpleClustering twins [])).
Proof.
  split; [simpl; lia|].
  assert (Heq : map sentences (performSimpleClustering twins [])
                = [["a"]; ["a"]]) by (vm_compute; reflexivity).
  split; [exact Heq|].
  rewrite Heq. intros Hpairs.
  inversion Hpairs as [|? ? Hall _]; subst.
  inversion Hall as [|? ? Hdis _]; subst.
  apply (Hdis "a"); simpl; auto.
Qed.

(** The same happens through the pipeline: a sentence entered twice, laid
    out by the small-input branch of [performTSNE], is a member of two
    clusters. *)
Lemma repeated_sentence_in_two_clusters :
  exists result w',
    reduceDimensions sampleEnv [record "a" [1; 0]; record "a" [1; 0]]
      (config_of method_tsne D2 (Some 30)) world0 = (Resolved result, w') /\
    map sentences (clusters result) = [["a"]; ["a"]].
Proof.
  do 2 eexists. split; vm_compute; reflexivity.
Qed.

(** ** The 2 x 2 grid *)

Section GridFacts.

Variables a b : number.
Hypothesis Hbelow : below a b = true.

Lemma below_facts :
  ((a <? b) = true /\ (b <? b) = false /\ (b <=? b) = true /\ (b <=? a) = false) /\
  ((0 <? b - a) = true /\ (0 <? a - b) = false /\
   (0 <? a - a) = false /\ (0 <? b - b) = false).
Proof.
  unfold below in Hbelow.
  repeat (apply andb_prop in Hbelow; destruct Hbelow as [Hbelow ?]).
  repeat match goal with
         | H : negb _ = true |- _ => apply negb_true_iff in H
         end.
  repeat split; assumption.
Qed.

(** Sorting two copies of [a] and two of [b], in any order, puts the two
    copies of [b] last, so the median, the element at index 2, is [b]. *)
Lemma median_of_two_pairs (values : list (option number)) :
  Permutation [Some a; Some a; Some b; Some b] values ->
  medianOf (sort (fun u v => u - v) values) = Some b.
Proof.
  intros Hperm. apply perms_complete in Hperm.
  destruct below_facts as (_ & Hba & Hab & Haa & Hbb).
  simpl in Hperm.
  repeat (destruct Hperm as [<- | Hperm]);
    [ unfold medianOf, sort; simpl;
      repeat (rewrite ?Hba, ?Hab, ?Haa, ?Hbb; simpl); reflexivity .. | contradiction ].
Qed.

End GridFacts.

Section GridClusters.

Variables x0 x1 y0 y1 : number.
Variables p00 p01 p10 p11 : Point.t.
Hypothesis Hx : (x0 <? x1) = true.
Hypothesis Hy : (y0 <? y1) = true.
Hypothesis Hgrid : gridPoints x0 x1 y0 y1 p00 p01 p10 p11.

(** Against the medians [x1] and [y1], each corner falls in its own
    quadrant: a coordinate equal to the median counts as [>=]. *)
Lemma grid_quadrantIndex :
  quadrantIndex (Some x1) (Some y1) p11 = 0%nat /\
  quadrantIndex (Some x1) (Some y1) p01 = 1%nat /\
  quadrantIndex (Some x1) (Some y1) p10 = 2%nat /\
  quadrantIndex (Some x1) (Some y1) p00 = 3%nat.
Proof.
  destruct Hgrid as ((X00 & Y00) & (X01 & Y01) & (X10 & Y10) & (X11 & Y11)).
  destruct (@below_facts _ _ (Binary64.ltb_below Hx)) as ((Hx1 & Hx2 & Hx3 & Hx4) & _).
  destruct (@below_facts _ _ (Binary64.ltb_below Hy)) as ((Hy1 & Hy2 & Hy3 & Hy4) & _).
  unfold quadrantIndex, js_ge, js_lt.
  rewrite X00, Y00, X01, Y01, X10, Y10, X11, Y11. simpl.
  rewrite Hx1, Hx2, Hx3, Hx4, Hy1, Hy2, Hy3, Hy4. simpl.
  repeat split; reflexivity.
Qed.

Lemma grid_quadrantPoints (reducedData : list Point.t) :
  Permutation [p00; p01; p10; p11] reducedData ->
  quadrantPoints (Some x1) (Some y1) reducedData 0 = [p11] /\
  quadrantPoints (Some x1) (Some y1) reducedData 1 = [p01] /\
  quadrantPoints (Some x1) (Some y1) reducedData 2 = [p10] /\
  quadrantPoints (Some x1) (Some y1) reducedData 3 = [p00].
Proof.
  intros Hperm.
  destruct grid_quadrantIndex as (Q11 & Q01 & Q10 & Q00).
  assert (Hk : forall k,
            Permutation (quadrantPoints (Some x1) (Some y1) [p00; p01; p10; p11] k)
                        (quadrantPoints (Some x1) (Some y1) reducedData k))
    by (intros k; apply Permutation_filter; exact Hperm).
  repeat split; apply Permutation_length_1_inv;
    (eapply Permutation_trans; [|apply Hk]);
    unfold quadrantPoints; simpl; rewrite Q00, Q01, Q10, Q11; simpl;
    apply Permutation_refl.
Qed.

(** C5. Four labeled points on the corners of a grid [{x0, x1} x {y0, y1}]
    with [x0 < x1] and [y0 < y1], given in any order: the medians are [x1]
    and [y1], and the clusterer returns exactly four clusters of one member
    each, the corner [(x1, y1)] in "Top-Right", [(x0, y1)] in "Top-Left",
    [(x1, y0)] in "Bottom-Right" and [(x0, y0)] in "Bottom-Left"; a
    coordinate equal to the median is on the [>=] side on both axes. *)
Theorem grid_gives_four_singleton_clusters
  (reducedData : list Point.t) (originalData : list EmbeddingData) :
  Permutation [p00; p01; p10; p11] reducedData ->
  xMedianOf reducedData = Some x1 /\
  yMedianOf reducedData = Some y1 /\
  map (fun c => (label c, sentences c))
      (performSimpleClustering reducedData originalData)
    = [ ("Top-Right", [Point.label p11]); ("Top-Left", [Point.label p01]);
        ("Bottom-Right", [Point.label p10]); ("Bottom-Left", [Point.label p00]) ].
Proof.
  intros Hperm.
  pose proof Hgrid as ((X00 & Y00) & (X01 & Y01) & (X10 & Y10) & (X11 & Y11)).
  assert (Hxm : xMedianOf reducedData = Some x1).
  { unfold xMedianOf. apply (@median_of_two_pairs _ _ (Binary64.ltb_below Hx)).
    eapply Permutation_trans; [|apply Permutation_map; exact Hperm].
    simpl. rewrite X00, X01, X10, X11. apply Permutation_refl. }
  assert (Hym : yMedianOf reducedData = Some y1).
  { unfold yMedianOf. apply (@median_of_two_pairs _ _ (Binary64.ltb_below Hy)).
    eapply Permutation_trans; [|apply Permutation_map; exact Hperm].
    simpl. rewrite Y00, Y01, Y10, Y11. constructor. constructor. }
  split; [exact Hxm | split; [exact Hym|]].
  assert (Hlen : (2 <= length reducedData)%nat)
    by (rewrite <- (Permutation_length Hperm); simpl; lia).
  rewrite (performSimpleClustering_quadrants _ originalData Hlen), Hxm, Hym.
  destruct (grid_quadrantPoints Hperm) as (-> & -> & -> & ->).
  reflexivity.
Qed.

End GridClusters.

Lemma grid_gives_four_singleton_clusters_witness :
  xMedianOf square = Some 1 /\
  yMedianOf square = Some 1 /\
  map (fun c => (label c, sentences c)) (performSimpleClustering square [])
    = [ ("Top-Right", ["b"]); ("Top-Left", ["c"]);
        ("Bottom-Right", ["d"]); ("Bottom-Left", ["a"]) ].
Proof.
  apply (@grid_gives_four_singleton_clusters 0 1 0 1
           (point 0 0 "a") (point 0 1 "c") (point 1 0 "d") (point 1 1 "b")).
  - vm_compute. reflexivity.
  - vm_compute. reflexivity.
  - unfold gridPoints. simpl. repeat split; reflexivity.
  - unfold square. apply perm_swap.
Defined.

(** ** The pipeline *)

Section PipelineFacts.

Variable E : Env.

Lemma isInvalidInput_reductionFailed (error : thrown) :
  isInvalidInput (reductionFailed error) = false.
Proof.
  destruct error; reflexivity.
Qed.

(** Whatever the [try] block throws leaves [reduceDimensions] wrapped. *)
Lemma try_catch_wraps {A : Type} (body : M A) (w w' : World) (e : thrown) :
  try_catch body (fun error => throw (reductionFailed error)) w = (Throw e, w') ->
  exists error, e = reductionFailed error.
Proof.
  unfold try_catch, throw. destruct (body w) as [[a|error] w1]; intros H.
  - discriminate.
  - injection H as <- _. eauto.
Qed.

(** Formatting throws nothing but the [TypeError]. *)
Lemma formatPoints_throws (embeddingData : list EmbeddingData) (config : VisualizationConfig)
  (rows : list (list number)) :
  forall (i : nat) (w w' : World) (e : thrown),
    mapM_from (formatPoint embeddingData config) rows i w = (Throw e, w') ->
    e = undefinedSentence.
Proof.
  induction rows as [|coords rows IH]; intros i w w' e; simpl.
  - discriminate.
  - unfold bind at 1. unfold formatPoint at 1.
    destruct (nth_error embeddingData i) as [item|]; simpl.
    + unfold bind.
      destruct (mapM_from (formatPoint embeddingData config) rows (S i) w)
        as [[pts|e1] w1] eqn:Hrest; simpl; intros H.
      * discriminate.
      * injection H as <- _. eapply IH. exact Hrest.
    + intros H. injection H as <- _. reflexivity.
Qed.

(** C1. [reduceDimensions] fails with [InvalidInput] exactly when the batch
    is empty or holds an empty vector: a non-empty batch of non-empty
    vectors is never refused as invalid, whether or not the lengths of its
    vectors agree. *)
Theorem reduceDimensions_invalid_input_iff
  (embeddingData : list EmbeddingData) (config : VisualizationConfig) (w : World) :
  (exists e w', reduceDimensions E embeddingData config w = (Rejected e, w')
                /\ isInvalidInput e = true)
  <-> (embeddingData = [] \/ Exists (fun item => embedding item = []) embeddingData).
Proof.
  split.
  - intros (e & w' & Hrun & Hinvalid).
    destruct embeddingData as [|item items] eqn:Hdata; [left; reflexivity | right].
    rewrite <- Hdata in *.
    destruct (existsb (fun emb => (length emb =? 0)%nat) (map embedding embeddingData))
      eqn:Hex.
    { apply existsb_exists in Hex. destruct Hex as (emb & Hin & Hlen).
      apply in_map_iff in Hin. destruct Hin as (it & <- & Hit).
      apply Exists_exists. exists it. split; [exact Hit|].
      destruct (embedding it); [reflexivity | discriminate]. }
    exfalso. unfold reduceDimensions in Hrun. rewrite Hex in Hrun.
    replace (length (map embedding embeddingData) =? 0)%nat with false in Hrun
      by (rewrite Hdata; reflexivity).
    destruct (try_catch (reduce_with E (map embedding embeddingData) config) _ w)
      as [[[[rows var]|]|e0] w1] eqn:Htry.
    + destruct (mapM (formatPoint embeddingData config) rows w1)
        as [[pts|e1] w2] eqn:Hformat.
      * discriminate.
      * injection Hrun as <- _.
        apply formatPoints_throws in Hformat. subst e1. discriminate.
    + discriminate.
    + injection Hrun as <- _.
      apply try_catch_wraps in Htry. destruct Htry as (error & ->).
      rewrite isInvalidInput_reductionFailed in Hinvalid. discriminate.
  - intros [-> | Hempty].
    + exists noEmbeddings, w. split; reflexivity.
    + unfold reduceDimensions.
      destruct (length (map embedding embeddingData) =? 0)%nat.
      * exists noEmbeddings, w. split; reflexivity.
      * replace (existsb (fun emb => (length emb =? 0)%nat) (map embedding embeddingData))
          with true.
        { exists invalidEmbeddings, w. split; reflexivity. }
        symmetry. apply existsb_exists.
        apply Exists_exists in Hempty. destruct Hempty as (item & Hin & Hitem).
        exists (embedding item). split; [apply in_map; exact Hin|].
        rewrite Hitem. reflexivity.
Qed.

(** The sums of the clusterer are left folds from [0]. *)
Lemma reduce_from_fold {A B : Type} (f : B -> A -> B) (l : list A) :
  forall (i : nat) (acc : B),
    reduce_from (fun acc a (_ : nat) => f acc a) l i acc = fold_left f l acc.
Proof.
  induction l as [|a l IH]; intros i acc; simpl; [reflexivity|]. apply IH.
Qed.

Lemma clusterOf_mean (q : Quadrant) (c : ClusterInfo) :
  In c (clusterOf q) ->
  points q <> [] /\
  sentences c = map Point.label (points q) /\
  centroid c = [meanOf Point.x (points q); meanOf Point.y (points q)].
Proof.
  unfold clusterOf. destruct (points q) as [|p ps] eqn:Hpoints.
  - intros [].
  - cbn [length Nat.ltb Nat.leb]. intros [<- | []].
    split; [discriminate|]. split; [reflexivity|].
    cbn [centroid]. unfold meanOf, sumOf, reduce.
    rewrite !(reduce_from_fold (fun sum (p0 : Point.t) => sum + ToNumber (Point.x p0))),
            !(reduce_from_fold (fun sum (p0 : Point.t) => sum + ToNumber (Point.y p0))).
    reflexivity.
Qed.

(** Every cluster is made of points of the input, and its centroid holds
    the mean of their [x] and the mean of their [y]. *)
Lemma performSimpleClustering_means (reducedData : list Point.t)
  (originalData : list EmbeddingData) :
  Forall (fun c =>
            length (centroid c) = 2%nat /\
            exists members,
              members <> [] /\
              (forall p, In p members -> In p reducedData) /\
              sentences c = map Point.label members /\
              centroid c = [meanOf Point.x members; meanOf Point.y members])
         (performSimpleClustering reducedData originalData).
Proof.
  destruct (Nat.ltb_spec (length reducedData) 2) as [Hlt|Hge].
  - unfold performSimpleClustering. apply Nat.ltb_lt in Hlt. rewrite Hlt. constructor.
  - rewrite (@performSimpleClustering_quadrants reducedData originalData Hge).
    apply Forall_forall. intros c Hc.
    apply in_flat_map in Hc. destruct Hc as (q & Hq & Hc).
    destruct (clusterOf_mean q c Hc) as (Hpoints & Hlabels & Hcentroid).
    split; [rewrite Hcentroid; reflexivity|].
    exists (points q). repeat split; auto.
    intros p Hp. unfold quadrantsWith in Hq.
    destruct Hq as [<- | [<- | [<- | [<- | []]]]]; cbn [points] in Hp;
      unfold quadrantPoints in Hp; apply filter_In in Hp; apply Hp.
Qed.

(** C3. Every cluster of a resolved analysis has a centroid of exactly two
    coordinates, for [dimensions = 2] and for [dimensions = 3] alike: the
    cluster is made of points of the result, its member labels are their
    labels, and the two coordinates are the mean of their [x] and the mean
    of their [y]. *)
Theorem cluster_centroids_have_two_coordinates
  (embeddingData : list EmbeddingData) (config : VisualizationConfig)
  (w w' : World) (result : ProcessedEmbeddings) :
  reduceDimensions E embeddingData config w = (Resolved result, w') ->
  Forall (fun c =>
            length (centroid c) = 2%nat /\
            exists members,
              members <> [] /\
              (forall p, In p members -> In p (reduced result)) /\
              sentences c = map Point.label members /\
              centroid c = [meanOf Point.x members; meanOf Point.y members])
         (clusters result).
Proof.
  unfold reduceDimensions.
  destruct (length (map embedding embeddingData) =? 0)%nat; [discriminate|].
  destruct (existsb _ _); [discriminate|].
  destruct (try_catch _ _ w) as [[[[rows var]|]|e0] w1]; try discriminate.
  destruct (mapM _ rows w1) as [[pts|e1] w2]; [|discriminate].
  intros H. injection H as <- _. cbn [clusters reduced].
  apply performSimpleClustering_means.
Qed.

End PipelineFacts.

Lemma cluster_centroids_have_two_coordinates_witness :
  exists result w',
    reduceDimensions sampleEnv cloud (config_of method_pca D3 None) world0
      = (Resolved result, w') /\
    map (fun c => (sentences c, centroid c)) (clusters result)
      = [(["a"; "b"], [2; 2]); (["c"], [0; 0])] /\
    Forall (fun c =>
              length (centroid c) = 2%nat /\
              exists members,
                members <> [] /\
                (forall p, In p members -> In p (reduced result)) /\
                sentences c = map Point.label members /\
                centroid c = [meanOf Point.x members; meanOf Point.y members])
           (clusters result).
Proof.
  assert (Hrun : exists result w',
            reduceDimensions sampleEnv cloud (config_of method_pca D3 None) world0
              = (Resolved result, w') /\
            map (fun c => (sentences c, centroid c)) (clusters result)
              = [(["a"; "b"], [2; 2]); (["c"], [0; 0])])
    by (eexists; eexists; split; vm_compute; reflexivity).
  destruct Hrun as (result & w' & Hrun & Hcentroids).
  exists result, w'. split; [exact Hrun|]. split; [exact Hcentroids|].
  exact (@cluster_centroids_have_two_coordinates sampleEnv cloud _ world0 w' result Hrun).
Defined.

(** Counterexample to C1 as the specification words it: the batch [ragged]
    is not empty, its two vectors are not empty and their lengths are 1 and
    2, and the analysis resolves with either method. *)
Lemma reduceDimensions_accepts_mismatched_lengths :
  ragged <> [] /\
  Forall (fun item => embedding item <> []) ragged /\
  (exists item1 item2, In item1 ragged /\ In item2 ragged /\
     length (embedding item1) <> length (embedding item2)) /\
  (exists result w',
     reduceDimensions sampleEnv ragged (config_of method_tsne D2 (Some 30)) world0
       = (Resolved result, w')) /\
  (exists result w',
     reduceDimensions sampleEnv ragged (config_of method_pca D2 None) world0
       = (Resolved result, w')).
Proof.
  split; [discriminate|].
  split; [repeat constructor; discriminate|].
  split.
  - exists (record "a" [1]), (record "b" [1; 2]). simpl. repeat split; auto.
  - split; eexists; eexists; vm_compute; reflexivity.
Qed.

(** Counterexample to C3 as the specification words it, for
    [dimensions = 3]: the analysis of [uniform] resolves with two clusters,
    and their centroids have two coordinates, not three. *)
Lemma centroids_are_not_three_dimensional :
  exists result w',
    reduceDimensions sampleEnv uniform (config_of method_tsne D3 (Some 30)) world0
      = (Resolved result, w') /\
    map (fun c => length (centroid c)) (clusters result) = [2%nat; 2%nat] /\
    Exists (fun c => length (centroid c) <> dim_nat D3) (clusters result).
Proof.
  eexists; eexists. split; [vm_compute; reflexivity|].
  split; [reflexivity|].
  apply Exists_cons_hd. simpl. discriminate.
Qed.

(** ** More binary64 arithmetic

    Commutativity of the product, the symmetry of [|a - b|], [x - x] on
    finite numbers, and the transitivity of the order. *)

Module Binary64Algebra.

Lemma SFmul_comm (x y : spec_float) : SF64mul x y = SF64mul y x.
Proof.
  unfold SF64mul.
  destruct x as [sx|sx| |sx mx ex], y as [sy|sy| |sy my ey]; simpl;
    rewrite ?(xorb_comm sx sy); try reflexivity.
  rewrite (Pos.mul_comm mx my), (Z.add_comm ex ey). reflexivity.
Qed.

Lemma mul_comm (x y : float) : x * y = y * x.
Proof.
  apply Prim2SF_inj. rewrite !mul_spec. apply SFmul_comm.
Qed.

Lemma binary_round_aux_abs (s : bool) (m e : Z) (l : location) :
  SFabs (binary_round_aux prec emax s m e l)
    = SFabs (binary_round_aux prec emax false m e l).
Proof.
  unfold binary_round_aux.
  destruct (shr_fexp prec emax m e l) as [mrs1 e1].
  destruct (shr_fexp prec emax _ e1 loc_Exact) as [mrs2 e2].
  destruct (shr_m mrs2); try reflexivity.
  destruct (e2 <=? _)%Z; reflexivity.
Qed.

Lemma binary_normalize_opp_abs (d e : Z) :
  SFabs (binary_normalize prec emax (- d) e false)
    = SFabs (binary_normalize prec emax d e false).
Proof.
  destruct d as [|p|p]; simpl; try reflexivity; unfold binary_round;
    destruct (shl_align _ _ _) as [mz ez];
    rewrite (binary_round_aux_abs true); reflexivity.
Qed.

Lemma SFsub_abs_sym (x y : spec_float) : SFabs (SF64sub x y) = SFabs (SF64sub y x).
Proof.
  unfold SF64sub.
  destruct x as [sx|sx| |sx mx ex], y as [sy|sy| |sy my ey]; simpl;
    try (destruct sx, sy; reflexivity); try reflexivity.
  rewrite (Z.min_comm ey ex), <- binary_normalize_opp_abs.
  f_equal. f_equal. lia.
Qed.

Lemma SFmul_square_abs (x y : spec_float) :
  SFabs x = SFabs y -> SF64mul x x = SF64mul y y.
Proof.
  unfold SF64mul.
  destruct x as [sx|sx| |sx mx ex], y as [sy|sy| |sy my ey]; simpl;
    intros H; try discriminate; try reflexivity;
    rewrite ?xorb_nilpotent; try reflexivity.
  injection H as -> ->. reflexivity.
Qed.

Lemma sub_square_sym (a b : float) : (a - b) * (a - b) = (b - a) * (b - a).
Proof.
  apply Prim2SF_inj. rewrite !mul_spec, !sub_spec.
  apply SFmul_square_abs, SFsub_abs_sym.
Qed.

Lemma abs_sub_sym (a b : float) : abs (a - b) = abs (b - a).
Proof.
  apply Prim2SF_inj. rewrite !abs_spec, !sub_spec. apply SFsub_abs_sym.
Qed.

Lemma isFinite_spec (v : float) :
  isFinite v = true ->
  match Prim2SF v with
  | S754_zero _ | S754_finite _ _ _ => True
  | _ => False
  end.
Proof.
  unfold isFinite. rewrite ltb_spec, abs_spec.
  change (Prim2SF infinity) with (S754_infinity false).
  destruct (Prim2SF v) as [s|s| |s m e]; simpl; try discriminate; auto.
Qed.

Lemma sub_diag_finite (v : float) : isFinite v = true -> v - v = 0.
Proof.
  intros H. apply isFinite_spec in H.
  apply Prim2SF_inj. rewrite sub_spec.
  change (Prim2SF 0) with (S754_zero false).
  destruct (Prim2SF v) as [s|s| |s m e]; try contradiction.
  - destruct s; reflexivity.
  - unfold SF64sub, SFsub. rewrite Z.sub_diag. reflexivity.
Qed.

End Binary64Algebra.

Module Binary64Order.

Ltac fold_compare :=
  repeat match goal with
  | H : context [Pos.compare_cont Eq ?a ?b] |- _ =>
      change (Pos.compare_cont Eq a b) with (a ?= b)%positive in H
  | |- context [Pos.compare_cont Eq ?a ?b] =>
      change (Pos.compare_cont Eq a b) with (a ?= b)%positive
  end.

Ltac compare_cases :=
  fold_compare;
  repeat match goal with
  | H : context [(?a ?= ?b)%Z] |- _ => destruct (Z.compare_spec a b); subst
  | H : context [(?a ?= ?b)%positive] |- _ => destruct (Pos.compare_spec a b); subst
  end.

Ltac close_case :=
  cbn [SFcompare CompOpp] in *; try discriminate; compare_cases;
  cbn [SFcompare CompOpp] in *; try discriminate;
  repeat match goal with
  | |- context [(?a ?= ?b)%Z] => destruct (Z.compare_spec a b); subst
  | |- context [(?a ?= ?b)%positive] => destruct (Pos.compare_spec a b); subst
  end; cbn [CompOpp]; auto; try discriminate; try lia.

Lemma SFle_trans (x y z : spec_float) : SFle x y -> SFle y z -> SFle x z.
Proof.
  unfold SFle. intros Hxy Hyz.
  destruct x as [[]|[]| |[] ? ?], y as [[]|[]| |[] ? ?], z as [[]|[]| |[] ? ?];
    destruct Hxy as [Hxy|Hxy], Hyz as [Hyz|Hyz]; close_case.
Qed.

Lemma SFlt_trans (x y z : spec_float) : SFlt x y -> SFlt y z -> SFlt x z.
Proof.
  unfold SFlt. intros Hxy Hyz.
  destruct x as [[]|[]| |[] ? ?], y as [[]|[]| |[] ? ?], z as [[]|[]| |[] ? ?];
    close_case.
Qed.

Lemma leb_SFle (x y : float) : (x <=? y) = true <-> SFle (Prim2SF x) (Prim2SF y).
Proof.
  rewrite leb_spec. unfold SFleb, SFle.
  destruct (SFcompare _ _) as [[]|]; intuition discriminate.
Qed.

Lemma ltb_SFlt (x y : float) : (x <? y) = true <-> SFlt (Prim2SF x) (Prim2SF y).
Proof.
  rewrite ltb_spec. unfold SFltb, SFlt.
  destruct (SFcompare _ _) as [[]|]; intuition discriminate.
Qed.

Lemma leb_trans (x y z : float) :
  (x <=? y) = true -> (y <=? z) = true -> (x <=? z) = true.
Proof. rewrite !leb_SFle. apply SFle_trans. Qed.

Lemma ltb_trans (x y z : float) :
  (x <? y) = true -> (y <? z) = true -> (x <? z) = true.
Proof. rewrite !ltb_SFlt. apply SFlt_trans. Qed.

End Binary64Order.

(** ** Loops over pairs *)

Section PairLoops.

Variables A S : Type.
Variable body : S -> A -> A -> Result S.
Variable R : A -> A -> Prop.
Variable err : thrown.

Hypothesis body_ok : forall st x y, R x y -> exists st', body st x y = Ok st'.
Hypothesis body_throws : forall st x y, ~ R x y -> body st x y = Throw err.
Hypothesis R_dec : forall x y, {R x y} + {~ R x y}.

Lemma forLater_ok (x : A) (later : list A) :
  Forall (R x) later -> forall st, exists st', forLater body x later st = Ok st'.
Proof.
  induction 1 as [|y later Hy _ IH]; intros st; simpl.
  - eauto.
  - destruct (body_ok st Hy) as [st' ->]. apply IH.
Qed.

Lemma forLater_throws (x : A) (later : list A) :
  ~ Forall (R x) later -> forall st, forLater body x later st = Throw err.
Proof.
  induction later as [|y later IH]; intros Hnot st; simpl.
  - exfalso. apply Hnot. constructor.
  - destruct (R_dec x y) as [Hy|Hy].
    + destruct (body_ok st Hy) as [st' ->]. apply IH.
      intros Hall. apply Hnot. constructor; assumption.
    + rewrite (body_throws st Hy). reflexivity.
Qed.

Lemma forPairs_ok (l : list A) :
  ForallOrdPairs R l -> forall st, exists st', forPairs body l st = Ok st'.
Proof.
  induction 1 as [|x later Hx _ IH]; intros st; simpl.
  - eauto.
  - destruct (forLater_ok Hx st) as [st' ->]. apply IH.
Qed.

Lemma forPairs_throws (l : list A) :
  ~ ForallOrdPairs R l -> forall st, forPairs body l st = Throw err.
Proof.
  induction l as [|x later IH]; intros Hnot st; simpl.
  - exfalso. apply Hnot. constructor.
  - destruct (Forall_dec (R x) (R_dec x) later) as [Hx|Hx].
    + destruct (forLater_ok Hx st) as [st' ->]. apply IH.
      intros Hall. apply Hnot. constructor; assumption.
    + rewrite (forLater_throws Hx st). reflexivity.
Qed.

End PairLoops.

Section PairFolds.

Variables A S : Type.
Variable body : S -> A -> A -> Result S.
Variable R : A -> A -> Prop.
Variable next : S -> A -> A -> S.

Hypothesis body_next : forall st x y, R x y -> body st x y = Ok (next st x y).

Lemma forLater_fold (x : A) (later : list A) :
  Forall (R x) later ->
  forall st,
    forLater body x later st
      = Ok (fold_left (fun st p => next st (fst p) (snd p))
                      (map (fun u => (x, u)) later) st).
Proof.
  induction 1 as [|y later Hy _ IH]; intros st; simpl.
  - reflexivity.
  - rewrite (body_next st Hy). apply IH.
Qed.

Lemma forPairs_fold (l : list A) :
  ForallOrdPairs R l ->
  forall st,
    forPairs body l st
      = Ok (fold_left (fun st p => next st (fst p) (snd p)) (pairsOf l) st).
Proof.
  induction 1 as [|x later Hx _ IH]; intros st; simpl.
  - reflexivity.
  - rewrite (forLater_fold Hx st), fold_left_app. apply IH.
Qed.

End PairFolds.

Lemma ordered_pairs_decidable {A : Type} (R : A -> A -> Prop) (l : list A) :
  (forall x y, {R x y} + {~ R x y}) ->
  ForallOrdPairs R l \/ ~ ForallOrdPairs R l.
Proof.
  intros R_dec. induction l as [|x l [IH|IH]].
  - left. constructor.
  - destruct (Forall_dec (R x) (R_dec x) l) as [Hx|Hx].
    + left. constructor; assumption.
    + right. intros H. inversion H; subst. contradiction.
  - right. intros H. inversion H; subst. contradiction.
Qed.

Lemma pairsOf_length {A : Type} (l : list A) :
  (2 * length (pairsOf l) = length l * (length l - 1))%nat.
Proof.
  induction l as [|x l IH]; simpl; [reflexivity|].
  rewrite length_app, length_map. nia.
Qed.

Lemma pairsOf_count {A : Type} (l : list A) :
  length (pairsOf l) = (length l * (length l - 1) / 2)%nat.
Proof.
  rewrite <- pairsOf_length, Nat.mul_comm, Nat.div_mul by discriminate. reflexivity.
Qed.

Lemma pairsOf_map {A B : Type} (f : A -> B) (l : list A) :
  pairsOf (map f l) = map (fun p => (f (fst p), f (snd p))) (pairsOf l).
Proof.
  induction l as [|x l IH]; simpl; [reflexivity|].
  rewrite map_app, !map_map, IH. reflexivity.
Qed.

Lemma Forall_ordered_pairs {A : Type} (R : A -> A -> Prop) (P : A -> Prop) (l : list A) :
  (forall x y, P x -> P y -> R x y) -> Forall P l -> ForallOrdPairs R l.
Proof.
  intros HR. induction 1 as [|x l Hx Hl IH]; constructor; auto.
  apply Forall_impl with (P := P); auto.
Qed.

(** ** The similarity metrics *)

Section ComparisonFacts.

Import Similarity Comparison.

(** A [reduce] over [a] that reads [b[i]] walks the two arrays together. *)
Lemma reduce_from_zip (f : number -> number -> number -> number) (a : list number) :
  forall (b pre : list number) (acc : number),
    length a = length b ->
    reduce_from (fun sum val i => f sum val (ToNumber (nth_error (pre ++ b)%list i)))
                a (length pre) acc
      = fold_left (fun sum p => f sum (fst p) (snd p)) (combine a b) acc.
Proof.
  induction a as [|x a IH]; intros [|y b] pre acc Hlen; simpl in *;
    try discriminate; auto.
  rewrite nth_error_app2 by lia. rewrite Nat.sub_diag. simpl.
  specialize (IH b (pre ++ [y])%list (f acc x y)).
  rewrite <- app_assoc in IH. simpl in IH.
  rewrite length_app in IH. simpl in IH. rewrite Nat.add_1_r in IH.
  apply IH. lia.
Qed.

Lemma reduce_zip (f : number -> number -> number -> number) (a b : list number)
  (init : number) :
  length a = length b ->
  reduce (fun sum val i => f sum val (ToNumber (nth_error b i))) a init
    = fold_left (fun sum p => f sum (fst p) (snd p)) (combine a b) init.
Proof.
  intros Hlen. apply (@reduce_from_zip f a b [] init Hlen).
Qed.

Lemma fold_zip_swap (f g : number -> number -> number -> number) :
  (forall s u v, f s u v = g s v u) ->
  forall (a b : list number) (acc : number),
    fold_left (fun sum p => f sum (fst p) (snd p)) (combine a b) acc
      = fold_left (fun sum p => g sum (fst p) (snd p)) (combine b a) acc.
Proof.
  intros Hfg. induction a as [|x a IH]; intros [|y b] acc; simpl; auto.
  rewrite Hfg. apply IH.
Qed.

Lemma reduce_swap (f g : number -> number -> number -> number) (a b : list number)
  (init : number) :
  (forall s u v, f s u v = g s v u) ->
  length a = length b ->
  reduce (fun sum val i => f sum val (ToNumber (nth_error b i))) a init
    = reduce (fun sum val i => g sum val (ToNumber (nth_error a i))) b init.
Proof.
  intros Hfg Hlen.
  rewrite (@reduce_zip f a b init Hlen), (@reduce_zip g b a init (eq_sym Hlen)).
  apply fold_zip_swap, Hfg.
Qed.

Lemma dot_swap (a b : list number) :
  length a = length b ->
  reduce (fun sum val i => sum + val * ToNumber (nth_error b i)) a 0
    = reduce (fun sum val i => sum + val * ToNumber (nth_error a i)) b 0.
Proof.
  apply (@reduce_swap (fun s u v => s + u * v) (fun s u v => s + u * v)).
  intros s u v. rewrite Binary64Algebra.mul_comm. reflexivity.
Qed.

(** Each function decides by the lengths alone whether it throws. *)
Lemma length_test (a b : list number) :
  (length a = length b /\ negb (length a =? length b)%nat = false) \/
  (length a <> length b /\ negb (length a =? length b)%nat = true).
Proof.
  destruct (Nat.eqb_spec (length a) (length b)); simpl; auto.
Qed.

Lemma cosineSimilarity_cases (a b : list number) :
  (length a = length b /\ cosineSimilarity a b = Ok (cosineOf a b)) \/
  (length a <> length b /\ cosineSimilarity a b = Throw lengthMismatch).
Proof.
  unfold cosineOf, cosineSimilarity.
  destruct (length_test a b) as [[Hlen ->]|[Hlen ->]]; [left|right]; split; auto.
  destruct (_ || _); reflexivity.
Qed.

(** Cosine similarity does not depend on the order of its arguments,
    on any two vectors: it fails on both orders or gives the same number. *)
Theorem cosineSimilarity_sym (a b : list number) :
  cosineSimilarity a b = cosineSimilarity b a.
Proof.
  unfold cosineSimilarity. rewrite (Nat.eqb_sym (length b) (length a)).
  destruct (length_test a b) as [[Hlen ->]|[Hlen ->]]; [|reflexivity].
  rewrite (dot_swap a b Hlen), orb_comm, Binary64Algebra.mul_comm. reflexivity.
Qed.

Lemma euclideanDistance_sym (a b : list number) :
  euclideanDistance a b = euclideanDistance b a.
Proof.
  unfold euclideanDistance. rewrite (Nat.eqb_sym (length b) (length a)).
  destruct (length_test a b) as [[Hlen ->]|[Hlen ->]]; [|reflexivity].
  do 2 f_equal.
  apply (@reduce_swap (fun s u v => s + (u - v) * (u - v))
                      (fun s u v => s + (u - v) * (u - v))); [|assumption].
  intros s u v. rewrite Binary64Algebra.sub_square_sym. reflexivity.
Qed.

Lemma manhattanDistance_sym (a b : list number) :
  manhattanDistance a b = manhattanDistance b a.
Proof.
  unfold manhattanDistance. rewrite (Nat.eqb_sym (length b) (length a)).
  destruct (length_test a b) as [[Hlen ->]|[Hlen ->]]; [|reflexivity].
  f_equal.
  apply (@reduce_swap (fun s u v => s + abs (u - v)) (fun s u v => s + abs (u - v)));
    [|assumption].
  intros s u v. rewrite Binary64Algebra.abs_sub_sym. reflexivity.
Qed.

Lemma dotProduct_sym (a b : list number) : dotProduct a b = dotProduct b a.
Proof.
  unfold dotProduct. rewrite (Nat.eqb_sym (length b) (length a)).
  destruct (length_test a b) as [[Hlen ->]|[Hlen ->]]; [|reflexivity].
  f_equal. apply dot_swap, Hlen.
Qed.

(** All four metrics are symmetric: [calculateSimilarityMetrics] gives
    the same record, or the same error, for [(a, b)] and [(b, a)]. *)
Theorem calculateSimilarityMetrics_sym (a b : list number) :
  calculateSimilarityMetrics a b = calculateSimilarityMetrics b a.
Proof.
  unfold calculateSimilarityMetrics.
  assert (Hc : cosineSimilarity a b = cosineSimilarity b a).
  { unfold cosineSimilarity. rewrite (Nat.eqb_sym (length b) (length a)).
    destruct (length_test a b) as [[Hlen ->]|[Hlen ->]]; [|reflexivity].
    rewrite (dot_swap a b Hlen), orb_comm, Binary64Algebra.mul_comm. reflexivity. }
  rewrite Hc, (euclideanDistance_sym a b), (manhattanDistance_sym a b),
    (dotProduct_sym a b).
  reflexivity.
Qed.

Lemma fold_zip_diag (f : number -> number -> number -> number) (a : list number) :
  (forall v, isFinite v = true -> f 0 v v = 0) ->
  Forall (fun v => isFinite v = true) a ->
  fold_left (fun sum p => f sum (fst p) (snd p)) (combine a a) 0 = 0.
Proof.
  intros Hf. induction 1 as [|v a Hv _ IH]; simpl; [reflexivity|].
  rewrite (Hf v Hv). exact IH.
Qed.

Lemma reduce_diag (f : number -> number -> number -> number) (a : list number) :
  (forall v, isFinite v = true -> f 0 v v = 0) ->
  Forall (fun v => isFinite v = true) a ->
  reduce (fun sum val i => f sum val (ToNumber (nth_error a i))) a 0 = 0.
Proof.
  intros Hf Hfin. rewrite (@reduce_zip f a a 0 eq_refl).
  apply fold_zip_diag; assumption.
Qed.

(** The distance from a vector of finite numbers to itself is exactly
    zero, for the Euclidean and for the Manhattan distance. *)
Theorem distance_to_self_is_zero (a : list number) :
  Forall (fun v => isFinite v = true) a ->
  euclideanDistance a a = Ok 0 /\ manhattanDistance a a = Ok 0.
Proof.
  intros Hfin. unfold euclideanDistance, manhattanDistance.
  rewrite Nat.eqb_refl. cbv zeta. cbn [negb]. split.
  - transitivity (Ok (Math_sqrt 0)); [|reflexivity]. do 2 f_equal.
    apply (@reduce_diag (fun s u v => s + (u - v) * (u - v))); [|assumption].
    intros v Hv. rewrite (Binary64Algebra.sub_diag_finite Hv). reflexivity.
  - f_equal.
    apply (@reduce_diag (fun s u v => s + abs (u - v))); [|assumption].
    intros v Hv. rewrite (Binary64Algebra.sub_diag_finite Hv). reflexivity.
Qed.

Lemma calculateSimilarityMetrics_cases (a b : list number) :
  (length a = length b /\ exists m, calculateSimilarityMetrics a b = Ok m /\
     SimilarityMetrics.cosineSimilarity m = cosineOf a b) \/
  (length a <> length b /\ calculateSimilarityMetrics a b = Throw lengthMismatch).
Proof.
  unfold calculateSimilarityMetrics.
  destruct (cosineSimilarity_cases a b) as [[Hlen ->]|[Hlen ->]]; [left|right];
    split; auto.
  unfold euclideanDistance, manhattanDistance, dotProduct.
  destruct (length_test a b) as [[_ ->]|[Hne _]]; [|contradiction].
  eexists. split; reflexivity.
Qed.

Lemma compareSentences_cases (s1 s2 : string) (a b : list number) :
  (length a = length b /\ exists r, compareSentences s1 s2 a b = Ok r /\
     ComparisonResult.sentence1 r = s1 /\ ComparisonResult.sentence2 r = s2) \/
  (length a <> length b /\ compareSentences s1 s2 a b = Throw lengthMismatch).
Proof.
  unfold compareSentences.
  destruct (calculateSimilarityMetrics_cases a b) as [[Hlen [m [-> _]]]|[Hlen ->]];
    [left|right]; split; auto.
  eexists. split; [reflexivity|]. split; reflexivity.
Qed.

(** [compareSentences] succeeds exactly on vectors of one length.  On
    any others it throws the length error of the first metric, and nothing
    else is ever thrown. *)
Theorem compareSentences_ok_iff (s1 s2 : string) (a b : list number) :
  ((exists r, compareSentences s1 s2 a b = Ok r) <-> length a = length b) /\
  (forall e, compareSentences s1 s2 a b = Throw e ->
     e = Error "Vectors must have the same length").
Proof.
  destruct (compareSentences_cases s1 s2 a b) as [[Hlen [r [Hr _]]]|[Hlen Hr]];
    rewrite Hr; split.
  - split; eauto.
  - discriminate.
  - split; [intros [r Habs]; discriminate|contradiction].
  - intros e He. injection He as <-. reflexivity.
Qed.

Lemma level_high_iff (c : number) :
  Interpretation.confidenceLevel (interpretSimilarity c) = level_high
  <-> (0.8 <=? c) = true.
Proof.
  pose proof (@Binary64Order.leb_trans 0.8 0.9 c eq_refl) as H98.
  unfold interpretSimilarity.
  destruct (0.9 <=? c); [simpl; intuition|].
  destruct (0.8 <=? c); [simpl; intuition|].
  destruct (0.7 <=? c); [simpl; intuition discriminate|].
  destruct (0.5 <=? c); [simpl; intuition discriminate|].
  destruct (0.3 <=? c); simpl; intuition discriminate.
Qed.

Lemma level_low_iff (c : number) :
  Interpretation.confidenceLevel (interpretSimilarity c) = level_low
  <-> (0.5 <=? c) = false.
Proof.
  pose proof (@Binary64Order.leb_trans 0.5 0.9 c eq_refl) as H95.
  pose proof (@Binary64Order.leb_trans 0.5 0.8 c eq_refl) as H85.
  pose proof (@Binary64Order.leb_trans 0.5 0.7 c eq_refl) as H75.
  unfold interpretSimilarity.
  destruct (0.9 <=? c); [simpl; rewrite H95 by reflexivity; intuition discriminate|].
  destruct (0.8 <=? c); [simpl; rewrite H85 by reflexivity; intuition discriminate|].
  destruct (0.7 <=? c); [simpl; rewrite H75 by reflexivity; intuition discriminate|].
  destruct (0.5 <=? c); [simpl; intuition discriminate|].
  destruct (0.3 <=? c); simpl; intuition.
Qed.

(** The confidence level is a banding of the cosine similarity: high
    from 0.8 on, low when the similarity is not at least 0.5 (below it,
    or NaN), medium in between. *)
Theorem interpretSimilarity_bands (c : number) :
  (Interpretation.confidenceLevel (interpretSimilarity c) = level_high
     <-> (0.8 <=? c) = true) /\
  (Interpretation.confidenceLevel (interpretSimilarity c) = level_medium
     <-> (0.5 <=? c) = true /\ (0.8 <=? c) = false) /\
  (Interpretation.confidenceLevel (interpretSimilarity c) = level_low
     <-> (0.5 <=? c) = false).
Proof.
  pose proof (level_high_iff c) as Hh. pose proof (level_low_iff c) as Hl.
  split; [exact Hh|]. split; [|exact Hl].
  destruct (Interpretation.confidenceLevel (interpretSimilarity c));
    destruct (0.8 <=? c), (0.5 <=? c); intuition discriminate.
Qed.

(** A higher cosine similarity never gets a lower confidence level. *)
Theorem interpretSimilarity_monotone (c1 c2 : number) :
  (c1 <=? c2) = true ->
  (levelRank (Interpretation.confidenceLevel (interpretSimilarity c1))
   <= levelRank (Interpretation.confidenceLevel (interpretSimilarity c2)))%nat.
Proof.
  intros Hle.
  pose proof (level_high_iff c1) as Hh1. pose proof (level_low_iff c1) as Hl1.
  pose proof (level_high_iff c2) as Hh2. pose proof (level_low_iff c2) as Hl2.
  pose proof (fun H => @Binary64Order.leb_trans 0.8 c1 c2 H Hle) as H8.
  pose proof (fun H => @Binary64Order.leb_trans 0.5 c1 c2 H Hle) as H5.
  destruct (Interpretation.confidenceLevel (interpretSimilarity c1)),
           (Interpretation.confidenceLevel (interpretSimilarity c2));
    simpl; try lia; exfalso.
  - destruct Hh1 as [Hh1 _]. specialize (Hh1 eq_refl). apply H8 in Hh1.
    apply Hh2 in Hh1. discriminate.
  - destruct Hh1 as [Hh1 _]. specialize (Hh1 eq_refl). apply H8 in Hh1.
    apply Hh2 in Hh1. discriminate.
  - destruct Hl2 as [Hl2 _]. specialize (Hl2 eq_refl).
    destruct (0.5 <=? c1) eqn:H51.
    + rewrite (H5 eq_refl) in Hl2. discriminate.
    + destruct Hl1 as [_ Hl1]. specialize (Hl1 eq_refl). discriminate.
Qed.

End ComparisonFacts.

Lemma distance_to_self_is_zero_witness :
  Comparison.euclideanDistance [1; -2.5; 0] [1; -2.5; 0] = Ok 0 /\
  Comparison.manhattanDistance [1; -2.5; 0] [1; -2.5; 0] = Ok 0.
Proof.
  apply (@distance_to_self_is_zero [1; -2.5; 0]).
  constructor; [reflexivity|]. constructor; [reflexivity|].
  constructor; [reflexivity|]. constructor.
Defined.

Lemma interpretSimilarity_monotone_witness :
  (levelRank (Interpretation.confidenceLevel (Comparison.interpretSimilarity 0.6%float))
   <= levelRank (Interpretation.confidenceLevel (Comparison.interpretSimilarity 0.85%float)))%nat.
Proof.
  apply (@interpretSimilarity_monotone 0.6 0.85). reflexivity.
Defined.

(** ** The most similar sentence *)

Section SearchFacts.

Import Similarity.

Variable targetSentence : string.
Variable targetEmbedding : list number.

Lemma scanCandidate_cases (st : number * string) (c : EmbeddingData) :
  (sentence c = targetSentence /\
   scanCandidate targetSentence targetEmbedding st c = Ok st) \/
  (sentence c <> targetSentence /\
   length targetEmbedding = length (embedding c) /\
   scanCandidate targetSentence targetEmbedding st c
     = Ok (if fst st <? cosineOf targetEmbedding (embedding c)
           then (cosineOf targetEmbedding (embedding c), sentence c)
           else st)) \/
  (mismatched targetSentence targetEmbedding c /\
   scanCandidate targetSentence targetEmbedding st c = Throw lengthMismatch).
Proof.
  unfold scanCandidate, mismatched. destruct st as [maxSimilarity mostSimilar].
  destruct (String.eqb_spec (sentence c) targetSentence) as [Heq|Hne]; simpl.
  - left. auto.
  - right.
    destruct (cosineSimilarity_cases targetEmbedding (embedding c))
      as [[Hlen ->]|[Hlen ->]]; [left|right]; auto.
    repeat split; auto. destruct (_ <? _); reflexivity.
Qed.

Lemma bestSoFar_start : bestSoFar targetSentence targetEmbedding [] (-1, "").
Proof.
  split; [intros c s []|left; reflexivity].
Qed.

Lemma bestSoFar_step (seen : list EmbeddingData) (st st' : number * string)
  (c : EmbeddingData) :
  bestSoFar targetSentence targetEmbedding seen st ->
  scanCandidate targetSentence targetEmbedding st c = Ok st' ->
  bestSoFar targetSentence targetEmbedding (seen ++ [c])%list st'.
Proof.
  intros [Hmax Hbest] Hscan.
  assert (Hkeep : (st = (-1, "") \/
            ((-1 <? fst st) = true /\
             exists c0, In c0 (seen ++ [c])%list /\ sentence c0 <> targetSentence /\
               sentence c0 = snd st /\
               cosineSimilarity targetEmbedding (embedding c0) = Ok (fst st)))).
  { destruct Hbest as [Hinit|[Hlt [c0 [Hin Hc0]]]]; [left; assumption|right].
    split; [assumption|]. exists c0. split; [|assumption].
    apply in_or_app. left. assumption. }
  destruct (scanCandidate_cases st c) as [[Hsame Hr]|[[Hother [Hlen Hr]]|[_ Hr]]];
    rewrite Hr in Hscan; try discriminate; injection Hscan as <-.
  - split; [|exact Hkeep].
    intros c0 s Hin Hc0 Hs. apply in_app_or in Hin. destruct Hin as [Hin|[<-|[]]].
    + eapply Hmax; eassumption.
    + contradiction.
  - assert (Hcos : cosineSimilarity targetEmbedding (embedding c)
                   = Ok (cosineOf targetEmbedding (embedding c))).
    { destruct (cosineSimilarity_cases targetEmbedding (embedding c))
        as [[_ H]|[Hne _]]; [exact H|contradiction]. }
    destruct (fst st <? cosineOf targetEmbedding (embedding c)) eqn:Hlt.
    + split; simpl.
      * intros c0 s Hin Hc0 Hs. apply in_app_or in Hin.
        destruct Hin as [Hin|[<-|[]]].
        -- destruct (cosineOf targetEmbedding (embedding c) <? s) eqn:Hcs; [|reflexivity].
           rewrite <- (Hmax c0 s Hin Hc0 Hs).
           symmetry. eapply Binary64Order.ltb_trans; eassumption.
        -- rewrite Hcos in Hs. injection Hs as <-. apply Binary64.ltb_irrefl.
      * right. split.
        -- destruct Hbest as [->|[Hlow _]]; [exact Hlt|].
           eapply Binary64Order.ltb_trans; eassumption.
        -- exists c. repeat split; auto. apply in_or_app. right. left. reflexivity.
    + split; [|exact Hkeep].
      intros c0 s Hin Hc0 Hs. apply in_app_or in Hin. destruct Hin as [Hin|[<-|[]]].
      * eapply Hmax; eassumption.
      * rewrite Hcos in Hs. injection Hs as <-. exact Hlt.
Qed.

Lemma scanCandidates_best (candidates : list EmbeddingData) :
  forall (seen : list EmbeddingData) (st st' : number * string),
    bestSoFar targetSentence targetEmbedding seen st ->
    scanCandidates targetSentence targetEmbedding candidates st = Ok st' ->
    bestSoFar targetSentence targetEmbedding (seen ++ candidates)%list st'.
Proof.
  induction candidates as [|c candidates IH]; intros seen st st' Hbest Hscan;
    simpl in Hscan.
  - injection Hscan as <-. rewrite app_nil_r. exact Hbest.
  - destruct (scanCandidate targetSentence targetEmbedding st c) as [st1|e] eqn:Hc;
      [|discriminate].
    replace (seen ++ c :: candidates)%list with ((seen ++ [c]) ++ candidates)%list
      by (rewrite <- app_assoc; reflexivity).
    eapply IH; [|eassumption]. eapply bestSoFar_step; eassumption.
Qed.

(** What [findMostSimilar] returns is a maximum.  A returned match is
    the sentence of a candidate other than the target, with that
    candidate's cosine similarity, which is above [-1] and not below the
    similarity of any other such candidate; [null] means that no
    candidate other than the target has a similarity above [-1]. *)
Theorem findMostSimilar_returns_the_maximum
  (candidates : list EmbeddingData) (result : option Match) :
  findMostSimilar targetSentence targetEmbedding candidates = Ok result ->
  match result with
  | Some m =>
      (exists c, In c candidates /\ sentence c <> targetSentence /\
         sentence c = match_sentence m /\
         cosineSimilarity targetEmbedding (embedding c) = Ok (match_similarity m)) /\
      (-1 <? match_similarity m) = true /\
      (forall c s, In c candidates -> sentence c <> targetSentence ->
         cosineSimilarity targetEmbedding (embedding c) = Ok s ->
         (match_similarity m <? s) = false)
  | None =>
      forall c s, In c candidates -> sentence c <> targetSentence ->
        cosineSimilarity targetEmbedding (embedding c) = Ok s ->
        (-1 <? s) = false
  end.
Proof.
  unfold findMostSimilar.
  destruct (length candidates =? 0)%nat eqn:Hlen.
  - intros Hr. injection Hr as <-.
    apply Nat.eqb_eq in Hlen. destruct candidates; [|discriminate].
    intros c s [].
  - destruct (scanCandidates targetSentence targetEmbedding candidates (-1, ""))
      as [[maxSimilarity mostSimilar]|e] eqn:Hscan; [|discriminate].
    pose proof (@scanCandidates_best candidates [] _ _ bestSoFar_start Hscan)
      as [Hmax Hbest].
    simpl in Hmax, Hbest.
    destruct (-1 <? maxSimilarity) eqn:Hlt; intros Hr; injection Hr as <-; simpl.
    + destruct Hbest as [Hinit|[_ Hc]].
      * injection Hinit as -> _. discriminate.
      * repeat split; assumption.
    + destruct Hbest as [Hinit|[Habs _]]; [|congruence].
      injection Hinit as -> _. exact Hmax.
Qed.

Lemma scanCandidates_throws (candidates : list EmbeddingData) :
  forall st,
    (Exists (mismatched targetSentence targetEmbedding) candidates /\
     scanCandidates targetSentence targetEmbedding candidates st = Throw lengthMismatch) \/
    (~ Exists (mismatched targetSentence targetEmbedding) candidates /\
     exists st', scanCandidates targetSentence targetEmbedding candidates st = Ok st').
Proof.
  induction candidates as [|c candidates IH]; intros st; simpl.
  - right. split; [intros H; inversion H|eauto].
  - destruct (scanCandidate_cases st c) as [[Hsame ->]|[[Hother [Hlen ->]]|[Hbad ->]]].
    + destruct (IH st) as [[Hex Hr]|[Hnex Hr]]; [left|right]; split; auto.
      intros Hex. inversion Hex as [? ? [Hne _]|]; subst; auto.
    + destruct (IH (if fst st <? cosineOf targetEmbedding (embedding c)
                    then (cosineOf targetEmbedding (embedding c), sentence c)
                    else st)) as [[Hex Hr]|[Hnex Hr]]; [left|right]; split; auto.
      intros Hex. inversion Hex as [? ? [_ Hne]|]; subst; auto.
    + left. split; auto.
Qed.

(** [findMostSimilar] throws exactly when some candidate other than
    the target has a vector whose length differs from the target's, and
    then it throws the length error of [cosineSimilarity]. *)
Theorem findMostSimilar_throws_iff (candidates : list EmbeddingData) (e : thrown) :
  findMostSimilar targetSentence targetEmbedding candidates = Throw e
  <-> (e = Error "Vectors must have the same length" /\
       Exists (mismatched targetSentence targetEmbedding) candidates).
Proof.
  unfold findMostSimilar.
  destruct candidates as [|c candidates].
  - simpl. split; [discriminate|]. intros [_ Hex]. inversion Hex.
  - change (length (c :: candidates) =? 0)%nat with false. cbv iota.
    destruct (@scanCandidates_throws (c :: candidates) (-1, ""))
      as [[Hex ->]|[Hnex [[maxSimilarity mostSimilar] ->]]].
    + split.
      * intros He. injection He as <-. split; [reflexivity|assumption].
      * intros [-> _]. reflexivity.
    + split.
      * destruct (-1 <? maxSimilarity); discriminate.
      * intros [_ Hex]. contradiction.
Qed.

End SearchFacts.

Lemma findMostSimilar_returns_the_maximum_witness :
  (exists c, In c [record "b" [1; 1]; record "a" [1; 0]; record "c" [2; 0]] /\
     sentence c <> "a" /\
     sentence c = "c" /\
     Similarity.cosineSimilarity [1; 0] (embedding c) = Ok 1) /\
  (-1 <? 1) = true /\
  (forall c s, In c [record "b" [1; 1]; record "a" [1; 0]; record "c" [2; 0]] ->
     sentence c <> "a" ->
     Similarity.cosineSimilarity [1; 0] (embedding c) = Ok s ->
     (1 <? s) = false).
Proof.
  exact (@findMostSimilar_returns_the_maximum "a" [1; 0]
           [record "b" [1; 1]; record "a" [1; 0]; record "c" [2; 0]]
           (Some {| Similarity.match_sentence := "c";
                    Similarity.match_similarity := 1 |})
           eq_refl).
Defined.

(** ** Group similarity and the visualizer's comparisons *)

Section GroupFacts.

Import Similarity Comparison Visualizer.

Lemma sameLength_dec (a b : list number) : {sameLength a b} + {~ sameLength a b}.
Proof. apply Nat.eq_dec. Qed.

Lemma addSimilarity_ok (st : number * nat) (a b : list number) :
  sameLength a b ->
  addSimilarity st a b = Ok (fst st + cosineOf a b, Datatypes.S (snd st)).
Proof.
  intros Hlen. unfold addSimilarity. destruct st as [total comparisons].
  destruct (cosineSimilarity_cases a b) as [[_ ->]|[Hne _]]; [reflexivity|].
  contradiction.
Qed.

Lemma addSimilarity_throws (st : number * nat) (a b : list number) :
  ~ sameLength a b -> addSimilarity st a b = Throw lengthMismatch.
Proof.
  intros Hlen. unfold addSimilarity. destruct st as [total comparisons].
  destruct (cosineSimilarity_cases a b) as [[Heq _]|[_ ->]]; [contradiction|].
  reflexivity.
Qed.

(** A group of fewer than two vectors has similarity 1; on a larger
    group [calculateGroupSimilarity] succeeds exactly when every two of
    the vectors have the same length, and otherwise throws the length
    error. *)
Theorem calculateGroupSimilarity_ok_iff (embeddings : list (list number)) :
  ((exists s, calculateGroupSimilarity embeddings = Ok s)
     <-> ForallOrdPairs sameLength embeddings) /\
  (~ ForallOrdPairs sameLength embeddings ->
     calculateGroupSimilarity embeddings
       = Throw (Error "Vectors must have the same length")) /\
  ((length embeddings < 2)%nat -> calculateGroupSimilarity embeddings = Ok 1).
Proof.
  assert (Hsmall : (length embeddings < 2)%nat -> ForallOrdPairs sameLength embeddings).
  { destruct embeddings as [|a [|b l]]; simpl; intros H; try lia.
    - constructor.
    - constructor; constructor. }
  assert (Hthrows : ~ ForallOrdPairs sameLength embeddings ->
            calculateGroupSimilarity embeddings = Throw lengthMismatch).
  { intros Hnot. unfold calculateGroupSimilarity.
    destruct (Nat.ltb_spec (length embeddings) 2) as [Hlt|Hge].
    - exfalso. auto.
    - rewrite (@forPairs_throws _ _ addSimilarity sameLength lengthMismatch); auto.
      + intros st a b Hab. rewrite (addSimilarity_ok st Hab). eauto.
      + intros st a b Hab. apply addSimilarity_throws, Hab.
      + apply sameLength_dec. }
  split; [split|split].
  - intros [s Hs] .
    destruct (@ordered_pairs_decidable _ sameLength embeddings sameLength_dec)
      as [Hall|Hnot]; [assumption|].
    rewrite (Hthrows Hnot) in Hs. discriminate.
  - intros Hall. unfold calculateGroupSimilarity.
    destruct (length embeddings <? 2)%nat; [eauto|].
    destruct (@forPairs_ok _ _ addSimilarity sameLength) with (l := embeddings)
      (st := (0, 0%nat)) as [[total comparisons] ->]; auto.
    + intros st a b Hab. rewrite (addSimilarity_ok st Hab). eauto.
    + destruct (0 <? comparisons)%nat; eauto.
  - exact Hthrows.
  - intros Hlt. unfold calculateGroupSimilarity.
    apply Nat.ltb_lt in Hlt. rewrite Hlt. reflexivity.
Qed.

End GroupFacts.

Section AverageFacts.

Import Similarity Comparison Visualizer.

Lemma fold_total_count (ps : list (list number * list number)) :
  forall (total : number) (comparisons : nat),
    fold_left (fun st p => (fst st + cosineOf (fst p) (snd p), Datatypes.S (snd st)))
              ps (total, comparisons)
      = (fold_left (fun t p => t + cosineOf (fst p) (snd p)) ps total,
         (comparisons + length ps)%nat).
Proof.
  induction ps as [|p ps IH]; intros total comparisons; simpl.
  - rewrite Nat.add_0_r. reflexivity.
  - rewrite IH. f_equal. lia.
Qed.

(** On two or more vectors of one length, [calculateGroupSimilarity]
    is the sum of the cosine similarities of all pairs [i < j], added in
    loop order, divided by their number [n (n - 1) / 2]; the branch that
    returns [0] for no comparison is never taken. *)
Theorem calculateGroupSimilarity_average (embeddings : list (list number)) :
  (2 <= length embeddings)%nat ->
  ForallOrdPairs sameLength embeddings ->
  calculateGroupSimilarity embeddings =
    Ok (fold_left (fun total p => total + cosineOf (fst p) (snd p))
                  (pairsOf embeddings) 0
        / of_nat (length embeddings * (length embeddings - 1) / 2)).
Proof.
  intros Hn Hall. unfold calculateGroupSimilarity.
  destruct (Nat.ltb_spec (length embeddings) 2) as [Hlt|_]; [lia|].
  rewrite (@forPairs_fold _ _ addSimilarity sameLength
             (fun st a b => (fst st + cosineOf a b, Datatypes.S (snd st))));
    [|intros st a b Hab; apply addSimilarity_ok, Hab|assumption].
  rewrite fold_total_count. cbn [fst snd Nat.add].
  rewrite <- pairsOf_count.
  pose proof (pairsOf_length embeddings) as Hcount.
  destruct (Nat.ltb_spec 0 (length (pairsOf embeddings))) as [_|Hzero]; [reflexivity|].
  nia.
Qed.

Lemma forLater_push (a : EmbeddingData) (later : list EmbeddingData) :
  Forall (fun b => length (embedding a) = length (embedding b)) later ->
  forall acc, exists cs,
    forLater pushComparison a later acc = Ok (acc ++ cs)%list /\
    map (fun c => (ComparisonResult.sentence1 c, ComparisonResult.sentence2 c)) cs
      = map (fun b => (sentence a, sentence b)) later.
Proof.
  induction 1 as [|b later Hb _ IH]; intros acc; simpl.
  - exists []. rewrite app_nil_r. auto.
  - unfold pushComparison at 1.
    destruct (compareSentences_cases (sentence a) (sentence b) (embedding a) (embedding b))
      as [[_ [r [-> [H1 H2]]]]|[Hne _]]; [|contradiction].
    destruct (IH (acc ++ [r])%list) as [cs [-> Hcs]].
    exists (r :: cs). split.
    + rewrite <- app_assoc. reflexivity.
    + simpl. rewrite H1, H2, Hcs. reflexivity.
Qed.

Lemma forPairs_push (l : list EmbeddingData) :
  ForallOrdPairs (fun a b => length (embedding a) = length (embedding b)) l ->
  forall acc, exists cs,
    forPairs pushComparison l acc = Ok (acc ++ cs)%list /\
    map (fun c => (ComparisonResult.sentence1 c, ComparisonResult.sentence2 c)) cs
      = pairsOf (map sentence l).
Proof.
  induction 1 as [|a later Ha _ IH]; intros acc; simpl.
  - exists []. rewrite app_nil_r. auto.
  - destruct (@forLater_push a later Ha acc) as [cs1 [-> Hcs1]].
    destruct (IH (acc ++ cs1)%list) as [cs2 [-> Hcs2]].
    exists (cs1 ++ cs2)%list. split.
    + rewrite <- app_assoc. reflexivity.
    + rewrite map_app, Hcs1, Hcs2, map_map. reflexivity.
Qed.

(** When all vectors have one length, as the vectors of one response
    of the embeddings route do, the comparison loops of the visualizer do
    not throw: they produce one comparison for each of the
    [n (n - 1) / 2] pairs of sentences, in the order of the pairs. *)
Theorem newComparisons_all_pairs (embeddingData : list EmbeddingData) (n : nat) :
  Forall (fun item => length (embedding item) = n) embeddingData ->
  exists comparisons,
    newComparisons embeddingData = Ok comparisons /\
    length comparisons
      = (length embeddingData * (length embeddingData - 1) / 2)%nat /\
    map (fun c => (ComparisonResult.sentence1 c, ComparisonResult.sentence2 c))
        comparisons
      = pairsOf (map sentence embeddingData).
Proof.
  intros Hall. unfold newComparisons.
  destruct (@forPairs_push embeddingData) with (acc := @nil ComparisonResult.t)
    as [cs [-> Hcs]].
  - apply Forall_ordered_pairs with (P := fun item => length (embedding item) = n);
      [|assumption].
    intros a b Ha Hb. congruence.
  - exists cs. simpl. split; [reflexivity|]. split; [|assumption].
    rewrite <- (length_map (fun c => (ComparisonResult.sentence1 c,
                                      ComparisonResult.sentence2 c)) cs).
    rewrite Hcs, pairsOf_count, length_map. reflexivity.
Qed.

(** [normalizeEmbeddings] keeps the shape of its input, and a row of
    zeros comes back as it is: no division by a zero magnitude is made. *)
Theorem normalizeEmbeddings_shape (embeddings : list (list number)) :
  map (@length number) (normalizeEmbeddings embeddings)
    = map (@length number) embeddings /\
  (forall i row, nth_error embeddings i = Some row -> Forall isZero row ->
     nth_error (normalizeEmbeddings embeddings) i = Some row).
Proof.
  unfold normalizeEmbeddings. split.
  - rewrite map_map. apply map_ext. intros row.
    destruct (0 <? _); [apply length_map|reflexivity].
  - intros i row Hi Hzero. erewrite map_nth_error by exact Hi. f_equal.
    change (Math_sqrt (reduce (fun sum val (_ : nat) => sum + val * val) row 0))
      with (magnitude row).
    rewrite (magnitude_zero_vector Hzero). reflexivity.
Qed.

End AverageFacts.

Lemma calculateGroupSimilarity_average_witness :
  Comparison.calculateGroupSimilarity [[1; 0]; [0; 1]; [1; 0]] =
    Ok (fold_left (fun total p => total + cosineOf (fst p) (snd p))
                  (pairsOf [[1; 0]; [0; 1]; [1; 0]]) 0
        / of_nat (3 * (3 - 1) / 2)).
Proof.
  apply (@calculateGroupSimilarity_average [[1; 0]; [0; 1]; [1; 0]]).
  - simpl. lia.
  - repeat constructor.
Defined.

Lemma newComparisons_all_pairs_witness :
  exists comparisons,
    Visualizer.newComparisons [record "a" [1; 0]; record "b" [0; 1]; record "c" [1; 1]]
      = Ok comparisons /\
    length comparisons = (3 * (3 - 1) / 2)%nat /\
    map (fun c => (ComparisonResult.sentence1 c, ComparisonResult.sentence2 c))
        comparisons
      = [("a", "b"); ("a", "c"); ("b", "c")].
Proof.
  apply (@newComparisons_all_pairs
           [record "a" [1; 0]; record "b" [0; 1]; record "c" [1; 1]] 2).
  repeat constructor.
Defined.

(** ** The fallback embeddings *)

Section HashFacts.

Import SimpleEmbeddings.

Local Open Scope Z_scope.

Lemma ToInt32_range (z : Z) : - 2 ^ 31 <= ToInt32 z < 2 ^ 31.
Proof.
  unfold ToInt32.
  pose proof (Z.mod_pos_bound (z + 2 ^ 31) (2 ^ 32) eq_refl). lia.
Qed.

Lemma ToInt32_shift (z k : Z) : ToInt32 (z + k * 2 ^ 32) = ToInt32 z.
Proof.
  unfold ToInt32.
  replace (z + k * 2 ^ 32 + 2 ^ 31) with (z + 2 ^ 31 + k * 2 ^ 32) by lia.
  rewrite Z_mod_plus_full. reflexivity.
Qed.

Lemma ToInt32_wraps (z : Z) : exists k, ToInt32 z = z + k * 2 ^ 32.
Proof.
  unfold ToInt32. exists (- ((z + 2 ^ 31) / 2 ^ 32)).
  pose proof (Z_div_mod_eq_full (z + 2 ^ 31) (2 ^ 32)). lia.
Qed.

Lemma ToInt32_small (z : Z) : - 2 ^ 31 <= z < 2 ^ 31 -> ToInt32 z = z.
Proof.
  intros Hz. unfold ToInt32. rewrite Z.mod_small; lia.
Qed.

(** One round of the loop multiplies by 31 and adds the code unit, modulo
    2^32. *)
Lemma hash_round (p c : Z) :
  and32 (shl32 (ToInt32 p) 5 - ToInt32 p + c) (shl32 (ToInt32 p) 5 - ToInt32 p + c)
    = ToInt32 (31 * p + c).
Proof.
  unfold and32, shl32. rewrite Z.land_diag.
  rewrite (ToInt32_small (ToInt32_range p)), Z.shiftl_mul_pow2 by lia.
  destruct (ToInt32_wraps (ToInt32 p * 2 ^ 5)) as [k1 ->].
  destruct (ToInt32_wraps p) as [k0 ->].
  replace ((p + k0 * 2 ^ 32) * 2 ^ 5 + k1 * 2 ^ 32 - (p + k0 * 2 ^ 32) + c)
    with (31 * p + c + (31 * k0 + k1) * 2 ^ 32) by lia.
  apply ToInt32_shift.
Qed.

Lemma hash_rounds (str : list Z) :
  forall hash p,
    hash = ToInt32 p ->
    fold_left (fun hash char => let hash := shl32 hash 5 - hash + char in and32 hash hash)
              str hash
      = ToInt32 (fold_left (fun h c => 31 * h + c) str p).
Proof.
  induction str as [|c str IH]; intros hash p Hhash; cbn [fold_left].
  - exact Hhash.
  - apply IH. rewrite Hhash. apply hash_round.
Qed.

(** [hashString] is the 31-polynomial of the code units (the hash of
    Java's [String.hashCode]) cut to a signed 32-bit integer, whatever the
    code units are; in particular it always is a 32-bit integer. *)
Theorem hashString_is_polynomial (str : list Z) :
  hashString str = ToInt32 (polynomial31 str) /\
  - 2 ^ 31 <= hashString str < 2 ^ 31.
Proof.
  assert (H : hashString str = ToInt32 (polynomial31 str)).
  { unfold hashString, polynomial31. apply hash_rounds. reflexivity. }
  split; [exact H|]. rewrite H. apply ToInt32_range.
Qed.

(** The 32-bit wrap of the model is the signed reading of the low 32
    bits, and so the position of a word is its bucket. *)
Lemma ToInt32_signed32 (z : Z) : ToInt32 z = signed32 z.
Proof.
  unfold ToInt32, signed32. cbv zeta.
  change (2 ^ 32) with 4294967296. change (2 ^ 31) with 2147483648.
  destruct (Z.ltb_spec (z mod 4294967296) 2147483648) as [Hlow|Hhigh];
    Z.div_mod_to_equations; lia.
Qed.

Lemma positionOf_bucket (word : codeUnits) : positionOf word = bucketOf word.
Proof.
  unfold positionOf, bucketOf. rewrite <- ToInt32_signed32.
  do 3 f_equal. unfold hashString, polynomial31. apply hash_rounds. reflexivity.
Qed.

Lemma position_in_range (word : codeUnits) : (positionOf word < 512)%nat.
Proof.
  unfold positionOf.
  pose proof (Z.mod_pos_bound (Z.abs (hashString word)) 512 eq_refl). lia.
Qed.

End HashFacts.

Section RouteFacts.

Import Similarity Comparison SimpleEmbeddings.

Variable toLowerCase : codeUnits -> codeUnits.
Variable now : string.

Lemma addAt_length (position : nat) (delta : number) (embedding : list number) :
  length (addAt position delta embedding) = length embedding.
Proof. apply map_from_length. Qed.

Lemma scatter_length (words : list codeUnits) :
  forall (i : nat) (embedding : list number),
    length (reduce_from (fun embedding word index =>
                           addAt (positionOf word) (1 / of_nat (index + 1)) embedding)
                        words i embedding)
      = length embedding.
Proof.
  induction words as [|w words IH]; intros i embedding; simpl; [reflexivity|].
  rewrite IH. apply addAt_length.
Qed.

Lemma simple_embedding_length (text : codeUnits) :
  length (calculateSimpleEmbedding toLowerCase text) = 512%nat.
Proof.
  unfold calculateSimpleEmbedding, reduce.
  destruct (0 <? _); rewrite ?length_map, scatter_length; apply repeat_length.
Qed.

(** Every embedding of the fallback route has 512 entries, whatever
    the text is, so any two of them can be compared: no metric throws. *)
Theorem calculateSimpleEmbedding_comparable (text1 text2 : codeUnits) :
  length (calculateSimpleEmbedding toLowerCase text1) = 512%nat /\
  exists m,
    calculateSimilarityMetrics (calculateSimpleEmbedding toLowerCase text1)
                               (calculateSimpleEmbedding toLowerCase text2) = Ok m.
Proof.
  split; [apply simple_embedding_length|].
  destruct (calculateSimilarityMetrics_cases
              (calculateSimpleEmbedding toLowerCase text1)
              (calculateSimpleEmbedding toLowerCase text2))
    as [[_ [m [Hm _]]]|[Hne _]]; [eauto|].
  rewrite !simple_embedding_length in Hne. contradiction.
Qed.

Lemma matchWords_none (text : codeUnits) :
  existsb isWordChar text = false -> matchWords text [] = [].
Proof.
  induction text as [|c text IH]; simpl; [reflexivity|].
  destruct (isWordChar c); simpl; [discriminate|exact IH].
Qed.

Lemma zeros_magnitude (n : nat) : magnitude (repeat 0 n) = 0.
Proof.
  apply magnitude_zero_vector. apply Forall_forall. intros v Hv.
  apply repeat_spec in Hv. left. exact Hv.
Qed.

(** A text without a word character (the empty text, punctuation,
    blanks) gets the zero vector, which is not normalised, and its cosine
    similarity to every embedding is 0. *)
Theorem calculateSimpleEmbedding_no_words (text : codeUnits) :
  existsb isWordChar (toLowerCase text) = false ->
  calculateSimpleEmbedding toLowerCase text = repeat 0 512 /\
  (forall v, length v = 512%nat ->
     cosineSimilarity (calculateSimpleEmbedding toLowerCase text) v = Ok 0).
Proof.
  intros Hnone.
  assert (H : calculateSimpleEmbedding toLowerCase text = repeat 0 512).
  { unfold calculateSimpleEmbedding. rewrite (matchWords_none _ Hnone). cbv zeta.
    match goal with
    | |- context [reduce ?f (@nil codeUnits) ?init] =>
        change (reduce f (@nil codeUnits) init) with init
    end.
    match goal with
    | |- context [Math_sqrt ?r] =>
        replace (Math_sqrt r) with 0 by (symmetry; apply (zeros_magnitude 512))
    end.
    reflexivity. }
  split; [exact H|]. intros v Hv. rewrite H.
  rewrite cosineSimilarity_same_length by (rewrite repeat_length; auto).
  rewrite zeros_magnitude. reflexivity.
Qed.

(** The vector with a single [1]: how [addAt] makes it, its magnitude, and
    the dot product of two such vectors. *)
Lemma addAt_zeros (position n : nat) :
  forall k,
    map_from (fun val i => if (i =? position)%nat then val + 1 else val) (repeat 0 n) k
      = map (fun i => if (i =? position)%nat then 1 else 0) (seq k n).
Proof.
  induction n as [|n IH]; intros k; simpl; [reflexivity|].
  rewrite IH. destruct (k =? position)%nat; reflexivity.
Qed.

Lemma squares_after (position n : nat) :
  forall (k j : nat) (acc : number),
    (position < k)%nat -> acc = 0 \/ acc = 1 ->
    reduce_from (fun sum val (_ : nat) => sum + val * val)
                (map (fun i => if (i =? position)%nat then 1 else 0) (seq k n)) j acc
      = acc.
Proof.
  induction n as [|n IH]; intros k j acc Hk Hacc; simpl; [reflexivity|].
  destruct (Nat.eqb_spec k position) as [Heq|_]; [lia|].
  rewrite IH; [|lia|].
  - destruct Hacc as [-> | ->]; reflexivity.
  - destruct Hacc as [-> | ->]; [left|right]; reflexivity.
Qed.

Lemma squares_oneHot (position n : nat) :
  forall (k j : nat),
    (k <= position < k + n)%nat ->
    reduce_from (fun sum val (_ : nat) => sum + val * val)
                (map (fun i => if (i =? position)%nat then 1 else 0) (seq k n)) j 0
      = 1.
Proof.
  induction n as [|n IH]; intros k j Hk; simpl; [lia|].
  destruct (Nat.eqb_spec k position) as [Heq|Hne].
  - change (0 + 1 * 1) with 1. apply squares_after; [lia|right; reflexivity].
  - change (0 + 0 * 0) with 0. apply IH. lia.
Qed.

Lemma oneHot_magnitude (position n : nat) :
  (position < n)%nat -> magnitude (oneHot position n) = 1.
Proof.
  intros Hp. unfold magnitude, oneHot, reduce.
  rewrite squares_oneHot by lia. reflexivity.
Qed.

Lemma oneHot_length (position n : nat) : length (oneHot position n) = n.
Proof. unfold oneHot. rewrite length_map. apply length_seq. Qed.

Lemma dot_after (p q n : nat) :
  forall (k : nat) (acc : number),
    (p < k \/ q < k \/ p <> q)%nat -> acc = 0 \/ acc = 1 ->
    fold_left (fun sum pr => sum + fst pr * snd pr)
              (combine (map (fun i => if (i =? p)%nat then 1 else 0) (seq k n))
                       (map (fun i => if (i =? q)%nat then 1 else 0) (seq k n))) acc
      = acc.
Proof.
  induction n as [|n IH]; intros k acc Hk Hacc; simpl; [reflexivity|].
  assert (Hstep : acc + (if (k =? p)%nat then 1 else 0) * (if (k =? q)%nat then 1 else 0)
                  = acc).
  { destruct (Nat.eqb_spec k p), (Nat.eqb_spec k q); try lia;
      destruct Hacc as [-> | ->]; reflexivity. }
  rewrite Hstep. apply IH; [lia|assumption].
Qed.

Lemma dot_same (p n : nat) :
  forall (k : nat),
    (k <= p < k + n)%nat ->
    fold_left (fun sum pr => sum + fst pr * snd pr)
              (combine (map (fun i => if (i =? p)%nat then 1 else 0) (seq k n))
                       (map (fun i => if (i =? p)%nat then 1 else 0) (seq k n))) 0
      = 1.
Proof.
  induction n as [|n IH]; intros k Hk; simpl; [lia|].
  destruct (Nat.eqb_spec k p) as [Heq|Hne].
  - change (0 + 1 * 1) with 1. apply dot_after; [lia|right; reflexivity].
  - change (0 + 0 * 0) with 0. apply IH. lia.
Qed.

Lemma oneHot_dot (p q n : nat) :
  reduce (fun sum val i => sum + val * ToNumber (nth_error (oneHot q n) i)) (oneHot p n) 0
    = fold_left (fun sum pr => sum + fst pr * snd pr)
                (combine (oneHot p n) (oneHot q n)) 0.
Proof.
  apply (@reduce_zip (fun s u v => s + u * v)).
  rewrite !oneHot_length. reflexivity.
Qed.

Lemma oneHot_cosine (p q n : nat) :
  (p < n)%nat -> (q < n)%nat ->
  cosineSimilarity (oneHot p n) (oneHot q n) = Ok (if (p =? q)%nat then 1 else 0).
Proof.
  intros Hp Hq.
  rewrite cosineSimilarity_same_length by (rewrite !oneHot_length; reflexivity).
  rewrite !oneHot_magnitude by assumption.
  change ((1 =? 0) || (1 =? 0)) with false. cbv iota.
  transitivity (Ok ((if (p =? q)%nat then 1 else 0) / (1 * 1)));
    [|destruct (p =? q)%nat; reflexivity].
  do 2 f_equal. etransitivity; [apply oneHot_dot|].
  unfold oneHot.
  destruct (Nat.eqb_spec p q) as [<-|Hne].
  - apply dot_same. lia.
  - apply dot_after; [lia|left; reflexivity].
Qed.

Lemma single_word_embedding (text word : codeUnits) :
  matchWords (toLowerCase text) [] = [word] ->
  calculateSimpleEmbedding toLowerCase text = oneHot (positionOf word) 512.
Proof.
  intros Hword. unfold calculateSimpleEmbedding. rewrite Hword. cbv zeta.
  match goal with
  | |- context [reduce ?f [word] ?init] =>
      assert (Hs : reduce f [word] init = oneHot (positionOf word) 512)
  end.
  { unfold reduce. cbn [reduce_from].
    change (1 / of_nat (0 + 1)) with 1.
    unfold addAt, mapi, oneHot. apply addAt_zeros. }
  rewrite Hs.
  match goal with
  | |- context [Math_sqrt ?r] =>
      replace (Math_sqrt r) with 1
        by (symmetry; apply (oneHot_magnitude (position_in_range word)))
  end.
  change (0 <? 1) with true. cbv iota.
  unfold oneHot. rewrite map_map. apply map_ext. intros i.
  destruct (i =? positionOf word)%nat; reflexivity.
Qed.

Lemma matchWords_skip (before rest : codeUnits) :
  existsb isWordChar before = false ->
  matchWords (before ++ rest)%list [] = matchWords rest [].
Proof.
  induction before as [|c before IH]; simpl; [reflexivity|].
  destruct (isWordChar c); simpl; [discriminate|exact IH].
Qed.

Lemma matchWords_run (word rest : codeUnits) :
  forall current,
    forallb isWordChar word = true ->
    matchWords (word ++ rest)%list current = matchWords rest (current ++ word)%list.
Proof.
  induction word as [|c word IH]; intros current; simpl.
  - rewrite app_nil_r. reflexivity.
  - destruct (isWordChar c); simpl; [|discriminate].
    intros Hword. rewrite (IH (current ++ [c])%list Hword), <- app_assoc. reflexivity.
Qed.

Lemma matchWords_end (after current : codeUnits) :
  current <> [] ->
  existsb isWordChar after = false ->
  matchWords after current = [current].
Proof.
  intros Hcurrent Hafter. destruct after as [|c after]; simpl in *.
  - destruct current; [contradiction|reflexivity].
  - destruct (isWordChar c); simpl in Hafter; [discriminate|].
    rewrite (@matchWords_none after Hafter).
    destruct current; [contradiction|reflexivity].
Qed.

Lemma singleWord_matchWords (text word : codeUnits) :
  singleWord text word -> matchWords text [] = [word].
Proof.
  intros (before & after & -> & Hword & Hrun & Hbefore & Hafter).
  rewrite (@matchWords_skip before (word ++ after)%list Hbefore),
          (@matchWords_run word after [] Hrun).
  apply matchWords_end; assumption.
Qed.

(** A text of a single word gets the vector that is [1] at the bucket of
    the word, the absolute value of its 32-bit polynomial hash modulo 512,
    and [0] elsewhere; so the cosine similarity of two one-word texts is
    all or nothing: exactly 1 when the two words fall into the same
    bucket, exactly 0 otherwise. *)
Theorem single_word_similarity (text1 text2 word1 word2 : codeUnits) :
  singleWord (toLowerCase text1) word1 ->
  singleWord (toLowerCase text2) word2 ->
  calculateSimpleEmbedding toLowerCase text1 = oneHot (bucketOf word1) 512 /\
  cosineSimilarity (calculateSimpleEmbedding toLowerCase text1)
                   (calculateSimpleEmbedding toLowerCase text2)
    = Ok (if (bucketOf word1 =? bucketOf word2)%nat then 1 else 0).
Proof.
  intros H1 H2. apply singleWord_matchWords in H1, H2.
  rewrite (single_word_embedding _ H1), (single_word_embedding _ H2).
  rewrite !positionOf_bucket.
  split; [reflexivity|].
  apply oneHot_cosine; rewrite <- positionOf_bucket; apply position_in_range.
Qed.

Lemma mapResult_texts (texts : list codeUnits) :
  mapResult (embedSentence toLowerCase) (map Text texts)
    = Ok (map (calculateSimpleEmbedding toLowerCase) texts).
Proof.
  induction texts as [|text texts IH]; simpl; [reflexivity|].
  rewrite IH. reflexivity.
Qed.

Lemma mapResult_not_text (before : list codeUnits) (message : string)
  (rest : list Element) :
  mapResult (embedSentence toLowerCase) (map Text before ++ NotText message :: rest)%list
    = Throw (Error message).
Proof.
  induction before as [|text before IH]; simpl; [reflexivity|].
  rewrite IH. reflexivity.
Qed.

Lemma all_texts (sentences : list Element) :
  forallb isText sentences = true -> exists texts, sentences = map Text texts.
Proof.
  induction sentences as [|[text|message] sentences IH]; simpl; intros H.
  - exists []. reflexivity.
  - destruct (IH H) as [texts ->]. exists (text :: texts). reflexivity.
  - discriminate.
Qed.

Lemma first_not_text (sentences : list Element) :
  forallb isText sentences = false ->
  exists before message rest, sentences = (map Text before ++ NotText message :: rest)%list.
Proof.
  induction sentences as [|[text|message] sentences IH]; simpl; intros H.
  - discriminate.
  - destruct (IH H) as (before & message & rest & ->).
    exists (text :: before), message, rest. reflexivity.
  - exists [], message, sentences. reflexivity.
Qed.

Lemma accepted_request (sentences : list Element) :
  (1 <= length sentences <= 50)%nat ->
  POST toLowerCase now (Ok (Sentences sentences))
    = match mapResult (embedSentence toLowerCase) sentences with
      | Throw error => failed now error
      | Ok embeddings =>
          {| status := 200;
             json := Embeddings embeddings 512 (length embeddings) now "simple_tfidf" |}
      end.
Proof.
  intros Hlen. unfold POST.
  destruct (Nat.eqb_spec (length sentences) 0) as [Hzero|_]; [lia|].
  destruct (Nat.ltb_spec 50 (length sentences)) as [Hmany|_]; [lia|].
  reflexivity.
Qed.

Lemma refused_request (sentences : list Element) :
  (length sentences = 0 \/ 50 < length sentences)%nat ->
  status (POST toLowerCase now (Ok (Sentences sentences))) = 400%nat.
Proof.
  intros Hlen. unfold POST.
  destruct (Nat.eqb_spec (length sentences) 0) as [Hzero|Hpos]; [reflexivity|].
  destruct (Nat.ltb_spec 50 (length sentences)) as [Hmany|Hfew]; [reflexivity|lia].
Qed.

(** The contract of the fallback route.  It answers 200 exactly to a
    request whose [sentences] is an array of 1 to 50 strings, and then with
    the embedding of each sentence, in order, each of 512 entries, in
    agreement with the [count] and the [dimensions] it reports.  It answers
    500 exactly when reading the request throws or when an array of 1 to 50
    elements holds one that is not a string, and then the details are the
    message of the [TypeError] of the first such element.  In all other
    cases (no array, an empty one, more than 50 elements) it answers
    400. *)
Theorem POST_contract (request_json : Result Body) :
  (status (POST toLowerCase now request_json) = 200%nat
     <-> exists sentences, request_json = Ok (Sentences sentences) /\
           (1 <= length sentences <= 50)%nat /\ forallb isText sentences = true) /\
  (status (POST toLowerCase now request_json) = 500%nat
     <-> (exists e, request_json = Throw e) \/
         exists sentences, request_json = Ok (Sentences sentences) /\
           (1 <= length sentences <= 50)%nat /\ forallb isText sentences = false) /\
  (status (POST toLowerCase now request_json) = 200%nat \/
   status (POST toLowerCase now request_json) = 400%nat \/
   status (POST toLowerCase now request_json) = 500%nat) /\
  (forall texts,
     request_json = Ok (Sentences (map Text texts)) ->
     (1 <= length texts <= 50)%nat ->
     json (POST toLowerCase now request_json)
       = Embeddings (map (calculateSimpleEmbedding toLowerCase) texts) 512
                    (length texts) now "simple_tfidf" /\
     Forall (fun e => length e = 512%nat)
            (map (calculateSimpleEmbedding toLowerCase) texts)) /\
  (forall before message rest,
     request_json = Ok (Sentences (map Text before ++ NotText message :: rest)%list) ->
     (1 <= length (map Text before ++ NotText message :: rest)%list <= 50)%nat ->
     json (POST toLowerCase now request_json)
       = Failed "Failed to generate embeddings" message now).
Proof.
  assert (Hdetails :
    (forall texts,
       request_json = Ok (Sentences (map Text texts)) ->
       (1 <= length texts <= 50)%nat ->
       json (POST toLowerCase now request_json)
         = Embeddings (map (calculateSimpleEmbedding toLowerCase) texts) 512
                      (length texts) now "simple_tfidf" /\
       Forall (fun e => length e = 512%nat)
              (map (calculateSimpleEmbedding toLowerCase) texts)) /\
    (forall before message rest,
       request_json = Ok (Sentences (map Text before ++ NotText message :: rest)%list) ->
       (1 <= length (map Text before ++ NotText message :: rest)%list <= 50)%nat ->
       json (POST toLowerCase now request_json)
         = Failed "Failed to generate embeddings" message now)).
  { split.
    - intros texts -> Hlen.
      rewrite accepted_request by (rewrite length_map; exact Hlen).
      rewrite mapResult_texts. cbn [json]. rewrite length_map. split; [reflexivity|].
      apply Forall_forall. intros v Hv. apply in_map_iff in Hv.
      destruct Hv as [text [<- _]]. apply simple_embedding_length.
    - intros before message rest -> Hlen.
      rewrite (@accepted_request _ Hlen), mapResult_not_text. reflexivity. }
  split; [|split; [|split; [|exact Hdetails]]]; clear Hdetails;
    destruct request_json as [[|sentences]|e];
    try (destruct (Nat.eq_dec (length sentences) 0) as [Hzero|Hpos];
         [assert (Hs : status (POST toLowerCase now (Ok (Sentences sentences))) = 400%nat)
            by (apply refused_request; left; exact Hzero)
         |destruct (Nat.ltb_spec 50 (length sentences)) as [Hmany|Hfew];
          [assert (Hs : status (POST toLowerCase now (Ok (Sentences sentences))) = 400%nat)
             by (apply refused_request; right; exact Hmany)
          |assert (Hlen : (1 <= length sentences <= 50)%nat) by lia;
           destruct (forallb isText sentences) eqn:Htexts;
           [assert (Hs : status (POST toLowerCase now (Ok (Sentences sentences))) = 200%nat)
              by (rewrite (@accepted_request _ Hlen);
                  destruct (@all_texts _ Htexts) as [texts ->];
                  rewrite mapResult_texts; reflexivity)
           |assert (Hs : status (POST toLowerCase now (Ok (Sentences sentences))) = 500%nat)
              by (rewrite (@accepted_request _ Hlen);
                  destruct (@first_not_text _ Htexts) as (before & message & rest & ->);
                  rewrite mapResult_not_text; reflexivity)]]];
         rewrite Hs).
  (* 200 *)
  - split; [discriminate|intros (s & H & _); discriminate].
  - split; [discriminate|intros (s & H & Hs' & _); injection H as <-; lia].
  - split; [discriminate|intros (s & H & Hs' & _); injection H as <-; lia].
  - split; [intros _; exists sentences; auto|reflexivity].
  - split; [discriminate|intros (s & H & _ & Hs'); injection H as <-; congruence].
  - split; [discriminate|intros (s & H & _); discriminate].
  (* 500 *)
  - split; [discriminate|intros [[e H]|(s & H & _)]; discriminate].
  - split; [discriminate|].
    intros [[e H]|(s & H & Hs' & _)]; [discriminate|]. injection H as <-. lia.
  - split; [discriminate|].
    intros [[e H]|(s & H & Hs' & _)]; [discriminate|]. injection H as <-. lia.
  - split; [discriminate|].
    intros [[e H]|(s & H & _ & Hs')]; [discriminate|]. injection H as <-. congruence.
  - split; [intros _; right; exists sentences; auto|reflexivity].
  - split; [intros _; left; eauto|reflexivity].
  (* one of the three *)
  - right; left; reflexivity.
  - right; left; reflexivity.
  - right; left; reflexivity.
  - left; reflexivity.
  - right; right; reflexivity.
  - right; right; reflexivity.
Qed.

End RouteFacts.

Lemma calculateSimpleEmbedding_no_words_witness :
  SimpleEmbeddings.calculateSimpleEmbedding asciiLower (asciiCodes "?! ...") = repeat 0 512 /\
  (forall v, length v = 512%nat ->
     Similarity.cosineSimilarity
       (SimpleEmbeddings.calculateSimpleEmbedding asciiLower (asciiCodes "?! ...")) v
       = Ok 0).
Proof.
  apply (@calculateSimpleEmbedding_no_words asciiLower (asciiCodes "?! ...")).
  reflexivity.
Defined.

Lemma single_word_similarity_witness :
  SimpleEmbeddings.calculateSimpleEmbedding asciiLower (asciiCodes "Hello!")
    = oneHot 210 512 /\
  Similarity.cosineSimilarity
    (SimpleEmbeddings.calculateSimpleEmbedding asciiLower (asciiCodes "Hello!"))
    (SimpleEmbeddings.calculateSimpleEmbedding asciiLower (asciiCodes " world"))
    = Ok 0.
Proof.
  apply (@single_word_similarity asciiLower (asciiCodes "Hello!") (asciiCodes " world")
           (asciiCodes "hello") (asciiCodes "world")).
  - exists [], (asciiCodes "!"). repeat split. discriminate.
  - exists (asciiCodes " "), []. repeat split. discriminate.
Defined.

(** ** Failures of the reducers *)

Section OutcomeFacts.

Variable E : Env.

Lemma performPCA_returns (embeddings : list (list number)) (d : Dimensions) (w : World) :
  exists r w', performPCA E embeddings d w = (Ok r, w').
Proof.
  unfold performPCA, try_catch.
  destruct (length embeddings <? 2)%nat.
  - unfold ret. eauto.
  - unfold bind at 1. unfold call at 1.
    destruct (pca_predict E embeddings d) as [rows|e].
    + unfold bind, call.
      destruct (pca_getExplainedVariance E embeddings) as [var|e].
      * unfold ret. eauto.
      * destruct (pca_fallback_rows E d embeddings (log PCA_getExplainedVariance
                    (log (PCA_predict embeddings d) w))) as (r & w' & Hr & _).
        eauto.
    + destruct (pca_fallback_rows E d embeddings (log (PCA_predict embeddings d) w))
        as (r & w' & Hr & _).
      eauto.
Qed.

Lemma pcaFallbackPoint_row (d : Dimensions) (emb : list number) (i : nat) (w : World) :
  exists row w',
    pcaFallbackPoint E d emb i w = (Ok row, w') /\
    length row = dim_nat d /\ trace w' = trace w.
Proof.
  unfold pcaFallbackPoint, bind, or_else, random, ret.
  destruct (truthy (nth_error emb 0)), (truthy (nth_error emb 1)),
    (truthy (nth_error emb 2)), d; simpl; eauto.
Qed.

Lemma pcaFallback_rows_shape (d : Dimensions) (embeddings : list (list number)) :
  forall (i : nat) (w : World),
    exists rows w',
      mapM_from (pcaFallbackPoint E d) embeddings i w = (Ok rows, w') /\
      length rows = length embeddings /\
      Forall (fun row => length row = dim_nat d) rows /\
      trace w' = trace w.
Proof.
  induction embeddings as [|emb embeddings IH]; intros i w; simpl.
  - exists [], w. unfold ret. auto.
  - unfold bind.
    destruct (pcaFallbackPoint_row d emb i w) as (row & w1 & -> & Hrow & Hw1).
    destruct (IH (Datatypes.S i) w1) as (rows & w2 & -> & Hlen & Hrows & Hw2).
    exists (row :: rows), w2. unfold ret. simpl. repeat split; auto; congruence.
Qed.

(** When ml-pca throws, in [predict] or in [getExplainedVariance],
    [performPCA] still returns: one row per input vector, each of exactly
    [dimensions] coordinates, and the variance 0.3 for every component. *)
Theorem performPCA_falls_back (embeddings : list (list number)) (d : Dimensions)
  (w : World) (e : thrown) :
  (2 <= length embeddings)%nat ->
  (pca_predict E embeddings d = Throw e \/
   ((exists rows, pca_predict E embeddings d = Ok rows) /\
    pca_getExplainedVariance E embeddings = Throw e)) ->
  exists r w',
    performPCA E embeddings d w = (Ok r, w') /\
    pca_variance r = repeat 0.3 (dim_nat d) /\
    length (pca_reduced r) = length embeddings /\
    Forall (fun row => length row = dim_nat d) (pca_reduced r).
Proof.
  intros Hn Hthrows. unfold performPCA, try_catch.
  destruct (Nat.ltb_spec (length embeddings) 2) as [Hlt|_]; [lia|].
  unfold bind at 1. unfold call at 1.
  destruct Hthrows as [-> | [[rows ->] Hvar]].
  - unfold bind, mapM.
    destruct (pcaFallback_rows_shape d embeddings 0 (log (PCA_predict embeddings d) w))
      as (fallback & w' & -> & Hlen & Hrows & _).
    unfold ret. eexists; eexists. split; [reflexivity|]. simpl. auto.
  - unfold bind at 1. unfold call at 1. rewrite Hvar.
    unfold bind, mapM.
    destruct (pcaFallback_rows_shape d embeddings 0
                (log PCA_getExplainedVariance (log (PCA_predict embeddings d) w)))
      as (fallback & w' & -> & Hlen & Hrows & _).
    unfold ret. eexists; eexists. split; [reflexivity|]. simpl. auto.
Qed.

Lemma timers_settle (fuel : nat) :
  forall (t : TSNE E) (iterations : nat) (w : World),
    exists p w',
      timers E fuel t iterations w = (Ok p, w') /\
      (p = Pending \/ exists solution, p = Resolved solution).
Proof.
  induction fuel as [|fuel IH]; intros t iterations w.
  - exists Pending, w. split; [reflexivity|left; reflexivity].
  - rewrite (@timers_S E fuel t iterations w).
    destruct (step E t iterations w) as [[[[t' iterations'] [solution|]]|e] w1].
    + exists (Resolved solution), w1. split; [reflexivity|right; eauto].
    + apply IH.
    + exists Pending, w1. split; [reflexivity|left; reflexivity].
Qed.

Lemma Forall_map_from {A B : Type} (P : B -> Prop) (g : A -> nat -> B) (l : list A) :
  (forall a i, P (g a i)) -> forall i, Forall P (map_from g l i).
Proof.
  intros Hg. induction l as [|a l IH]; intros i; simpl; constructor; auto.
Qed.

Lemma fallbackPoint_length (n : nat) (d : Dimensions) (i : nat) :
  length (fallbackPoint E n d i) = dim_nat d.
Proof. destruct d; reflexivity. Qed.

(** The promise of [performTSNE] is never rejected, and it can only stay
    pending on four or more inputs. *)
Lemma performTSNE_settles (embeddings : list (list number)) (d : Dimensions)
  (p : number) (w : World) :
  exists promise w',
    performTSNE E embeddings d p w = (Ok promise, w') /\
    ((promise = Pending /\ (4 <= length embeddings)%nat) \/
     exists layout, promise = Resolved layout).
Proof.
  unfold performTSNE, try_catch.
  destruct (Nat.ltb_spec (length embeddings) 4) as [Hlt|Hge].
  - unfold bind, mapM.
    destruct (mapM_from_total
                (fun (_ : list number) i => simplePoint E (length embeddings) d i)
                (fun _ i w0 => simplePoint_total E (length embeddings) d i w0)
                embeddings 0 w) as (layout & w' & -> & _).
    unfold ret. eauto 6.
  - unfold bind at 1. unfold call at 1.
    destruct (tsne_new E (tsneOptions embeddings d p)) as [t|e];
      [|unfold ret; eauto 6].
    unfold bind at 1. unfold call at 1.
    destruct (tsne_init E t embeddings) as [t'|e]; [|unfold ret; eauto 6].
    unfold bind.
    destruct (step E t' 0 _) as [[[[t'' iterations] [solution|]]|e] w1];
      [unfold ret; eauto 6| |unfold ret; eauto 6].
    destruct (timers_settle maxIterations t'' iterations w1)
      as (promise & w2 & -> & [-> | [solution ->]]); eauto 8.
Qed.

Lemma step_throws (t : TSNE E) (iterations : nat) (w : World) (e : thrown) :
  tsne_step E t = Throw e ->
  step E t iterations w = (Throw e, log TSNE_step w).
Proof.
  intros Hstep. unfold step, bind, call. rewrite Hstep. reflexivity.
Qed.

Lemma step_goes_on (t t' : TSNE E) (iterations : nat) (w : World) :
  tsne_step E t = Ok t' ->
  tsne_isConverged E t' = Ok false ->
  (Datatypes.S iterations < maxIterations)%nat ->
  step E t iterations w
    = (Ok (t', Datatypes.S iterations, None), log TSNE_isConverged (log TSNE_step w)).
Proof.
  intros Hstep Hconv Hcap. unfold step, bind, call. rewrite Hstep.
  destruct (Nat.leb_spec maxIterations (Datatypes.S iterations)) as [Hle|_]; [lia|].
  rewrite Hconv. reflexivity.
Qed.

Lemma fallback_layout (embeddings : list (list number)) (d : Dimensions) :
  mapi (fun _ i => fallbackPoint E (length embeddings) d i) embeddings
    = map (fun angle =>
             match d with
             | D2 => [Math_cos E angle * 2; Math_sin E angle * 2]
             | D3 => [Math_cos E angle * 2; Math_sin E angle * 2;
                      Math_sin E (angle * 2)]
             end)
          (evenAngles (length embeddings)).
Proof.
  unfold mapi.
  rewrite (map_from_seq (fun i => fallbackPoint E (length embeddings) d i)).
  unfold evenAngles. rewrite map_map. apply map_ext. intros i.
  destruct d; reflexivity.
Qed.

(** When the constructor of tsne-js, its [init] or the first [step]
    throws, [performTSNE] resolves with the circle of radius 2: for [N]
    vectors the points [(cos a * 2, sin a * 2)] at the [N] evenly spread
    angles [a = 2 pi i / N], with the third coordinate [sin (2 a)] for
    three dimensions. *)
Theorem performTSNE_falls_back (embeddings : list (list number)) (d : Dimensions)
  (p : number) (w : World) (e : thrown) :
  (4 <= length embeddings)%nat ->
  (tsne_new E (tsneOptions embeddings d p) = Throw e \/
   (exists t, tsne_new E (tsneOptions embeddings d p) = Ok t /\
      tsne_init E t embeddings = Throw e) \/
   (exists t t', tsne_new E (tsneOptions embeddings d p) = Ok t /\
      tsne_init E t embeddings = Ok t' /\ tsne_step E t' = Throw e)) ->
  exists w',
    performTSNE E embeddings d p w =
      (Ok (Resolved
             (map (fun angle =>
                     match d with
                     | D2 => [Math_cos E angle * 2; Math_sin E angle * 2]
                     | D3 => [Math_cos E angle * 2; Math_sin E angle * 2;
                              Math_sin E (angle * 2)]
                     end)
                  (evenAngles (length embeddings)))), w').
Proof.
  intros Hn Hthrows. rewrite <- fallback_layout.
  unfold performTSNE, try_catch.
  destruct (Nat.ltb_spec (length embeddings) 4) as [Hlt|_]; [lia|].
  unfold bind at 1. unfold call at 1.
  destruct Hthrows as [-> | [(t & -> & Hinit) | (t & t' & -> & Hinit & Hstep)]].
  - unfold ret. eauto.
  - unfold bind at 1. unfold call at 1. rewrite Hinit. unfold ret. eauto.
  - unfold bind at 1. unfold call at 1. rewrite Hinit.
    unfold bind. rewrite (@step_throws _ _ _ _ Hstep). unfold ret. eauto.
Qed.

Lemma performTSNE_stalls (embeddings : list (list number)) (d : Dimensions)
  (p : number) (w : World) (t0 t1 t2 : TSNE E) (e : thrown) :
  (4 <= length embeddings)%nat ->
  tsne_new E (tsneOptions embeddings d p) = Ok t0 ->
  tsne_init E t0 embeddings = Ok t1 ->
  tsne_step E t1 = Ok t2 ->
  tsne_isConverged E t2 = Ok false ->
  tsne_step E t2 = Throw e ->
  exists w', performTSNE E embeddings d p w = (Ok Pending, w').
Proof.
  intros Hn Hnew Hinit Hstep1 Hconv Hstep2.
  unfold performTSNE, try_catch.
  destruct (Nat.ltb_spec (length embeddings) 4) as [Hlt|_]; [lia|].
  unfold bind at 1. unfold call at 1. rewrite Hnew.
  unfold bind at 1. unfold call at 1. rewrite Hinit.
  unfold bind.
  rewrite (@step_goes_on t1 t2 0 _ Hstep1 Hconv) by (unfold maxIterations; lia).
  change maxIterations with (Datatypes.S (Nat.pred maxIterations)).
  rewrite timers_S, (@step_throws _ _ _ _ Hstep2). eauto.
Qed.

(** A failure in a scheduled step is never reported: when the first step
    of tsne-js succeeds without converging and the second, which runs from
    a timer, throws, the promise of [reduceDimensions] stays pending for
    ever; it is neither resolved with the fallback layout nor rejected. *)
Theorem scheduled_failure_never_settles
  (embeddingData : list EmbeddingData) (config : VisualizationConfig) (w : World)
  (t0 t1 t2 : TSNE E) (e : thrown) :
  (4 <= length embeddingData)%nat ->
  Forall (fun item => embedding item <> []) embeddingData ->
  method config = method_tsne ->
  (forall options, tsne_new E options = Ok t0) ->
  tsne_init E t0 (map embedding embeddingData) = Ok t1 ->
  tsne_step E t1 = Ok t2 ->
  tsne_isConverged E t2 = Ok false ->
  tsne_step E t2 = Throw e ->
  exists w', reduceDimensions E embeddingData config w = (Pending, w').
Proof.
  intros Hn Hvalid Hmethod Hnew Hinit Hstep1 Hconv Hstep2.
  unfold reduceDimensions.
  destruct (Nat.eqb_spec (length (map embedding embeddingData)) 0) as [Hzero|_].
  { rewrite length_map in Hzero. lia. }
  replace (existsb (fun emb => (length emb =? 0)%nat) (map embedding embeddingData))
    with false.
  2:{ symmetry. apply not_true_is_false. intros Hex.
      apply existsb_exists in Hex. destruct Hex as (emb & Hin & Hlen).
      apply in_map_iff in Hin. destruct Hin as (item & <- & Hitem).
      rewrite Forall_forall in Hvalid. apply (Hvalid item Hitem).
      destruct (embedding item); [reflexivity|discriminate]. }
  unfold try_catch, reduce_with. rewrite Hmethod. unfold bind.
  match goal with
  | |- context [performTSNE E ?v ?d ?p w] =>
      destruct (@performTSNE_stalls v d p w t0 t1 t2 e) as [w' ->]; auto
  end.
  - rewrite length_map. exact Hn.
  - unfold ret. eauto.
Qed.

Lemma nth_error_skipn_map {A B : Type} (f : A -> B) (l : list A) :
  forall (i : nat) (a : A),
    nth_error l i = Some a ->
    skipn i (map f l) = f a :: skipn (Datatypes.S i) (map f l).
Proof.
  induction l as [|b l IH]; intros [|i] a H; simpl in *; try discriminate.
  - injection H as ->. reflexivity.
  - apply IH. exact H.
Qed.

Lemma formatPoints_labels (embeddingData : list EmbeddingData)
  (config : VisualizationConfig) (rows : list (list number)) :
  forall (i : nat) (w w' : World) (pts : list Point.t),
    mapM_from (formatPoint embeddingData config) rows i w = (Ok pts, w') ->
    map Point.label pts = firstn (length pts) (skipn i (map sentence embeddingData)) /\
    map Point.id pts = firstn (length pts) (skipn i (map id embeddingData)).
Proof.
  induction rows as [|coords rows IH]; intros i w w' pts; simpl.
  - unfold ret. intros H. injection H as <- _. auto.
  - unfold bind at 1. unfold formatPoint at 1.
    destruct (nth_error embeddingData i) as [item|] eqn:Hitem; simpl;
      [|discriminate].
    unfold bind.
    destruct (mapM_from (formatPoint embeddingData config) rows (Datatypes.S i) w)
      as [[rest|e1] w1] eqn:Hrest; simpl; [|discriminate].
    intros H. injection H as <- _. simpl.
    destruct (IH _ _ _ _ Hrest) as [Hlabels Hids].
    rewrite (nth_error_skipn_map sentence _ _ Hitem),
            (nth_error_skipn_map id _ _ Hitem).
    simpl. rewrite Hlabels, Hids. auto.
Qed.

(** The outcomes of [reduceDimensions].  It is rejected only with one of
    its two input errors or with the [TypeError] of a reducer that returns
    more rows than there are inputs: the error "Dimensionality reduction
    failed" of its [catch] is never produced, since neither reducer lets a
    failure out.  It stays pending only for t-SNE on four or more inputs.
    A resolved result carries the input as it was, the configured method,
    a variance exactly for PCA, and points that are labelled with the
    sentences and ids of the inputs in input order. *)
Theorem reduceDimensions_outcomes
  (embeddingData : list EmbeddingData) (config : VisualizationConfig) (w : World) :
  match fst (reduceDimensions E embeddingData config w) with
  | Rejected e => e = noEmbeddings \/ e = invalidEmbeddings \/ e = undefinedSentence
  | Pending => method config = method_tsne /\ (4 <= length embeddingData)%nat
  | Resolved result =>
      original result = embeddingData /\
      used_method result = method config /\
      (variance result = None <-> method config = method_tsne) /\
      map Point.label (reduced result)
        = firstn (length (reduced result)) (map sentence embeddingData) /\
      map Point.id (reduced result)
        = firstn (length (reduced result)) (map id embeddingData)
  end.
Proof.
  unfold reduceDimensions.
  destruct (length (map embedding embeddingData) =? 0)%nat; [simpl; auto|].
  destruct (existsb _ _); [simpl; auto|].
  assert (Htry :
    exists w1,
      (exists rows var,
         try_catch (reduce_with E (map embedding embeddingData) config)
                   (fun error => throw (reductionFailed error)) w
           = (Ok (Some (rows, var)), w1) /\
         (var = None <-> method config = method_tsne)) \/
      (try_catch (reduce_with E (map embedding embeddingData) config)
                 (fun error => throw (reductionFailed error)) w = (Ok None, w1) /\
       method config = method_tsne /\ (4 <= length embeddingData)%nat)).
  { unfold try_catch, reduce_with. destruct (method config) eqn:Hmethod.
    - unfold bind.
      destruct (performPCA_returns (map embedding embeddingData) (dimensions config) w)
        as (r & w1 & ->).
      exists w1. left. unfold ret. eexists; eexists. split; [reflexivity|].
      split; discriminate.
    - unfold bind.
      match goal with
      | |- context [performTSNE E ?v ?d ?p w] =>
          destruct (performTSNE_settles v d p w)
            as (promise & w1 & -> & [[-> Hlen] | [layout ->]])
      end.
      + exists w1. right. unfold ret. rewrite length_map in Hlen. auto.
      + exists w1. left. unfold ret. eexists; eexists. split; [reflexivity|].
        split; reflexivity. }
  destruct Htry as [w1 [(rows & var & -> & Hvar) | (-> & Hmethod & Hlen)]].
  - destruct (mapM (formatPoint embeddingData config) rows w1)
      as [[pts|e1] w2] eqn:Hformat; simpl.
    + apply formatPoints_labels in Hformat. simpl in Hformat.
      destruct Hformat as [Hlabels Hids]. auto.
    + apply formatPoints_throws in Hformat. auto.
  - simpl. auto.
Qed.

(** A single record analysed with PCA: one point at the origin, no
    cluster, and the variance 0.5 for every component, without any call of
    ml-pca. *)
Theorem reduceDimensions_single_record
  (item : EmbeddingData) (config : VisualizationConfig) (w : World) :
  embedding item <> [] ->
  method config = method_pca ->
  reduceDimensions E [item] config w =
    (Resolved {| original := [item];
                 reduced :=
                   [ {| Point.x := Some 0;
                        Point.y := Some 0;
                        Point.z := match dimensions config with
                                   | D3 => Some 0
                                   | D2 => None
                                   end;
                        Point.label := sentence item;
                        Point.id := id item |} ];
                 clusters := [];
                 used_method := method_pca;
                 variance := Some (repeat 0.5 (dim_nat (dimensions config))) |}, w).
Proof.
  intros Hvalid Hmethod. unfold reduceDimensions, try_catch, reduce_with.
  rewrite Hmethod. simpl map.
  destruct (embedding item) as [|v vs] eqn:Hemb; [contradiction|].
  destruct (dimensions config) eqn:Hd; simpl; unfold formatPoint; simpl;
    rewrite Hd; reflexivity.
Qed.

End OutcomeFacts.

Section ClusterLabels.

Lemma clusterOf_cases (q : Quadrant) :
  (points q = [] /\ clusterOf q = []) \/
  (points q <> [] /\
   exists c, clusterOf q = [c] /\ label c = name q /\ averageSimilarity c = 0.5).
Proof.
  unfold clusterOf. destruct (points q) as [|p ps]; [left; auto|right].
  split; [discriminate|].
  cbn [length Nat.ltb Nat.leb]. eexists. split; [reflexivity|]. split; reflexivity.
Qed.

Lemma clusters_of_quadrants (l0 l1 l2 l3 : list Point.t) :
  (length (flat_map clusterOf (quadrantsWith l0 l1 l2 l3)) <= 4)%nat /\
  NoDup (map label (flat_map clusterOf (quadrantsWith l0 l1 l2 l3))) /\
  Forall (fun c =>
            In (label c) ["Top-Right"; "Top-Left"; "Bottom-Right"; "Bottom-Left"] /\
            averageSimilarity c = 0.5)
         (flat_map clusterOf (quadrantsWith l0 l1 l2 l3)) /\
  (flat_map clusterOf (quadrantsWith l0 l1 l2 l3) = [] ->
   l0 = [] /\ l1 = [] /\ l2 = [] /\ l3 = []).
Proof.
  unfold quadrantsWith. cbn [flat_map].
  destruct (clusterOf_cases {| name := "Top-Right"; points := l0 |})
    as [[H0 ->]|[H0 (c0 & -> & Hn0 & Hs0)]];
  destruct (clusterOf_cases {| name := "Top-Left"; points := l1 |})
    as [[H1 ->]|[H1 (c1 & -> & Hn1 & Hs1)]];
  destruct (clusterOf_cases {| name := "Bottom-Right"; points := l2 |})
    as [[H2 ->]|[H2 (c2 & -> & Hn2 & Hs2)]];
  destruct (clusterOf_cases {| name := "Bottom-Left"; points := l3 |})
    as [[H3 ->]|[H3 (c3 & -> & Hn3 & Hs3)]];
  cbn [name points] in *; cbn [app map length];
    rewrite ?Hn0, ?Hn1, ?Hn2, ?Hn3;
    (split; [lia|]);
    (split; [repeat constructor; cbn [In]; intuition discriminate|]);
    (split; [repeat (constructor; [split; [rewrite ?Hn0, ?Hn1, ?Hn2, ?Hn3; cbn [In]; auto 6
                                          |assumption]|]); constructor|]);
    intros H; try discriminate; auto.
Qed.

(** The clusters of [performSimpleClustering]: none for fewer than two
    points and otherwise between one and four; no two of them have the
    same name, every name is one of the four quadrants, and every
    [averageSimilarity] is the constant 0.5, whatever the sentences are. *)
Theorem cluster_names_and_scores (reducedData : list Point.t)
  (originalData : list EmbeddingData) :
  (length (performSimpleClustering reducedData originalData) <= 4)%nat /\
  ((2 <= length reducedData)%nat
     <-> performSimpleClustering reducedData originalData <> []) /\
  NoDup (map label (performSimpleClustering reducedData originalData)) /\
  Forall (fun c =>
            In (label c) ["Top-Right"; "Top-Left"; "Bottom-Right"; "Bottom-Left"] /\
            averageSimilarity c = 0.5)
         (performSimpleClustering reducedData originalData).
Proof.
  destruct (Nat.ltb_spec (length reducedData) 2) as [Hlt|Hge].
  - assert (Hnone : performSimpleClustering reducedData originalData = []).
    { unfold performSimpleClustering. apply Nat.ltb_lt in Hlt. rewrite Hlt. reflexivity. }
    rewrite Hnone. simpl. repeat split; try lia; try constructor.
    intros H. contradiction.
  - rewrite (@performSimpleClustering_quadrants reducedData originalData Hge).
    pose proof (quadrants_cover (xMedianOf reducedData) (yMedianOf reducedData) reducedData)
      as Hcover.
    destruct (clusters_of_quadrants
                (quadrantPoints (xMedianOf reducedData) (yMedianOf reducedData) reducedData 0)
                (quadrantPoints (xMedianOf reducedData) (yMedianOf reducedData) reducedData 1)
                (quadrantPoints (xMedianOf reducedData) (yMedianOf reducedData) reducedData 2)
                (quadrantPoints (xMedianOf reducedData) (yMedianOf reducedData) reducedData 3))
      as (Hfour & Hnames & Hall & Hempty).
    split; [exact Hfour|]. split; [|split; assumption].
    split; [|intros _; exact Hge].
    intros _ Hnone. destruct (Hempty Hnone) as (H0 & H1 & H2 & H3).
    rewrite H0, H1, H2, H3 in Hcover. simpl in Hcover.
    apply Permutation_nil in Hcover. rewrite Hcover in Hge. simpl in Hge. lia.
Qed.

End ClusterLabels.

Lemma performPCA_falls_back_witness :
  exists r w',
    performPCA sampleEnv [[1]; [1; 2]] D2 world0 = (Ok r, w') /\
    pca_variance r = repeat 0.3 (dim_nat D2) /\
    length (pca_reduced r) = length [[1]; [1; 2]] /\
    Forall (fun row => length row = dim_nat D2) (pca_reduced r).
Proof.
  apply (@performPCA_falls_back sampleEnv [[1]; [1; 2]] D2 world0
           (Error "Inconsistent array dimensions")).
  - simpl. lia.
  - left. reflexivity.
Defined.

Lemma performTSNE_falls_back_witness :
  exists w',
    performTSNE brokenEnv [[1]; [2]; [3]; [4]] D3 30 world0 =
      (Ok (Resolved
             [ [2; 0; 0];
               [1.2246467991473532e-16; 2; 1.2246467991473532e-16];
               [-2; 2.4492935982947064e-16; -2.4492935982947064e-16];
               [-3.6739403974420594e-16; -2; 3.6739403974420594e-16] ]), w').
Proof.
  apply (@performTSNE_falls_back brokenEnv [[1]; [2]; [3]; [4]] D3 30 world0
           (Error "Perplexity too large")).
  - simpl. lia.
  - left. reflexivity.
Defined.

Lemma scheduled_failure_never_settles_witness :
  exists w',
    reduceDimensions stallingEnv five (config_of method_tsne D2 (Some 30)) world0
      = (Pending, w').
Proof.
  apply (@scheduled_failure_never_settles stallingEnv five
           (config_of method_tsne D2 (Some 30)) world0 0%nat 0%nat 1%nat
           (Error "Gradient is not finite")).
  - simpl. lia.
  - unfold five. simpl. repeat constructor; discriminate.
  - reflexivity.
  - reflexivity.
  - reflexivity.
  - reflexivity.
  - reflexivity.
  - reflexivity.
Defined.

Lemma reduceDimensions_single_record_witness :
  reduceDimensions sampleEnv [record "a" [1; 2; 3]] (config_of method_pca D3 None) world0 =
    (Resolved {| original := [record "a" [1; 2; 3]];
                 reduced :=
                   [ {| Point.x := Some 0;
                        Point.y := Some 0;
                        Point.z := Some 0;
                        Point.label := "a";
                        Point.id := "id-a" |} ];
                 clusters := [];
                 used_method := method_pca;
                 variance := Some [0.5; 0.5; 0.5] |}, world0).
Proof.
  apply (@reduceDimensions_single_record sampleEnv (record "a" [1; 2; 3])
           (config_of method_pca D3 None) world0).
  - discriminate.
  - reflexivity.
Defined.

(** ** Calls into the libraries *)

Section LibraryCalls.

Variable E : Env.

Lemma stepsIn_app (evs1 evs2 : list Event) :
  stepsIn (evs1 ++ evs2) = (stepsIn evs1 + stepsIn evs2)%nat.
Proof.
  unfold stepsIn. rewrite filter_app, length_app. reflexivity.
Qed.

Ltac logged :=
  unfold log; simpl; eexists;
  split; [rewrite <- ?app_assoc; simpl; reflexivity|split; reflexivity].

Lemma step_events (t : TSNE E) (iterations : nat) (w : World) :
  exists evs,
    trace (snd (step E t iterations w)) = (trace w ++ evs)%list /\
    existsb is_PCA_event evs = false /\ stepsIn evs = 1%nat.
Proof.
  unfold step, bind, call, ret.
  destruct (tsne_step E t) as [t'|e]; [|logged].
  destruct (maxIterations <=? Datatypes.S iterations)%nat.
  - destruct (tsne_getSolution E t'); logged.
  - destruct (tsne_isConverged E t') as [[|]|e]; [|logged|logged].
    destruct (tsne_getSolution E t'); logged.
Qed.

(** The runs scheduled after [iterations] runs take at most
    [maxIterations - iterations] steps, however many timers fire. *)
Lemma timers_events (fuel : nat) :
  forall (t : TSNE E) (iterations : nat) (w : World),
    (iterations < maxIterations)%nat ->
    exists evs,
      trace (snd (timers E fuel t iterations w)) = (trace w ++ evs)%list /\
      existsb is_PCA_event evs = false /\
      (stepsIn evs <= maxIterations - iterations)%nat.
Proof.
  induction fuel as [|fuel IH]; intros t iterations w Hcap.
  - exists []. rewrite app_nil_r. split; [reflexivity|]. split; [reflexivity|].
    unfold stepsIn. cbn [filter length]. lia.
  - rewrite (@timers_S E fuel t iterations w).
    destruct (step_events t iterations w) as (evs1 & Htrace & Hpca & Hsteps).
    destruct (step E t iterations w) as [[[[t' iterations'] [solution|]]|e] w1] eqn:Hstep;
      cbn [snd] in Htrace.
    + exists evs1. cbn [snd]. split; [exact Htrace|]. split; [exact Hpca|]. lia.
    + apply step_continues in Hstep. destruct Hstep as [-> Hnext].
      destruct (IH t' (Datatypes.S iterations) w1 Hnext) as (evs2 & Htrace2 & Hpca2 & Hsteps2).
      exists (evs1 ++ evs2)%list. rewrite Htrace2, Htrace, <- app_assoc.
      split; [reflexivity|]. rewrite existsb_app, Hpca, Hpca2, stepsIn_app.
      split; [reflexivity|]. lia.
    + exists evs1. cbn [snd]. split; [exact Htrace|]. split; [exact Hpca|]. lia.
Qed.

Lemma simplePoints_shape (n : nat) (d : Dimensions) (l : list (list number)) :
  forall (i : nat) (w : World),
    exists rows w',
      mapM_from (fun _ i => simplePoint E n d i) l i w = (Ok rows, w') /\
      length rows = length l /\
      Forall (fun row => length row = dim_nat d) rows /\
      trace w' = trace w /\
      randoms w' = (randoms w + match d with
                                | D3 => length l
                                | D2 => 0
                                end)%nat.
Proof.
  induction l as [|v l IH]; intros i w; simpl.
  - exists [], w. unfold ret. repeat split; auto. destruct d; lia.
  - unfold bind at 1.
    assert (Hpoint : exists row w1,
              simplePoint E n d i w = (Ok row, w1) /\ length row = dim_nat d /\
              trace w1 = trace w /\
              randoms w1 = (randoms w + match d with D3 => 1 | D2 => 0 end)%nat).
    { destruct d; unfold simplePoint, bind, random, ret; simpl;
        eexists; eexists; repeat split; simpl; lia. }
    destruct Hpoint as (row & w1 & -> & Hrow & Htrace & Hrandoms).
    unfold bind.
    destruct (IH (Datatypes.S i) w1) as (rows & w2 & -> & Hlen & Hrows & Htrace2 & Hrandoms2).
    exists (row :: rows), w2. unfold ret. simpl.
    repeat split; auto; try congruence.
    rewrite Hrandoms2, Hrandoms. destruct d; lia.
Qed.

(** On fewer than four vectors [performTSNE] makes no call to tsne-js: it
    resolves with one point per vector, each of exactly [dimensions]
    coordinates, and draws one random number per point for three
    dimensions and none for two. *)
Theorem performTSNE_small_layout (embeddings : list (list number)) (d : Dimensions)
  (p : number) (w : World) :
  (length embeddings < 4)%nat ->
  exists layout w',
    performTSNE E embeddings d p w = (Ok (Resolved layout), w') /\
    length layout = length embeddings /\
    Forall (fun row => length row = dim_nat d) layout /\
    trace w' = trace w /\
    randoms w' = (randoms w + match d with
                              | D3 => length embeddings
                              | D2 => 0
                              end)%nat.
Proof.
  intros Hn. unfold performTSNE, try_catch.
  destruct (Nat.ltb_spec (length embeddings) 4) as [_|Hge]; [|lia].
  unfold bind, mapM.
  destruct (simplePoints_shape (length embeddings) d embeddings 0 w)
    as (rows & w' & -> & Hlen & Hrows & Htrace & Hrandoms).
  exists rows, w'. unfold ret. auto.
Qed.

Lemma performTSNE_events (embeddings : list (list number)) (d : Dimensions)
  (p : number) (w : World) :
  exists evs,
    trace (snd (performTSNE E embeddings d p w)) = (trace w ++ evs)%list /\
    existsb is_PCA_event evs = false /\
    (stepsIn evs <= maxIterations)%nat.
Proof.
  destruct (Nat.ltb_spec (length embeddings) 4) as [Hlt|Hge].
  - unfold performTSNE, try_catch.
    destruct (Nat.ltb_spec (length embeddings) 4) as [_|Hge]; [|lia].
    unfold bind, mapM.
    destruct (simplePoints_shape (length embeddings) d embeddings 0 w)
      as (layout & w' & -> & _ & _ & Htrace & _).
    exists []. unfold ret. simpl. rewrite app_nil_r. repeat split; auto.
    unfold stepsIn. simpl. lia.
  - unfold performTSNE, try_catch.
    destruct (Nat.ltb_spec (length embeddings) 4) as [Hlt|_]; [lia|].
    unfold bind at 1. unfold call at 1.
    destruct (tsne_new E (tsneOptions embeddings d p)) as [t|e].
    2:{ exists [TSNE_new (tsneOptions embeddings d p)]. unfold ret. simpl.
        repeat split; auto. unfold stepsIn. simpl. lia. }
    unfold bind at 1. unfold call at 1.
    destruct (tsne_init E t embeddings) as [t'|e].
    2:{ exists [TSNE_new (tsneOptions embeddings d p); TSNE_init embeddings].
        unfold ret. simpl. rewrite <- app_assoc.
        repeat split; auto. unfold stepsIn. simpl. lia. }
    unfold bind.
    destruct (step_events t' 0 (log (TSNE_init embeddings)
                (log (TSNE_new (tsneOptions embeddings d p)) w)))
      as (evs1 & Htrace & Hpca & Hsteps).
    simpl in Htrace. rewrite <- !app_assoc in Htrace. simpl in Htrace.
    destruct (step E t' 0 _) as [[[[t'' iterations] [solution|]]|e] w1] eqn:Hstep;
      simpl in Htrace.
    + exists (TSNE_new (tsneOptions embeddings d p) :: TSNE_init embeddings :: evs1).
      unfold ret. simpl. split; [exact Htrace|]. split; [exact Hpca|].
      unfold stepsIn in *. simpl. unfold maxIterations. lia.
    + apply step_continues in Hstep. destruct Hstep as [-> Hnext].
      destruct (timers_events maxIterations t'' w1 Hnext) as (evs2 & Htrace2 & Hpca2 & Hsteps2).
      destruct (timers E maxIterations t'' 1 w1) as [[promise|e] w2]; simpl in Htrace2 |- *.
      * exists (TSNE_new (tsneOptions embeddings d p) :: TSNE_init embeddings
                  :: evs1 ++ evs2)%list.
        rewrite Htrace2, Htrace, <- app_assoc. simpl.
        split; [reflexivity|]. rewrite existsb_app, Hpca, Hpca2.
        split; [reflexivity|].
        change (stepsIn (TSNE_new (tsneOptions embeddings d p) :: TSNE_init embeddings
                           :: evs1 ++ evs2)%list)
          with (stepsIn (evs1 ++ evs2)%list).
        rewrite stepsIn_app. lia.
      * exists (TSNE_new (tsneOptions embeddings d p) :: TSNE_init embeddings
                  :: evs1 ++ evs2)%list.
        unfold ret. simpl. rewrite Htrace2, Htrace, <- app_assoc. simpl.
        split; [reflexivity|]. rewrite existsb_app, Hpca, Hpca2.
        split; [reflexivity|].
        change (stepsIn (TSNE_new (tsneOptions embeddings d p) :: TSNE_init embeddings
                           :: evs1 ++ evs2)%list)
          with (stepsIn (evs1 ++ evs2)%list).
        rewrite stepsIn_app. lia.
    + exists (TSNE_new (tsneOptions embeddings d p) :: TSNE_init embeddings :: evs1).
      unfold ret. simpl. split; [exact Htrace|]. split; [exact Hpca|].
      unfold stepsIn in *. simpl. unfold maxIterations. lia.
Qed.

Lemma performPCA_events (embeddings : list (list number)) (d : Dimensions) (w : World) :
  exists evs,
    trace (snd (performPCA E embeddings d w)) = (trace w ++ evs)%list /\
    existsb is_TSNE_event evs = false.
Proof.
  unfold performPCA, try_catch.
  destruct (length embeddings <? 2)%nat.
  - exists []. unfold ret. simpl. rewrite app_nil_r. auto.
  - unfold bind at 1. unfold call at 1.
    destruct (pca_predict E embeddings d) as [rows|e].
    + unfold bind at 1. unfold call at 1.
      destruct (pca_getExplainedVariance E embeddings) as [var|e].
      * exists [PCA_predict embeddings d; PCA_getExplainedVariance].
        unfold ret. simpl. rewrite <- app_assoc. auto.
      * unfold bind, mapM.
        destruct (pcaFallback_rows_shape E d embeddings 0
                    (log PCA_getExplainedVariance (log (PCA_predict embeddings d) w)))
          as (fallback & w' & -> & _ & _ & Htrace).
        exists [PCA_predict embeddings d; PCA_getExplainedVariance].
        unfold ret. simpl. rewrite Htrace. simpl. rewrite <- app_assoc. auto.
    + unfold bind, mapM.
      destruct (pcaFallback_rows_shape E d embeddings 0 (log (PCA_predict embeddings d) w))
        as (fallback & w' & -> & _ & _ & Htrace).
      exists [PCA_predict embeddings d]. unfold ret. simpl. rewrite Htrace. auto.
Qed.

Lemma formatPoints_world (embeddingData : list EmbeddingData)
  (config : VisualizationConfig) (rows : list (list number)) :
  forall (i : nat) (w : World),
    snd (mapM_from (formatPoint embeddingData config) rows i w) = w.
Proof.
  induction rows as [|coords rows IH]; intros i w; simpl; [reflexivity|].
  unfold bind at 1. unfold formatPoint at 1.
  destruct (nth_error embeddingData i) as [item|]; simpl; [|reflexivity].
  unfold bind. specialize (IH (Datatypes.S i) w).
  destruct (mapM_from (formatPoint embeddingData config) rows (Datatypes.S i) w)
    as [[pts|e] w1]; simpl in *; exact IH.
Qed.

(** The two reducers do not mix.  With PCA, [reduceDimensions] never
    touches tsne-js; with t-SNE it never runs the ml-matrix and ml-pca
    code of [performPCA], and it runs [tsne.step()] at most 500 times,
    whether or not tsne-js ever reports convergence. *)
Theorem reduceDimensions_library_calls
  (embeddingData : list EmbeddingData) (config : VisualizationConfig) (w : World) :
  exists evs,
    trace (snd (reduceDimensions E embeddingData config w)) = (trace w ++ evs)%list /\
    match method config with
    | method_pca => existsb is_TSNE_event evs = false
    | method_tsne => existsb is_PCA_event evs = false /\ (stepsIn evs <= 500)%nat
    end.
Proof.
  assert (Hnone : exists evs,
            trace w = (trace w ++ evs)%list /\
            match method config with
            | method_pca => existsb is_TSNE_event evs = false
            | method_tsne => existsb is_PCA_event evs = false /\ (stepsIn evs <= 500)%nat
            end).
  { exists []. rewrite app_nil_r. split; [reflexivity|].
    destruct (method config); simpl; [reflexivity|].
    split; auto; unfold stepsIn; simpl; lia. }
  unfold reduceDimensions.
  destruct (length (map embedding embeddingData) =? 0)%nat; [exact Hnone|].
  destruct (existsb _ _); [exact Hnone|].
  assert (Htry : exists evs,
            trace (snd (try_catch (reduce_with E (map embedding embeddingData) config)
                          (fun error => throw (reductionFailed error)) w))
              = (trace w ++ evs)%list /\
            match method config with
            | method_pca => existsb is_TSNE_event evs = false
            | method_tsne => existsb is_PCA_event evs = false /\ (stepsIn evs <= 500)%nat
            end).
  { unfold try_catch, reduce_with. destruct (method config).
    - unfold bind.
      destruct (performPCA_events (map embedding embeddingData) (dimensions config) w)
        as (evs & Htrace & Hpca).
      exists evs. split; [|exact Hpca].
      destruct (performPCA E _ _ w) as [[r|e] w1]; simpl in *; exact Htrace.
    - unfold bind.
      match goal with
      | |- context [performTSNE E ?v ?d ?p w] =>
          destruct (performTSNE_events v d p w) as (evs & Htrace & Hpca);
          exists evs; split; [|exact Hpca];
          destruct (performTSNE E v d p w) as [[[layout|e|]|e] w1]; simpl in *;
          exact Htrace
      end. }
  destruct Htry as (evs & Htrace & Hevs). exists evs. split; [|exact Hevs].
  destruct (try_catch _ _ w) as [[[[rows var]|]|e] w1]; simpl in Htrace |- *;
    try exact Htrace.
  pose proof (formatPoints_world embeddingData config rows 0 w1) as Hworld.
  unfold mapM.
  destruct (mapM_from (formatPoint embeddingData config) rows 0 w1) as [[pts|e1] w2];
    simpl in Hworld |- *; subst w2; exact Htrace.
Qed.

End LibraryCalls.

Lemma performTSNE_small_layout_witness :
  exists layout w',
    performTSNE sampleEnv [[1; 0]; [0; 1]] D3 30 world0 = (Ok (Resolved layout), w') /\
    length layout = length [[1; 0]; [0; 1]] /\
    Forall (fun row => length row = dim_nat D3) layout /\
    trace w' = trace world0 /\
    randoms w' = (randoms world0 + length [[1; 0]; [0; 1]])%nat.
Proof.
  apply (@performTSNE_small_layout sampleEnv [[1; 0]; [0; 1]] D3 30 world0).
  simpl. lia.
Defined.

(** ** The encoder route *)

Section EncoderFacts.

Import SimpleEmbeddings ModelEmbeddings.

Variable L : Lib.
Variable now : string.

Lemma valid_request_status (sentences : list Element) (st : Server L) :
  (1 <= length sentences <= 50)%nat ->
  status (fst (POST now (Ok (Sentences sentences)) st)) = 200%nat \/
  status (fst (POST now (Ok (Sentences sentences)) st)) = 500%nat.
Proof.
  intros Hlen. unfold POST.
  destruct (Nat.eqb_spec (length sentences) 0) as [Hzero|_]; [lia|].
  destruct (Nat.ltb_spec 50 (length sentences)) as [Hmany|_]; [lia|].
  destruct (loadModel st) as [[useModel|e] st1]; [|right; reflexivity].
  destruct (embed L useModel sentences) as [embeddings|e]; [|right; reflexivity].
  destruct (array L embeddings) as [embeddingsArray|e]; [|right; reflexivity].
  destruct (dispose L embeddings) as [u|e]; [left|right]; reflexivity.
Qed.

(** The encoder route answers 400 exactly to the requests it refuses (no
    array, an empty array, more than 50 sentences), and a refused request
    costs nothing: the model is not loaded and TensorFlow.js is not
    called. *)
Theorem POST_refuses_without_loading (request_json : Result Body) (st : Server L) :
  (status (fst (POST now request_json st)) = 400%nat <-> refusedRequest request_json) /\
  (refusedRequest request_json -> snd (POST now request_json st) = st).
Proof.
  unfold refusedRequest. destruct request_json as [[|sentences]|e].
  - simpl. split; [split; auto|auto].
  - destruct (Nat.eqb_spec (length sentences) 0) as [Hzero|Hpos];
      [|destruct (Nat.ltb_spec 50 (length sentences)) as [Hmany|Hfew]].
    + unfold POST. rewrite Hzero. simpl. split; [split; [|reflexivity]|reflexivity].
      intros _. right. exists sentences. auto.
    + unfold POST.
      destruct (Nat.eqb_spec (length sentences) 0) as [Hzero|_]; [lia|].
      destruct (Nat.ltb_spec 50 (length sentences)) as [_|Hfew]; [|lia].
      simpl. split; [split; [|reflexivity]|reflexivity].
      intros _. right. exists sentences. auto.
    + assert (Hvalid : (1 <= length sentences <= 50)%nat) by lia.
      assert (Hnot : ~ (Ok (Sentences sentences) = Ok NotAnArray \/
                        exists l, Ok (Sentences sentences) = Ok (Sentences l) /\
                                  (length l = 0 \/ 50 < length l)%nat)).
      { intros [H|[l [H Hl]]]; [discriminate|]. injection H as <-. lia. }
      split; [split|]; try (intros H; contradiction).
      intros Hstatus.
      destruct (@valid_request_status sentences st Hvalid) as [H|H]; rewrite H in Hstatus;
        discriminate.
  - simpl. split; [split|].
    + discriminate.
    + intros [H|[l [H _]]]; discriminate.
    + reflexivity.
Qed.

Lemma loadsIn_called (c : Call) (st : Server L) :
  is_Load c = false -> loadsIn (calls (called c st)) = loadsIn (calls st).
Proof.
  intros Hc. unfold loadsIn, called. simpl.
  rewrite filter_app, length_app. simpl. rewrite Hc. simpl. lia.
Qed.

(** What holds of the server between requests when [load] succeeds: the
    model is loaded after the one call that loaded it, or not yet. *)
Lemma POST_keeps_one_load (m : Model L) (request_json : Result Body) (st : Server L) :
  load L = Ok m ->
  (model st = None /\ loadsIn (calls st) = 0%nat) \/
  (model st <> None /\ (loadsIn (calls st) <= 1)%nat) ->
  (model (snd (POST now request_json st)) = None /\
   loadsIn (calls (snd (POST now request_json st))) = 0%nat) \/
  (model (snd (POST now request_json st)) <> None /\
   (loadsIn (calls (snd (POST now request_json st))) <= 1)%nat).
Proof.
  intros Hload Hinv. unfold POST.
  destruct request_json as [[|sentences]|e]; try exact Hinv.
  destruct (length sentences =? 0)%nat; [exact Hinv|].
  destruct (50 <? length sentences)%nat; [exact Hinv|].
  assert (Hloaded : exists useModel st1,
            loadModel st = (Ok useModel, st1) /\
            model st1 <> None /\ (loadsIn (calls st1) <= 1)%nat).
  { unfold loadModel. destruct (model st) as [m0|] eqn:Hmodel.
    - exists m0, st. split; [reflexivity|].
      destruct Hinv as [[Hnone _]|[_ Hone]]; [congruence|].
      split; [congruence|exact Hone].
    - rewrite Hload. eexists; eexists. split; [reflexivity|]. simpl.
      split; [discriminate|].
      destruct Hinv as [[_ Hzero]|[Hsome _]]; [|contradiction].
      unfold loadsIn in *. rewrite filter_app, length_app, Hzero. simpl. lia. }
  destruct Hloaded as (useModel & st1 & -> & Hmodel & Hone). right.
  assert (Hcalled : forall (c : Call) (st2 : Server L),
            is_Load c = false ->
            model st2 <> None /\ (loadsIn (calls st2) <= 1)%nat ->
            model (called c st2) <> None /\ (loadsIn (calls (called c st2)) <= 1)%nat).
  { intros c st2 Hc [H1 H2]. rewrite (@loadsIn_called c st2 Hc). split; assumption. }
  pose proof (Hcalled (Embed sentences) st1 eq_refl (conj Hmodel Hone)) as H2.
  pose proof (Hcalled ToArray _ eq_refl H2) as H3.
  pose proof (Hcalled Dispose _ eq_refl H3) as H4.
  destruct (embed L useModel sentences) as [embeddings|e]; [|exact H2].
  destruct (array L embeddings) as [embeddingsArray|e]; [|exact H3].
  destruct (dispose L embeddings) as [u|e]; exact H4.
Qed.

Lemma loadModel_in_two_parts (st : Server L) :
  loadModel st = match loadModel_start st with
                 | (Some m, st') => (Ok m, st')
                 | (None, st') => loadModel_finish st'
                 end.
Proof.
  unfold loadModel, loadModel_start, loadModel_finish.
  destruct (model st); [reflexivity|]. cbv zeta. destruct (load L); reflexivity.
Qed.

(** The model is cached between requests, not across overlapping ones.
    When loading succeeds, a server whose requests come in turn, each
    answered before the next arrives, loads the model at most once,
    whatever the requests are and whether or not the later calls into
    TensorFlow.js fail.  But [loadModel] tests [model] before its first
    [await] and assigns it after its last: two calls that overlap on a
    fresh server both find it [null], and the model is loaded twice. *)
Theorem model_cached_between_requests (m : Model L) (requests : list (Result Body)) :
  load L = Ok m ->
  (loadsIn (calls (serveInTurn now requests (freshServer L))) <= 1)%nat /\
  loadsIn (calls (overlappingLoads (freshServer L))) = 2%nat /\
  (forall st : Server L,
     loadModel st = match loadModel_start st with
                    | (Some m0, st') => (Ok m0, st')
                    | (None, st') => loadModel_finish st'
                    end).
Proof.
  intros Hload. split; [|split; [|exact loadModel_in_two_parts]].
  - assert (Hinv : forall st : Server L,
              (model st = None /\ loadsIn (calls st) = 0%nat) \/
              (model st <> None /\ (loadsIn (calls st) <= 1)%nat) ->
              (model (serveInTurn now requests st) = None /\
               loadsIn (calls (serveInTurn now requests st)) = 0%nat) \/
              (model (serveInTurn now requests st) <> None /\
               (loadsIn (calls (serveInTurn now requests st)) <= 1)%nat)).
    { unfold serveInTurn.
      induction requests as [|request_json requests IH]; intros st Hst.
      - exact Hst.
      - cbn [fold_left]. apply IH. eapply POST_keeps_one_load; eassumption. }
    destruct (Hinv (freshServer L)) as [[_ Hzero]|[_ Hone]].
    + left. split; reflexivity.
    + rewrite Hzero. lia.
    + exact Hone.
  - unfold overlappingLoads, loadModel_start, loadModel_finish, freshServer.
    cbn [model snd called calls]. rewrite Hload. reflexivity.
Qed.

(** A tensor that cannot be read is never disposed of: when
    [embeddings.array()] throws, the route answers 500 with the message of
    the error, and the call [embeddings.dispose()] that follows it in the
    code is not made. *)
Theorem unread_tensor_is_not_disposed (sentences : list Element) (st : Server L)
  (m : Model L) (tensor : Tensor L) (e : thrown) :
  (1 <= length sentences <= 50)%nat ->
  fst (loadModel st) = Ok m ->
  embed L m sentences = Ok tensor ->
  array L tensor = Throw e ->
  fst (POST now (Ok (Sentences sentences)) st)
    = {| status := 500;
         json := Failed "Failed to generate embeddings" (messageOf e) now |} /\
  calls (snd (POST now (Ok (Sentences sentences)) st))
    = (calls (snd (loadModel st)) ++ [Embed sentences; ToArray])%list /\
  model (snd (POST now (Ok (Sentences sentences)) st)) = model (snd (loadModel st)).
Proof.
  intros Hlen Hmodel Hembed Harray. unfold POST.
  destruct (Nat.eqb_spec (length sentences) 0) as [Hzero|_]; [lia|].
  destruct (Nat.ltb_spec 50 (length sentences)) as [Hmany|_]; [lia|].
  destruct (loadModel st) as [[useModel|e0] st1]; simpl in Hmodel; [|discriminate].
  injection Hmodel as ->. rewrite Hembed, Harray. simpl.
  rewrite <- app_assoc. auto.
Qed.

End EncoderFacts.

Lemma model_cached_between_requests_witness :
  (loadsIn (ModelEmbeddings.calls
              (serveInTurn "2024-01-01"
                 [Ok (SimpleEmbeddings.Sentences
                        [SimpleEmbeddings.Text (asciiCodes "a cat");
                         SimpleEmbeddings.Text (asciiCodes "a dog")]);
                  Ok SimpleEmbeddings.NotAnArray;
                  Ok (SimpleEmbeddings.Sentences [SimpleEmbeddings.Text (asciiCodes "again")])]
                 (freshServer sampleLib))) <= 1)%nat /\
  ModelEmbeddings.calls (overlappingLoads (freshServer sampleLib))
    = [ModelEmbeddings.Load; ModelEmbeddings.Load].
Proof.
  destruct (@model_cached_between_requests sampleLib "2024-01-01" tt
              [Ok (SimpleEmbeddings.Sentences
                     [SimpleEmbeddings.Text (asciiCodes "a cat");
                      SimpleEmbeddings.Text (asciiCodes "a dog")]);
               Ok SimpleEmbeddings.NotAnArray;
               Ok (SimpleEmbeddings.Sentences [SimpleEmbeddings.Text (asciiCodes "again")])]
              eq_refl) as (Hturn & _ & _).
  split; [exact Hturn|reflexivity].
Defined.

Lemma unread_tensor_is_not_disposed_witness :
  fst (ModelEmbeddings.POST "2024-01-01"
         (Ok (SimpleEmbeddings.Sentences [SimpleEmbeddings.Text (asciiCodes "a cat"); SimpleEmbeddings.Text (asciiCodes "a dog")]))
         (freshServer unreadableLib))
    = {| ModelEmbeddings.status := 500;
         ModelEmbeddings.json :=
           ModelEmbeddings.Failed "Failed to generate embeddings"
             "Tensor is disposed" "2024-01-01" |} /\
  ModelEmbeddings.calls
    (snd (ModelEmbeddings.POST "2024-01-01"
            (Ok (SimpleEmbeddings.Sentences [SimpleEmbeddings.Text (asciiCodes "a cat"); SimpleEmbeddings.Text (asciiCodes "a dog")]))
            (freshServer unreadableLib)))
    = [ModelEmbeddings.Load;
       ModelEmbeddings.Embed [SimpleEmbeddings.Text (asciiCodes "a cat"); SimpleEmbeddings.Text (asciiCodes "a dog")];
       ModelEmbeddings.ToArray] /\
  ModelEmbeddings.model
    (snd (ModelEmbeddings.POST "2024-01-01"
            (Ok (SimpleEmbeddings.Sentences [SimpleEmbeddings.Text (asciiCodes "a cat"); SimpleEmbeddings.Text (asciiCodes "a dog")]))
            (freshServer unreadableLib)))
    = Some tt.
Proof.
  apply (@unread_tensor_is_not_disposed unreadableLib "2024-01-01"
           [SimpleEmbeddings.Text (asciiCodes "a cat"); SimpleEmbeddings.Text (asciiCodes "a dog")] (freshServer unreadableLib) tt
           [[0.5; 0.5]; [0.5; 0.5]] (Error "Tensor is disposed")).
  - simpl. lia.
  - reflexivity.
  - reflexivity.
  - reflexivity.
Defined.
